(** * LaundryHub: the federated-learning coordinator

    A shallow embedding of [src/ai-ml/federated-learning/federated_coordinator.py]
    (classes [PrivacyEngine], [FederatedClient] as seen by the server, and
    [FederatedServer]) together with the properties of the round protocol.

    Conventions of the embedding.
    - Python [float]s and tensor elements are exact numbers: rationals [Q] in
      the coordinator (so that every definition runs), reals [R] in the
      [PrivacyEngine], which takes square roots.  Rounding is modelled where
      it decides an integer or a branch: in [select_clients] (line 210) and
      in [train64], the training loop with the convergence test of line 327
      evaluated in binary64; see [Binary64].
    - Python [int]s are [Z]; [len] results are [nat].
    - A [state_dict] (an [OrderedDict] from parameter name to tensor) is an
      association list in insertion order; a tensor is the list of its
      elements, its shape being its length.
    - A Python exception that leaves a function is the [Raise] result; the
      state the function was working on is then lost with it.
    - The dictionaries that hold round results are objects shared between
      [FederatedServer.round_results] and the history built by [train]; they
      live in a store and are named by their address. *)

From Stdlib Require Import Reals Lra.
From Stdlib Require Import List String ZArith QArith Qround Qminmax Qabs Lia Lqa Bool Arith.
From Stdlib Require Import Permutation DecimalString DecimalNat.
Import ListNotations.

Local Open Scope Q_scope.

(** ** Exceptions and results *)

Inductive Exception : Type :=
| ZeroDivisionError
| KeyError (key : string)
| RuntimeError                (* torch: tensor shapes do not match *)
| ValueError (msg : string)
| OverflowError.              (* [int] of an infinite float *)

Inductive Result (A : Type) : Type :=
| Ok (a : A)
| Raise (e : Exception).
Arguments Ok {A} a.
Arguments Raise {A} e.

Definition rbind {A B} (r : Result A) (k : A -> Result B) : Result B :=
  match r with
  | Ok a => k a
  | Raise e => Raise e
  end.

Declare Scope result_scope.
Delimit Scope result_scope with result.
Notation "'let*' x ':=' c 'in' k" := (rbind c (fun x => k))
  (at level 10, x name, c at level 100, k at level 200) : result_scope.
Local Open Scope result_scope.

(** ** Tensors and state dictionaries *)

Definition Tensor := list Q.

(** [torch.zeros_like(t)] *)
Definition zeros_like (t : Tensor) : Tensor := map (fun _ => 0) t.

(** [w * t] for a Python float [w] *)
Definition tensor_scale (w : Q) (t : Tensor) : Tensor := map (Qmult w) t.

Fixpoint tensor_add (a b : Tensor) : Tensor :=
  match a, b with
  | x :: a', y :: b' => (x + y) :: tensor_add a' b'
  | _, _ => []
  end.

(** [a += b] on tensors: the shapes have to agree (broadcasting of
    one-element dimensions is left out: the tensors of a state dictionary
    and of its deltas have the shapes of the model's parameters). *)
Definition tensor_iadd (a b : Tensor) : Result Tensor :=
  if Nat.eqb (List.length a) (List.length b) then Ok (tensor_add a b) else Raise RuntimeError.

Definition Dict := list (string * Tensor).

Definition keys (d : Dict) : list string := map fst d.

Fixpoint lookup (key : string) (d : Dict) : option Tensor :=
  match d with
  | [] => None
  | (k, v) :: d' => if String.eqb key k then Some v else lookup key d'
  end.

(** [d[key]] *)
Definition dict_get (key : string) (d : Dict) : Result Tensor :=
  match lookup key d with
  | Some v => Ok v
  | None => Raise (KeyError key)
  end.

(** [d[key] = v]: an existing key keeps its place, a new one goes last. *)
Fixpoint dict_set (key : string) (v : Tensor) (d : Dict) : Dict :=
  match d with
  | [] => [(key, v)]
  | (k, v') :: d' =>
      if String.eqb key k then (k, v) :: d' else (k, v') :: dict_set key v d'
  end.

(** ** Updates and [FederatedServer.aggregate_updates] *)

Record Update : Type := mkUpdate {
  u_client_id : string;
  updates : Dict;
  num_samples : Z;
  loss : Q
}.

(** [a / b] on Python ints *)
Definition py_truediv (a b : Z) : Result Q :=
  if Z.eqb b 0 then Raise ZeroDivisionError else Ok (inject_Z a / inject_Z b).

(** [sum(update['num_samples'] for update in client_updates)] *)
Definition total_samples_of (client_updates : list Update) : Z :=
  fold_left Z.add (map num_samples client_updates) 0%Z.

(** Lines 230-231, the loop over the keys of [aggregated_updates]:
    [aggregated_updates[key] += weight * update['updates'][key]]. *)
Fixpoint accumulate (aggregated : Dict) (weight : Q) (upd : Dict) : Result Dict :=
  match aggregated with
  | [] => Ok []
  | (key, a) :: rest =>
      let* d := dict_get key upd in
      let* a' := tensor_iadd a (tensor_scale weight d) in
      let* rest' := accumulate rest weight upd in
      Ok ((key, a') :: rest')
  end.

(** Lines 228-231, the loop over the updates. *)
Fixpoint weighted_averaging (client_updates : list Update) (total_samples : Z)
    (aggregated : Dict) : Result Dict :=
  match client_updates with
  | [] => Ok aggregated
  | update :: rest =>
      let* weight := py_truediv (num_samples update) total_samples in
      let* aggregated' := accumulate aggregated weight (updates update) in
      weighted_averaging rest total_samples aggregated'
  end.

(** Lines 235-236: [global_state[key] += aggregated_updates[key]]. *)
Fixpoint apply_updates (aggregated : Dict) (global_state : Dict) : Result Dict :=
  match aggregated with
  | [] => Ok global_state
  | (key, a) :: rest =>
      let* g := dict_get key global_state in
      let* g' := tensor_iadd g a in
      apply_updates rest (dict_set key g' global_state)
  end.

(** [aggregate_updates], as a function of the global model's state
    dictionary; [load_state_dict] stores the result back. *)
Definition aggregate_updates (global_state : Dict) (client_updates : list Update)
    : Result Dict :=
  match client_updates with
  | [] => Ok global_state
  | first :: _ =>
      let total_samples := total_samples_of client_updates in
      let aggregated := map (fun kv => (fst kv, zeros_like (snd kv))) (updates first) in
      let* aggregated' := weighted_averaging client_updates total_samples aggregated in
      apply_updates aggregated' global_state
  end.

(** ** Clients, as the server sees them *)

(** The dictionary returned by [FederatedClient.evaluate]; the server adds
    the key ['client_id'] (line 272). *)
Record EvalResult : Type := mkEval {
  accuracy : Q;
  eval_loss : Q;
  eval_num_samples : Z;
  eval_client_id : option string
}.

Definition set_client_id (id : string) (e : EvalResult) : EvalResult :=
  {| accuracy := accuracy e; eval_loss := eval_loss e;
     eval_num_samples := eval_num_samples e; eval_client_id := Some id |}.

(** Local optimisation is outside the coordinator: a client is its
    identifier and its two entry points.  [local_train] receives the model
    handed over by [set_model] and the randomness it consumes (shuffling,
    privacy noise); it returns the update and leaves the client's model
    trained, which is what [evaluate] then runs on.  Either may raise. *)
Record FederatedClient : Type := mkClient {
  client_id : string;
  local_train : Dict -> nat -> Result (Update * Dict);
  evaluate : Dict -> Result EvalResult
}.

Record FederatedConfig : Type := mkConfig {
  num_rounds : Z;
  num_clients : Z;
  local_epochs : Z;
  learning_rate : Q;
  batch_size : Z;
  min_clients : Z;
  privacy_budget : Q;
  noise_multiplier : Q;
  max_grad_norm : Q
}.

(** ** Round results and the store that holds them *)

Inductive Status : Type := insufficient_clients | completed.

(** The two shapes of the dictionary built by [federated_round]; [train]
    adds the key ['round'] afterwards. *)
Inductive RoundResult : Type :=
| Insufficient (client_count : nat) (round : option Z)
| Completed (participating_clients : nat) (avg_loss avg_accuracy : Q)
    (client_evaluations : list EvalResult) (round : option Z).

Definition status (r : RoundResult) : Status :=
  match r with
  | Insufficient _ _ => insufficient_clients
  | Completed _ _ _ _ _ => completed
  end.

Definition round_of (r : RoundResult) : option Z :=
  match r with
  | Insufficient _ rd => rd
  | Completed _ _ _ _ rd => rd
  end.

(** [r['round'] = n] *)
Definition set_round (n : Z) (r : RoundResult) : RoundResult :=
  match r with
  | Insufficient c _ => Insufficient c (Some n)
  | Completed p l a evs _ => Completed p l a evs (Some n)
  end.

Definition addr := nat.

Definition Store := list RoundResult.

Fixpoint store_update (a : addr) (f : RoundResult -> RoundResult) (s : Store) : Store :=
  match s, a with
  | [], _ => []
  | r :: s', O => f r :: s'
  | r :: s', S a' => r :: store_update a' f s'
  end.

(** ** The server and the world it runs in *)

Record FederatedServer : Type := mkServer {
  global_model : Dict;              (* [global_model.state_dict()] *)
  config : FederatedConfig;
  clients : list FederatedClient;
  round_results : list addr
}.

(** The ambient random generator: the stream of its future draws. *)
Definition Rng := nat -> nat.

Definition rng_shift (g : Rng) : Rng := fun i => g (S i).

Record World : Type := mkWorld {
  server : FederatedServer;
  store : Store;
  rng : Rng
}.

Definition M (A : Type) : Type := World -> Result (A * World).

Definition ret {A} (a : A) : M A := fun w => Ok (a, w).

Definition bind {A B} (m : M A) (k : A -> M B) : M B :=
  fun w => match m w with
           | Ok (a, w') => k a w'
           | Raise e => Raise e
           end.

Definition lift {A} (r : Result A) : M A :=
  fun w => match r with
           | Ok a => Ok (a, w)
           | Raise e => Raise e
           end.

Declare Scope world_scope.
Delimit Scope world_scope with world.
Notation "x <- c ;; k" := (bind c (fun x => k))
  (at level 61, c at next level, right associativity) : world_scope.
Notation "c ;;; k" := (bind c (fun _ => k))
  (at level 61, right associativity) : world_scope.
Local Open Scope world_scope.

Definition get_server : M FederatedServer := fun w => Ok (server w, w).

Definition put_server (s : FederatedServer) : M unit :=
  fun w => Ok (tt, {| server := s; store := store w; rng := rng w |}).

(** One draw of the generator. *)
Definition draw : M nat :=
  fun w => Ok (rng w 0%nat,
               {| server := server w; store := store w; rng := rng_shift (rng w) |}).

(** A new dictionary object. *)
Definition alloc (r : RoundResult) : M addr :=
  fun w => Ok (List.length (store w),
               {| server := server w; store := store w ++ [r]; rng := rng w |}).

Definition read (a : addr) : M RoundResult :=
  fun w => match nth_error (store w) a with
           | Some r => Ok (r, w)
           | None => Raise (ValueError "dangling reference")
           end.

Definition modify (a : addr) (f : RoundResult -> RoundResult) : M unit :=
  fun w => Ok (tt, {| server := server w; store := store_update a f (store w);
                      rng := rng w |}).

(** ** [FederatedServer.add_client] *)

(** [self.clients.append(client)] *)
Definition add_client (client : FederatedClient) : M unit :=
  s <- get_server ;;
  put_server {| global_model := global_model s; config := config s;
                clients := clients s ++ [client];
                round_results := round_results s |}.

(** ** Binary64 floating point

    A Python float is a binary64 number; a finite one is written here as
    the rational it denotes.  [round] is the rounding of the machine: to
    the nearest binary64 number, ties to the even significand, with 53
    significant bits down to the subnormal step [2^-1074].  [mul] and
    [add] are the operations on finite floats: the exact result rounded,
    [None] when the rounded result is infinite. *)
Module Binary64.

Definition pow2 (k : Z) : Q :=
  if (0 <=? k)%Z then inject_Z (2 ^ k) else 1 # Z.to_pos (2 ^ (- k)).

(** [floor(log2 x)] for a positive [x]. *)
Definition ilog2 (x : Q) : Z :=
  let k := (Z.log2 (Qnum x) - Z.log2 (Zpos (Qden x)))%Z in
  if Qle_bool (pow2 k) x then k else (k - 1)%Z.

Definition round_half_even (x : Q) : Z :=
  let f := Qfloor x in
  match Qcompare (x - inject_Z f) (1 # 2) with
  | Lt => f
  | Gt => (f + 1)%Z
  | Eq => if Z.even f then f else (f + 1)%Z
  end.

(** The exponent of the last bit kept for [x]. *)
Definition exponent (x : Q) : Z := Z.max (ilog2 (Qabs x) - 52) (-1074).

Definition round (x : Q) : Q :=
  let x := Qred x in
  if Qeq_bool x 0 then 0
  else let e := exponent x in inject_Z (round_half_even (x / pow2 e)) * pow2 e.

(** The largest finite float, [(2^53 - 1) * 2^971]. *)
Definition max_float : Q := inject_Z ((2 ^ 53 - 1) * 2 ^ 971).

Definition finite (x : Q) : bool := Qle_bool (Qabs x) max_float.

(** [x] is a finite binary64 number. *)
Definition is_float (x : Q) : bool := Qeq_bool (round x) x && finite x.

(** [x * y].  A factor [1.0] leaves the other operand as it is. *)
Definition mul (x y : Q) : option Q :=
  if Qeq_bool y 1 then Some x
  else let r := round (x * y) in if finite r then Some r else None.

(** [x + y] *)
Definition add (x y : Q) : option Q :=
  let r := round (x + y) in if finite r then Some r else None.

End Binary64.

(** ** [FederatedServer.select_clients] *)

(** [int(x)] on a float: truncation towards zero. *)
Definition py_int (x : Q) : Z :=
  if Qle_bool 0 x then Qfloor x else Qceiling x.

Fixpoint remove_at {A} (i : nat) (l : list A) : list A :=
  match l, i with
  | [], _ => []
  | _ :: l', O => l'
  | x :: l', S i' => x :: remove_at i' l'
  end.

(** The first [size] entries of a random permutation of [remaining]: each
    draw picks one of the positions still left and takes it out. *)
Fixpoint permutation_prefix (size : nat) (remaining : list nat) : M (list nat) :=
  match size with
  | O => ret []
  | S size' =>
      d <- draw ;;
      let i := (d mod List.length remaining)%nat in
      match nth_error remaining i with
      | Some p =>
          ps <- permutation_prefix size' (remove_at i remaining) ;;
          ret (p :: ps)
      | None => ret []
      end
  end.

(** [a[idx]] for a list of positions. *)
Definition take_positions {A} (a : list A) (idx : list nat) : list A :=
  flat_map (fun i => match nth_error a i with Some x => [x] | None => [] end) idx.

(** [np.random.choice(a, size, replace=False)]: numpy permutes the
    positions of [a] and keeps the first [size]; it refuses an empty [a]
    and a sample larger than the population. *)
Definition random_choice {A} (a : list A) (size : nat) : M (list A) :=
  if Nat.eqb (List.length a) 0 && negb (Nat.eqb size 0) then
    lift (Raise (ValueError "a cannot be empty unless no samples are taken"))
  else if Nat.ltb (List.length a) size then
    lift (Raise (ValueError "Cannot take a larger sample than population when replace is False"))
  else
    idx <- permutation_prefix size (seq 0 (List.length a)) ;;
    ret (take_positions a idx).

(** Line 210, [max(1, int(len(self.clients) * fraction))].  The length
    converts to a float exactly (a list has fewer than [2^53] entries), the
    product is the binary64 product, and [int] of an infinite product
    raises [OverflowError]. *)
Definition num_selected_of (pool : nat) (fraction : Q) : Result Z :=
  match Binary64.mul (inject_Z (Z.of_nat pool)) fraction with
  | Some x => Ok (Z.max 1 (py_int x))
  | None => Raise OverflowError
  end.

Definition select_clients (fraction : Q) : M (list FederatedClient) :=
  s <- get_server ;;
  num_selected <- lift (num_selected_of (List.length (clients s)) fraction) ;;
  random_choice (clients s) (Z.to_nat num_selected).

(** ** [FederatedServer.federated_round] *)

Definition Qsum (l : list Q) : Q := fold_left Qplus l 0.

(** [np.mean] of a list of floats *)
Definition mean (l : list Q) : Q := Qsum l / inject_Z (Z.of_nat (List.length l)).

(** Lines 255-280, the loop over the selected clients.  Every client gets a
    clone of the global state (the global model has the architecture of
    [LaundryPredictionModel], so that building the clone does not fail:
    see [clonable], which the statements that [train] never raises take as
    a hypothesis); what the client raises is caught and the loop goes on
    with the next client.  An update is kept as soon as [local_train]
    returns, its evaluation only if [evaluate] returns too. *)
Fixpoint train_clients (selected_clients : list FederatedClient)
    (client_updates : list Update) (client_evaluations : list EvalResult)
    : M (list Update * list EvalResult) :=
  match selected_clients with
  | [] => ret (client_updates, client_evaluations)
  | client :: rest =>
      s <- get_server ;;
      let client_model := global_model s in
      seed <- draw ;;
      match local_train client client_model seed with
      | Raise _ => train_clients rest client_updates client_evaluations
      | Ok (update_result, trained_model) =>
          let client_updates := client_updates ++ [update_result] in
          match evaluate client trained_model with
          | Raise _ => train_clients rest client_updates client_evaluations
          | Ok eval_result =>
              train_clients rest client_updates
                (client_evaluations ++ [set_client_id (client_id client) eval_result])
          end
      end
  end.

(** [self.aggregate_updates(client_updates)] on the server's model. *)
Definition server_aggregate_updates (client_updates : list Update) : M unit :=
  s <- get_server ;;
  global_state <- lift (aggregate_updates (global_model s) client_updates) ;;
  put_server {| global_model := global_state; config := config s;
                clients := clients s; round_results := round_results s |}.

(** [self.round_results.append(round_result)] *)
Definition append_round_result (a : addr) : M unit :=
  s <- get_server ;;
  put_server {| global_model := global_model s; config := config s;
                clients := clients s; round_results := round_results s ++ [a] |}.

Definition is_empty {A} (l : list A) : bool :=
  match l with [] => true | _ => false end.

Definition federated_round : M addr :=
  selected_clients <- select_clients 1 ;;
  s <- get_server ;;
  if (Z.of_nat (List.length selected_clients) <? min_clients (config s))%Z then
    alloc (Insufficient (List.length selected_clients) None)
  else
    collected <- train_clients selected_clients [] [] ;;
    let client_updates := fst collected in
    let client_evaluations := snd collected in
    (if is_empty client_updates then ret tt
     else server_aggregate_updates client_updates) ;;;
    let avg_loss :=
      if is_empty client_updates then 0 else mean (map loss client_updates) in
    let avg_accuracy :=
      if is_empty client_evaluations then 0 else mean (map accuracy client_evaluations) in
    round_result <- alloc (Completed (List.length client_updates) avg_loss avg_accuracy
                             client_evaluations None) ;;
    append_round_result round_result ;;;
    ret round_result.

(** ** [FederatedServer.train] *)

Record TrainingHistory : Type := mkHistory {
  rounds : list addr;
  final_accuracy : Q;
  convergence_round : Z
}.

Definition convergence_threshold : Q := 1 # 1000.
Definition patience : nat := 3.

Record Tracker : Type := mkTracker {
  best_accuracy : Q;
  no_improvement_count : nat
}.

(** [a > b] on floats *)
Definition Qgt_bool (a b : Q) : bool := negb (Qle_bool a b).

(** Lines 327-331. *)
Definition check_convergence (current_accuracy : Q) (t : Tracker) : Tracker :=
  if Qgt_bool current_accuracy (best_accuracy t + convergence_threshold) then
    {| best_accuracy := current_accuracy; no_improvement_count := 0 |}
  else
    {| best_accuracy := best_accuracy t;
       no_improvement_count := S (no_improvement_count t) |}.

(** Lines 316-337, the loop over [range(num_rounds)]; the result is the
    list of rounds, the tracker and ['convergence_round']. *)
Fixpoint train_loop (range : list nat) (history_rounds : list addr) (t : Tracker)
    : M (list addr * Tracker * Z) :=
  match range with
  | [] => ret (history_rounds, t, (-1)%Z)
  | round_num :: range' =>
      round_result <- federated_round ;;
      modify round_result (set_round (Z.of_nat round_num + 1)) ;;;
      let history_rounds := history_rounds ++ [round_result] in
      r <- read round_result ;;
      match r with
      | Completed _ _ current_accuracy _ _ =>
          let t := check_convergence current_accuracy t in
          if Nat.leb patience (no_improvement_count t) then
            ret (history_rounds, t, (Z.of_nat round_num + 1)%Z)
          else train_loop range' history_rounds t
      | Insufficient _ _ => train_loop range' history_rounds t
      end
  end.

Definition train : M TrainingHistory :=
  s <- get_server ;;
  res <- train_loop (seq 0 (Z.to_nat (num_rounds (config s)))) []
           {| best_accuracy := 0; no_improvement_count := 0 |} ;;
  let '(history_rounds, t, convergence) := res in
  ret {| rounds := history_rounds; final_accuracy := best_accuracy t;
         convergence_round := convergence |}.

(** The records a history points to, as they are in store [s]. *)
Definition records (s : Store) (h : list addr) : list RoundResult :=
  flat_map (fun a => match nth_error s a with Some r => [r] | None => [] end) h.

(** ** The convergence tracker in the specification's words

    State [best_accuracy] and [no_improvement_count], both initially 0.  A
    COMPLETED record with average accuracy [a] sets the best to [a] and the
    counter to 0 when [a > best + 0.001], and increments the counter
    otherwise; an INSUFFICIENT_CLIENTS record changes neither.  STOP is
    signalled when the counter has reached the patience of 3. *)
Module ConvergenceTracker.

Definition init : Tracker := {| best_accuracy := 0; no_improvement_count := 0 |}.

Definition observe (t : Tracker) (r : RoundResult) : Tracker :=
  match r with
  | Insufficient _ _ => t
  | Completed _ _ a _ _ =>
      match (best_accuracy t + (1 # 1000)) ?= a with
      | Lt => {| best_accuracy := a; no_improvement_count := 0 |}
      | _ => {| best_accuracy := best_accuracy t;
                 no_improvement_count := no_improvement_count t + 1 |}
      end
  end.

Definition after (rs : list RoundResult) : Tracker := fold_left observe rs init.

Definition stop (t : Tracker) : Prop := (3 <= no_improvement_count t)%nat.

End ConvergenceTracker.

(** ** [FederatedServer.train] with the test of line 327 in binary64

    [current_accuracy > best_accuracy + convergence_threshold] as the
    interpreter evaluates it: [convergence_threshold] is the float 0.001,
    the sum is the binary64 sum, and no finite accuracy exceeds an infinite
    sum.  The loop is the loop of [train]; only the test differs, and the
    round procedure is a parameter, so that what is proved of the loop
    holds whatever a round computes. *)

Definition convergence_threshold64 : Q :=
  Eval vm_compute in Binary64.round convergence_threshold.

Definition check_convergence64 (current_accuracy : Q) (t : Tracker) : Tracker :=
  let improved :=
    match Binary64.add (best_accuracy t) convergence_threshold64 with
    | Some sum => Qgt_bool current_accuracy sum
    | None => false
    end in
  if improved then
    {| best_accuracy := current_accuracy; no_improvement_count := 0 |}
  else
    {| best_accuracy := best_accuracy t;
       no_improvement_count := S (no_improvement_count t) |}.

(** Lines 316-337 over a given round procedure, [self.federated_round] in
    the source, and a given evaluation [check] of lines 327-331. *)
Fixpoint train_loop_with (round : M addr) (check : Q -> Tracker -> Tracker)
    (range : list nat) (history_rounds : list addr) (t : Tracker)
    : M (list addr * Tracker * Z) :=
  match range with
  | [] => ret (history_rounds, t, (-1)%Z)
  | round_num :: range' =>
      round_result <- round ;;
      modify round_result (set_round (Z.of_nat round_num + 1)) ;;;
      let history_rounds := history_rounds ++ [round_result] in
      r <- read round_result ;;
      match r with
      | Completed _ _ current_accuracy _ _ =>
          let t := check current_accuracy t in
          if Nat.leb patience (no_improvement_count t) then
            ret (history_rounds, t, (Z.of_nat round_num + 1)%Z)
          else train_loop_with round check range' history_rounds t
      | Insufficient _ _ => train_loop_with round check range' history_rounds t
      end
  end.

Definition train_with (round : M addr) (check : Q -> Tracker -> Tracker)
    : M TrainingHistory :=
  s <- get_server ;;
  res <- train_loop_with round check (seq 0 (Z.to_nat (num_rounds (config s)))) []
           {| best_accuracy := 0; no_improvement_count := 0 |} ;;
  let '(history_rounds, t, convergence) := res in
  ret {| rounds := history_rounds; final_accuracy := best_accuracy t;
         convergence_round := convergence |}.

Definition train64 : M TrainingHistory :=
  train_with federated_round check_convergence64.

(** What [train] relies on in a round: the call returns the address of one
    new record, created at the end of the store, and leaves the records
    that were there as they were. *)
Definition round_protocol (round : M addr) : Prop :=
  forall w a w', round w = Ok (a, w') ->
    exists r, store w' = store w ++ [r] /\ a = List.length (store w).

(** The tracker of the specification with its test read as the code
    evaluates it: a COMPLETED record with average accuracy [a] sets the
    best to [a] and the counter to 0 when [a] exceeds the binary64 sum of
    the best and the float 0.001, and increments the counter otherwise. *)
Module FloatTracker.

Definition observe (t : Tracker) (r : RoundResult) : Tracker :=
  match r with
  | Insufficient _ _ => t
  | Completed _ _ a _ _ =>
      match Binary64.add (best_accuracy t) convergence_threshold64 with
      | Some sum =>
          match sum ?= a with
          | Lt => {| best_accuracy := a; no_improvement_count := 0 |}
          | _ => {| best_accuracy := best_accuracy t;
                     no_improvement_count := no_improvement_count t + 1 |}
          end
      | None => {| best_accuracy := best_accuracy t;
                   no_improvement_count := no_improvement_count t + 1 |}
      end
  end.

Definition after (rs : list RoundResult) : Tracker :=
  fold_left observe rs ConvergenceTracker.init.

End FloatTracker.

(** The average accuracies of the COMPLETED records of a list. *)
Definition completed_accuracies (rs : list RoundResult) : list Q :=
  flat_map (fun r => match r with
                     | Completed _ _ a _ _ => [a]
                     | Insufficient _ _ => []
                     end) rs.


(** ** [PrivacyEngine.add_noise_to_gradients]

    The gradients of a model are the list of [param.grad], one entry per
    parameter, [None] where a parameter has no gradient.  The Gaussian
    sampler is a parameter: [normal i j] is the standard normal draw for
    element [j] of parameter [i]. *)
Module PrivacyEngine.

Local Open Scope R_scope.

Definition Grad := list R.

Definition sum_sq (g : Grad) : R := fold_right (fun x acc => x * x + acc) 0 g.

(** [g.norm(2)] *)
Definition norm2 (g : Grad) : R := sqrt (sum_sq g).

(** Lines 82-85: [total_norm += param_norm.item() ** 2]. *)
Fixpoint sum_param_norms (grads : list (option Grad)) (total_norm : R) : R :=
  match grads with
  | [] => total_norm
  | None :: rest => sum_param_norms rest total_norm
  | Some g :: rest => sum_param_norms rest (total_norm + norm2 g ^ 2)
  end.

(** Line 86: [total_norm ** (1. / 2)]. *)
Definition total_norm (grads : list (option Grad)) : R :=
  sqrt (sum_param_norms grads 0).

Definition epsilon : R := 1 / 1000000.

Definition clip_coef (max_grad_norm : R) (grads : list (option Grad)) : R :=
  max_grad_norm / (total_norm grads + epsilon).

(** Lines 89-93: every gradient is scaled by the one coefficient. *)
Definition clip_gradients (max_grad_norm : R) (grads : list (option Grad))
    : list (option Grad) :=
  let c := clip_coef max_grad_norm grads in
  if Rlt_dec c 1 then map (option_map (map (Rmult c))) grads else grads.

Fixpoint add_noise_elems (std : R) (draws : nat -> R) (j : nat) (g : Grad) : Grad :=
  match g with
  | [] => []
  | x :: g' => (x + std * draws j) :: add_noise_elems std draws (S j) g'
  end.

(** Lines 96-103: noise of the gradient's shape is added to it;
    [torch.normal] refuses a negative standard deviation. *)
Fixpoint add_noise (std : R) (normal : nat -> nat -> R) (i : nat)
    (grads : list (option Grad)) : Result (list (option Grad)) :=
  match grads with
  | [] => Ok []
  | None :: rest =>
      let* rest' := add_noise std normal (S i) rest in
      Ok (None :: rest')
  | Some g :: rest =>
      if Rlt_dec std 0 then Raise RuntimeError
      else
        let* rest' := add_noise std normal (S i) rest in
        Ok (Some (add_noise_elems std (normal i) 0 g) :: rest')
  end.

Definition add_noise_to_gradients (noise_multiplier max_grad_norm : R)
    (normal : nat -> nat -> R) (grads : list (option Grad))
    : Result (list (option Grad)) :=
  let clipped := clip_gradients max_grad_norm grads in
  add_noise (noise_multiplier * max_grad_norm) normal 0 clipped.

(** The gradients as one flattened vector. *)
Definition flatten (grads : list (option Grad)) : Grad :=
  flat_map (fun p => match p with Some g => g | None => [] end) grads.

Definition flat_norm (grads : list (option Grad)) : R := norm2 (flatten grads).

End PrivacyEngine.

(** ** Scenarios

    Scripted clients, to run the coordinator on concrete inputs. *)
Module Scenario.

Definition default_config : FederatedConfig :=
  {| num_rounds := 10; num_clients := 5; local_epochs := 5;
     learning_rate := 1 # 100; batch_size := 32; min_clients := 3;
     privacy_budget := 1; noise_multiplier := 1 # 10; max_grad_norm := 1 |}.

Definition with_rounds (n m : Z) : FederatedConfig :=
  {| num_rounds := n; num_clients := 5; local_epochs := 5;
     learning_rate := 1 # 100; batch_size := 32; min_clients := m;
     privacy_budget := 1; noise_multiplier := 1 # 10; max_grad_norm := 1 |}.

(** The value of the scalar parameter [w], as a round counter. *)
Definition counter (model : Dict) : nat :=
  match lookup "w" model with
  | Some (x :: _) => Z.to_nat (Qfloor x)
  | _ => 0%nat
  end.

(** A client with [samples] samples that always reports the delta [+1]
    for [w] and whose accuracy follows the script [accs]: the [k]-th
    entry when its trained model has [w = k + 1]. *)
Definition scripted (id : string) (samples : Z) (accs : list Q) : FederatedClient :=
  {| client_id := id;
     local_train := fun model _ =>
       Ok ({| u_client_id := id; updates := [("w"%string, [1])];
              num_samples := samples; loss := 1 # 4 |},
           [("w"%string, [inject_Z (Z.of_nat (counter model)) + 1])]);
     evaluate := fun model =>
       Ok {| accuracy := nth (counter model - 1) accs 0; eval_loss := 1 # 4;
             eval_num_samples := samples; eval_client_id := None |} |}.

(** A client whose local training raises. *)
Definition failing (id : string) : FederatedClient :=
  {| client_id := id;
     local_train := fun _ _ => Raise (ValueError "Model not set for client");
     evaluate := fun _ => Raise (ValueError "Model not set for client") |}.

Definition world_of (cfg : FederatedConfig) (cs : list FederatedClient) : World :=
  {| server := {| global_model := [("w"%string, [0])]; config := cfg;
                  clients := cs; round_results := [] |};
     store := [];
     rng := fun i => i |}.

(** One client, accuracies 0.5, 0.5005, 0.5007, 0.5006 and then 0.9. *)
Definition early_stop : World :=
  world_of (with_rounds 10 1)
    [scripted "facility_0" 100
       [5 # 10; 5005 # 10000; 5007 # 10000; 5006 # 10000; 9 # 10; 9 # 10]].


(** Five clients, the third of which raises in local training. *)
Definition one_failure : World :=
  world_of default_config
    [scripted "facility_0" 100 [1 # 2]; scripted "facility_1" 300 [1 # 2];
     failing "facility_2"; scripted "facility_3" 100 [1 # 2];
     scripted "facility_4" 100 [1 # 2]].

(** Three clients, all of which raise. *)
Definition all_fail : World :=
  world_of default_config [failing "facility_0"; failing "facility_1"; failing "facility_2"].



(** One registered client where three are required. *)
Definition too_few : World :=
  world_of default_config [scripted "facility_0" 100 [1 # 2]].

(** Two clients without samples. *)
Definition no_samples : World :=
  world_of (with_rounds 10 1)
    [scripted "facility_0" 0 [1 # 2]; scripted "facility_1" 0 [1 # 2]].

(** One client reporting the floats 0.5, 0.5005, 0.5007, 0.5006, and the
    run of [train64] on it. *)
Definition float_early_stop : World :=
  world_of (with_rounds 10 1)
    [scripted "facility_0" 100
       (map Binary64.round
          [5 # 10; 5005 # 10000; 5007 # 10000; 5006 # 10000; 9 # 10; 9 # 10])].

Definition float_early_stop_run : TrainingHistory * World :=
Eval vm_compute in
  match train64 float_early_stop with
  | Ok p => p
  | Raise _ => (mkHistory [] 0 0, float_early_stop)
  end.

(** One client reporting the floats 0.009, 0.01, 0.01, 0.01 over four
    rounds, and the run of [train64] on it. *)
Definition decimal_step : World :=
  world_of (with_rounds 4 1)
    [scripted "facility_0" 100
       (map Binary64.round [9 # 1000; 10 # 1000; 10 # 1000; 10 # 1000])].

Definition decimal_step_run : TrainingHistory * World :=
Eval vm_compute in
  match train64 decimal_step with
  | Ok p => p
  | Raise _ => (mkHistory [] 0 0, decimal_step)
  end.

(** One client reporting the floats 0.5 and 0.501 over two rounds, and
    the run of [train64] on it. *)
Definition float_step : World :=
  world_of (with_rounds 2 1)
    [scripted "facility_0" 100 (map Binary64.round [5 # 10; 501 # 1000])].

Definition float_step_run : TrainingHistory * World :=
Eval vm_compute in
  match train64 float_step with
  | Ok p => p
  | Raise _ => (mkHistory [] 0 0, float_step)
  end.

(** The run of [train] on [early_stop]. *)
Definition early_stop_run : TrainingHistory * World :=
Eval vm_compute in
  match train early_stop with
  | Ok p => p
  | Raise _ => (mkHistory [] 0 0, early_stop)
  end.


(** The rounds run on [too_few] and [all_fail]. *)
Definition too_few_round : addr * World :=
Eval vm_compute in
  match federated_round too_few with
  | Ok p => p
  | Raise _ => (0%nat, too_few)
  end.

Definition all_fail_round : addr * World :=
Eval vm_compute in
  match federated_round all_fail with
  | Ok p => p
  | Raise _ => (0%nat, all_fail)
  end.

(** The selection and the round on [one_failure]. *)
Definition one_failure_selection : list FederatedClient * World :=
Eval vm_compute in
  match select_clients 1 one_failure with
  | Ok p => p
  | Raise _ => ([], one_failure)
  end.

Definition one_failure_round : addr * World :=
Eval vm_compute in
  match federated_round one_failure with
  | Ok p => p
  | Raise _ => (0%nat, one_failure)
  end.

End Scenario.

(** ** Vocabulary of the statements *)

Definition get (key : string) (d : Dict) : Tensor :=
  match lookup key d with
  | Some t => t
  | None => []
  end.

(** Element [j] of the delta a client reports for [key]. *)
Definition delta_at (u : Update) (key : string) (j : nat) : Q :=
  nth j (get key (updates u)) 0.

(** [Σ_i (n_i / total) * delta_i[key][j]] *)
Definition weighted_sum (total : Z) (client_updates : list Update)
    (key : string) (j : nat) : Q :=
  fold_right
    (fun u acc => inject_Z (num_samples u) / inject_Z total * delta_at u key j + acc)
    0 client_updates.

(** A delta follows a schema: its keys are those of the key set [K], each
    once, and every one of its tensors sits under a key of the global state
    and has the shape of the tensor there. *)
Definition follows_schema (global_state : Dict) (K : list string) (delta : Dict)
    : Prop :=
  NoDup (keys delta) /\
  (forall k, In k (keys delta) <-> In k K) /\
  (forall k t, lookup k delta = Some t ->
               exists g, lookup k global_state = Some g /\
                         List.length t = List.length g).

(** The generator after [n] draws. *)
Definition rng_skip (n : nat) (g : Rng) : Rng := fun i => g (n + i)%nat.

(** The updates of the clients whose local training returned, in the order
    of selection; the [i]-th selected client trains with draw [g i]. *)
Fixpoint trained_updates (global_state : Dict) (g : Rng)
    (selected : list FederatedClient) : list Update :=
  match selected with
  | [] => []
  | c :: rest =>
      match local_train c global_state (g 0%nat) with
      | Ok (u, _) => u :: trained_updates global_state (rng_shift g) rest
      | Raise _ => trained_updates global_state (rng_shift g) rest
      end
  end.

(** The evaluations of the clients that both trained and evaluated. *)
Fixpoint trained_evaluations (global_state : Dict) (g : Rng)
    (selected : list FederatedClient) : list EvalResult :=
  match selected with
  | [] => []
  | c :: rest =>
      match local_train c global_state (g 0%nat) with
      | Ok (_, m) =>
          match evaluate c m with
          | Ok e => set_client_id (client_id c) e
                      :: trained_evaluations global_state (rng_shift g) rest
          | Raise _ => trained_evaluations global_state (rng_shift g) rest
          end
      | Raise _ => trained_evaluations global_state (rng_shift g) rest
      end
  end.

(** The clients of a list whose local training raises. *)
Fixpoint failed_clients (global_state : Dict) (g : Rng)
    (selected : list FederatedClient) : list FederatedClient :=
  match selected with
  | [] => []
  | c :: rest =>
      match local_train c global_state (g 0%nat) with
      | Ok _ => failed_clients global_state (rng_shift g) rest
      | Raise _ => c :: failed_clients global_state (rng_shift g) rest
      end
  end.

(** What one pass of [accumulate] leaves in an entry of the aggregate. *)
Definition grows_by (f : string -> nat -> Q) (kv kv' : string * Tensor) : Prop :=
  fst kv' = fst kv /\
  List.length (snd kv') = List.length (snd kv) /\
  forall j, (j < List.length (snd kv))%nat ->
            nth j (snd kv') 0 == nth j (snd kv) 0 + f (fst kv) j.

Definition fits (upd : Dict) (kv : string * Tensor) : Prop :=
  exists d, lookup (fst kv) upd = Some d /\ List.length d = List.length (snd kv).

(** The record a completed round builds from what it collected. *)
Definition completed_record (client_updates : list Update)
    (client_evaluations : list EvalResult) : RoundResult :=
  Completed (List.length client_updates)
    (if is_empty client_updates then 0 else mean (map loss client_updates))
    (if is_empty client_evaluations then 0 else mean (map accuracy client_evaluations))
    client_evaluations None.

(** Addresses of the COMPLETED records among [rs], stored from [a] on. *)
Fixpoint completed_from (a : addr) (rs : list RoundResult) : list addr :=
  match rs with
  | [] => []
  | r :: rs' =>
      match status r with
      | completed => a :: completed_from (S a) rs'
      | insufficient_clients => completed_from (S a) rs'
      end
  end.

(** A COMPLETED record whose average accuracy is [a]. *)
Definition completed_with (r : RoundResult) (a : Q) : Prop :=
  match r with
  | Completed _ _ a' _ _ => a' == a
  | Insufficient _ _ => False
  end.

(** Two state dictionaries with the same keys and, under each key, tensors
    of equal elements. *)
Definition dict_equiv (d1 d2 : Dict) : Prop :=
  keys d1 = keys d2 /\
  forall k t1, lookup k d1 = Some t1 ->
    exists t2, lookup k d2 = Some t2 /\ Forall2 Qeq t1 t2.

(** Two updates for the scalar parameter [w], with 100 and 300 samples,
    and a third one without samples. *)
Definition update_a : Update := mkUpdate "facility_0" [("w"%string, [1])] 100 0.
Definition update_b : Update := mkUpdate "facility_1" [("w"%string, [3])] 300 0.
Definition update_empty : Update := mkUpdate "facility_2" [("w"%string, [7])] 0 0.

(** A server with the configuration, the registry and the model
    architecture (keys and shapes of the state dictionary) of another. *)
Definition same_architecture (s s' : FederatedServer) : Prop :=
  config s' = config s /\
  clients s' = clients s /\
  keys (global_model s') = keys (global_model s) /\
  forall k g, lookup k (global_model s) = Some g ->
    exists g', lookup k (global_model s') = Some g' /\ List.length g' = List.length g.

(** A client is well behaved for a model architecture when, handed any
    model of that architecture (the keys and shapes of [gm0]), every update
    it returns has a delta with exactly the keys of the model, each once,
    and its shapes, and reports a positive number of samples. *)
Definition well_behaved (gm0 : Dict) (c : FederatedClient) : Prop :=
  forall gm seed u m,
    keys gm = keys gm0 ->
    (forall k g, lookup k gm0 = Some g ->
       exists g', lookup k gm = Some g' /\ List.length g' = List.length g) ->
    local_train c gm seed = Ok (u, m) ->
    follows_schema gm (keys gm) (updates u) /\ (0 < num_samples u)%Z.

(** ** [FederatedClient]: the client with its data

    [set_model], [local_train] and [evaluate] as the class has them.  What
    [torch] computes is a parameter: the batches of one pass over the
    [DataLoader] (reshuffled at every pass, so a function of the seed and of
    the pass), the training step of lines 143-151 (gradients, privacy noise
    and optimiser step: the new state dictionary and [loss.item()], or the
    exception of a torch call), the loss of a batch and the class predicted
    for a sample.
    [len(self.dataloader)] is the number of batches of a pass. *)
Module Client.

Definition Sample : Type := (list Q * Z)%type.

Record Torch : Type := mkTorch {
  dataloader : list Sample -> Z -> nat -> nat -> list (list Sample);
  training_step : FederatedConfig -> Dict -> list Sample -> nat -> nat -> Result (Dict * Q);
  batch_loss : Dict -> list Sample -> Q;
  predict : Dict -> list Q -> Z
}.

Record State : Type := mkState {
  id : string;
  cfg : FederatedConfig;
  dataset : list Sample;
  model : option Dict
}.

Definition set_model (m : Dict) (c : State) : State :=
  {| id := id c; cfg := cfg c; dataset := dataset c; model := Some m |}.

Fixpoint tensor_minus (a b : Tensor) : Tensor :=
  match a, b with
  | x :: a', y :: b' => (x - y) :: tensor_minus a' b'
  | _, _ => []
  end.

(** [a - b] on tensors of one shape *)
Definition tensor_sub (a b : Tensor) : Result Tensor :=
  if Nat.eqb (List.length a) (List.length b) then Ok (tensor_minus a b)
  else Raise RuntimeError.

(** Line 133, [optim.SGD(self.model.parameters(), lr=...)]: torch refuses
    a negative learning rate and a model without parameters. *)
Definition sgd (learning_rate : Q) (parameters : Dict) : Result unit :=
  if negb (Qle_bool 0 learning_rate) then Raise (ValueError "Invalid learning rate")
  else if is_empty parameters then
    Raise (ValueError "optimizer got an empty parameter list")
  else Ok tt.

(** Lines 142-153, one pass over the batches; what a step raises leaves
    the method. *)
Fixpoint train_batches (T : Torch) (config : FederatedConfig) (seed : nat)
    (batches : list (list Sample)) (state : Dict) (total_loss : Q) (num_batches : nat)
    : Result (Dict * Q * nat) :=
  match batches with
  | [] => Ok (state, total_loss, num_batches)
  | batch :: rest =>
      let* step := training_step T config state batch seed num_batches in
      train_batches T config seed rest (fst step) (total_loss + snd step)
        (S num_batches)
  end.

(** Lines 141-153, the loop over [range(local_epochs)]. *)
Fixpoint train_epochs (T : Torch) (config : FederatedConfig) (data : list Sample)
    (seed : nat) (epochs : list nat) (state : Dict) (total_loss : Q) (num_batches : nat)
    : Result (Dict * Q * nat) :=
  match epochs with
  | [] => Ok (state, total_loss, num_batches)
  | epoch :: rest =>
      let* pass := train_batches T config seed
                     (dataloader T data (batch_size config) seed epoch)
                     state total_loss num_batches in
      train_epochs T config data seed rest (fst (fst pass)) (snd (fst pass)) (snd pass)
  end.

(** Lines 156-158: [updates[key] = state_dict()[key] - initial_state[key]]. *)
Fixpoint compute_updates (initial_state final_state updates : Dict) : Result Dict :=
  match initial_state with
  | [] => Ok updates
  | (key, v0) :: rest =>
      let* v := dict_get key final_state in
      let* d := tensor_sub v v0 in
      compute_updates rest final_state (dict_set key d updates)
  end.

Definition local_train (T : Torch) (c : State) (seed : nat) : Result (Update * State) :=
  match model c with
  | None => Raise (ValueError "Model not set for client")
  | Some initial_state =>
      let* _ := sgd (learning_rate (cfg c)) initial_state in
      let* trained :=
        train_epochs T (cfg c) (dataset c) seed
          (seq 0 (Z.to_nat (local_epochs (cfg c)))) initial_state 0 0 in
      let final_state := fst (fst trained) in
      let total_loss := snd (fst trained) in
      let num_batches := snd trained in
      let* updates := compute_updates initial_state final_state [] in
      Ok ({| u_client_id := id c;
             updates := updates;
             num_samples := Z.of_nat (List.length (dataset c));
             loss := if Nat.ltb 0 num_batches
                     then total_loss / inject_Z (Z.of_nat num_batches) else 0 |},
          {| id := id c; cfg := cfg c; dataset := dataset c;
             model := Some final_state |})
  end.

(** [(predicted == batch_labels).sum().item()] *)
Definition count_correct (T : Torch) (m : Dict) (batch : list Sample) : nat :=
  List.length (filter (fun s => Z.eqb (predict T m (fst s)) (snd s)) batch).

(** Lines 179-186. *)
Fixpoint evaluate_batches (T : Torch) (m : Dict) (batches : list (list Sample))
    (correct total : nat) (total_loss : Q) : nat * nat * Q :=
  match batches with
  | [] => (correct, total, total_loss)
  | batch :: rest =>
      evaluate_batches T m rest (correct + count_correct T m batch)
        (total + List.length batch) (total_loss + batch_loss T m batch)
  end.

Definition evaluate (T : Torch) (c : State) (seed : nat) : Result EvalResult :=
  match model c with
  | None => Raise (ValueError "Model not set for client")
  | Some m =>
      let batches := dataloader T (dataset c) (batch_size (cfg c)) seed 0 in
      let res := evaluate_batches T m batches 0 0 0 in
      let correct := fst (fst res) in
      let total := snd (fst res) in
      let total_loss := snd res in
      Ok {| accuracy := if Nat.ltb 0 total
                        then inject_Z (Z.of_nat correct) / inject_Z (Z.of_nat total)
                        else 0;
            eval_loss := if Nat.ltb 0 (List.length batches)
                         then total_loss / inject_Z (Z.of_nat (List.length batches))
                         else 0;
            eval_num_samples := Z.of_nat (List.length (dataset c));
            eval_client_id := None |}
  end.

End Client.

(** The client as the server drives it in a round: [set_model] with the
    clone of the global model, then [local_train], then [evaluate] on the
    trained model; the evaluation pass draws its batches with
    [eval_seed]. *)
Definition as_federated (T : Client.Torch) (eval_seed : nat) (c : Client.State)
    : FederatedClient :=
  {| client_id := Client.id c;
     local_train := fun m seed =>
       match Client.local_train T (Client.set_model m c) seed with
       | Ok (u, c') =>
           match Client.model c' with
           | Some trained => Ok (u, trained)
           | None => Raise (ValueError "Model not set for client")
           end
       | Raise e => Raise e
       end;
     evaluate := fun m => Client.evaluate T (Client.set_model m c) eval_seed |}.

(** Two state dictionaries of one architecture: the same keys in the same
    order and tensors of the same shapes. *)
Definition same_shapes (d d' : Dict) : Prop :=
  keys d' = keys d /\
  forall k g, lookup k d = Some g ->
    exists g', lookup k d' = Some g' /\ List.length g' = List.length g.

(** The training step leaves the architecture of the model alone. *)
Definition preserves_shapes (T : Client.Torch) : Prop :=
  forall config state batch seed n state' l,
    Client.training_step T config state batch seed n = Ok (state', l) ->
    same_shapes state state'.

(** ** [LaundryPredictionModel]: the state dictionary of the architecture

    [nn.Sequential] names the parameters of its layers by position, and
    the three [nn.Linear] layers of lines 55-63 sit at positions 0, 3 and
    6; the weight of [nn.Linear(n, m)] has [m * n] elements and its bias
    [m]. *)
Definition LaundryPredictionModel_shapes (input_size hidden_size num_classes : nat)
    : list (string * nat) :=
  [("network.0.weight"%string, hidden_size * input_size);
   ("network.0.bias"%string, hidden_size);
   ("network.3.weight"%string, (hidden_size / 2) * hidden_size);
   ("network.3.bias"%string, hidden_size / 2);
   ("network.6.weight"%string, num_classes * (hidden_size / 2));
   ("network.6.bias"%string, num_classes)]%nat.

Definition shapes_of (d : Dict) : list (string * nat) :=
  map (fun kv => (fst kv, List.length (snd kv))) d.

(** The global model is a [LaundryPredictionModel] of hidden size 128, as
    [setup_federation] builds it: lines 254-262 of [federated_round] then
    build the clone for a client and load the global state into it
    without raising. *)
Definition clonable (global_model : Dict) : Prop :=
  exists input_size num_classes,
    shapes_of global_model = LaundryPredictionModel_shapes input_size 128 num_classes.

(** The delta of a key: the final tensor minus the initial one. *)
Definition delta_of (final_state : Dict) (kv : string * Tensor) : string * Tensor :=
  (fst kv, Client.tensor_minus (get (fst kv) final_state) (snd kv)).

(** A stand-in for [torch] in the examples: every pass is one batch with
    the whole dataset (no batch for an empty dataset), the training step
    moves every parameter by the learning rate and reports the loss 0.5,
    and the class predicted for a sample is 1 when its first feature
    reaches the first parameter of [w], 0 otherwise. *)
Module Example.

Definition one_batch (data : list Client.Sample) (_ : Z) (_ _ : nat)
    : list (list Client.Sample) :=
  match data with
  | [] => []
  | _ => [data]
  end.

Definition shift_step (config : FederatedConfig) (state : Dict)
    (_ : list Client.Sample) (_ _ : nat) : Result (Dict * Q) :=
  Ok (map (fun kv => (fst kv, map (Qplus (learning_rate config)) (snd kv))) state, 1 # 2).

Definition threshold (m : Dict) (x : list Q) : Z :=
  match lookup "w" m, x with
  | Some (w :: _), f :: _ => if Qle_bool w f then 1%Z else 0%Z
  | _, _ => 0%Z
  end.

Definition torch : Client.Torch :=
  {| Client.dataloader := one_batch;
     Client.training_step := shift_step;
     Client.batch_loss := fun _ _ => 1 # 2;
     Client.predict := threshold |}.

Definition facility (id : string) (data : list Client.Sample) : Client.State :=
  {| Client.id := id; Client.cfg := Scenario.with_rounds 2 1;
     Client.dataset := data; Client.model := None |}.

Definition facility_0 : Client.State :=
  facility "facility_0" [([1], 1%Z); ([0], 0%Z); ([2], 0%Z)].

Definition facility_1 : Client.State :=
  facility "facility_1" [([3], 1%Z)].

Definition model0 : Dict := [("w"%string, [1 # 2])].

Definition trained_0 : Update * Client.State :=
  Eval vm_compute in
    match Client.local_train torch (Client.set_model model0 facility_0) 0 with
    | Ok p => p
    | Raise _ => (mkUpdate "" [] 0 0, facility_0)
    end.

Definition evaluated_0 : EvalResult :=
  Eval vm_compute in
    match Client.evaluate torch (Client.set_model model0 facility_0) 0 with
    | Ok r => r
    | Raise _ => {| accuracy := 0; eval_loss := 0; eval_num_samples := 0;
                    eval_client_id := None |}
    end.

(** A client configured with no local epoch. *)
Definition no_epochs : FederatedConfig :=
  {| num_rounds := 2; num_clients := 5; local_epochs := 0;
     learning_rate := 1 # 100; batch_size := 32; min_clients := 1;
     privacy_budget := 1; noise_multiplier := 1 # 10; max_grad_norm := 1 |}.

Definition resting : Client.State :=
  {| Client.id := "facility_0"; Client.cfg := no_epochs;
     Client.dataset := [([1], 1%Z); ([0], 0%Z); ([2], 0%Z)];
     Client.model := Some model0 |}.

(** A [LaundryPredictionModel] with one input, hidden size 128 and one
    class, all its parameters zero. *)
Definition laundry_model : Dict :=
  map (fun kn => (fst kn, repeat 0 (snd kn))) (LaundryPredictionModel_shapes 1 128 1).

(** A client with [samples] samples that reports a zero delta for every
    parameter of the model it is given, and an accuracy of 0.5. *)
Definition steady (id : string) (samples : Z) : FederatedClient :=
  {| client_id := id;
     local_train := fun model _ =>
       Ok ({| u_client_id := id;
              updates := map (fun kv => (fst kv, zeros_like (snd kv))) model;
              num_samples := samples; loss := 1 # 4 |}, model);
     evaluate := fun _ =>
       Ok {| accuracy := 1 # 2; eval_loss := 1 # 4;
             eval_num_samples := samples; eval_client_id := None |} |}.

Definition laundry_world (cs : list FederatedClient) : World :=
  {| server := {| global_model := laundry_model; config := Scenario.with_rounds 2 1;
                  clients := cs; round_results := [] |};
     store := [];
     rng := fun i => i |}.

Definition federation : World :=
  laundry_world (map (as_federated torch 0) [facility_0; facility_1]).

End Example.

(** ** [FederatedLearningCoordinator.setup_federation]

    The global model starts from the state dictionary of a fresh
    [LaundryPredictionModel] (a parameter: its initial weights are random),
    the server starts without clients and without round results, and the
    facilities are registered in the order of [enumerate(facility_data)]
    under the names [f"facility_{i}"]. *)
Module Coordinator.

(** [f"facility_{i}"] *)
Definition facility_name (i : nat) : string :=
  ("facility_" ++ NilEmpty.string_of_uint (Nat.to_uint i))%string.

(** The fields of [FederatedClient(f"facility_{i}", data, labels, config)]. *)
Definition client_state (i : nat) (data : list Client.Sample) (config : FederatedConfig)
    : Client.State :=
  {| Client.id := facility_name i; Client.cfg := config;
     Client.dataset := data; Client.model := None |}.

(** [FederatedClient.__init__], lines 108-121: the [DataLoader] with
    [shuffle=True] refuses an empty dataset, and a batch size that is not
    positive. *)
Definition new_client (i : nat) (data : list Client.Sample) (config : FederatedConfig)
    : Result Client.State :=
  if is_empty data then
    Raise (ValueError "num_samples should be a positive integer value")
  else if (batch_size config <=? 0)%Z then
    Raise (ValueError "batch_size should be a positive integer value")
  else Ok (client_state i data config).

(** Lines 418-420, the loop over [enumerate(facility_data)]. *)
Fixpoint add_clients (T : Client.Torch) (eval_seed : nat) (config : FederatedConfig)
    (i : nat) (facility_data : list (list Client.Sample)) : M unit :=
  match facility_data with
  | [] => ret tt
  | data :: rest =>
      client <- lift (new_client i data config) ;;
      add_client (as_federated T eval_seed client) ;;;
      add_clients T eval_seed config (S i) rest
  end.

Definition setup_federation (T : Client.Torch) (eval_seed : nat) (initial_model : Dict)
    (config : FederatedConfig) (facility_data : list (list Client.Sample)) (g : Rng)
    : Result World :=
  let w := {| server := {| global_model := initial_model; config := config;
                           clients := []; round_results := [] |};
              store := []; rng := g |} in
  let* r := add_clients T eval_seed config 0 facility_data w in
  Ok (snd r).

(** The clients [setup_federation] builds for the facilities from index
    [i] on, in order. *)
Fixpoint enrolled (T : Client.Torch) (eval_seed : nat) (config : FederatedConfig)
    (i : nat) (facility_data : list (list Client.Sample)) : list FederatedClient :=
  match facility_data with
  | [] => []
  | data :: rest =>
      as_federated T eval_seed (client_state i data config)
        :: enrolled T eval_seed config (S i) rest
  end.

End Coordinator.

(** ** [create_synthetic_data]: the label of a sample

    Lines 372-374 and 393-402, for one sample: the three factors, the
    demand score and its class.  [np.digitize(x, bins)] with increasing
    bins is the number of bins that are at most [x]; [np.clip(x, lo, hi)]
    is [min(max(x, lo), hi)]. *)
Module SyntheticData.

Definition weekend_factor (day : Z) : Q :=
  if (5 <=? day)%Z then 15 # 10 else 1.

Definition evening_factor (hour : Z) : Q :=
  if ((18 <=? hour) || (hour <=? 6))%Z then 13 # 10 else 1.

Definition holiday_factor (holiday : Z) : Q :=
  if (holiday =? 1)%Z then 7 # 10 else 1.

Definition demand_score (hour day holiday : Z) (occupancy noise : Q) : Q :=
  (3 # 10) * weekend_factor day +
  (2 # 10) * evening_factor hour +
  (1 # 10) * holiday_factor holiday +
  (2 # 10) * (occupancy / 100) +
  (2 # 10) * noise.

Definition digitize (x : Q) (bins : list Q) : Z :=
  Z.of_nat (List.length (filter (fun b => Qle_bool b x) bins)).

Definition clip (x lo hi : Z) : Z := Z.min (Z.max x lo) hi.

Definition label (hour day holiday : Z) (occupancy noise : Q) : Z :=
  clip (digitize (demand_score hour day holiday occupancy noise) [3 # 10; 7 # 10; 1]) 0 2.

End SyntheticData.

(** * Properties *)

(** ** Association lists *)

Lemma lookup_In_keys key d t : lookup key d = Some t -> In key (keys d).
Proof.
  induction d as [|[k v] d IH]; simpl; [discriminate|].
  destruct (String.eqb_spec key k); [subst; auto | intro H; right; auto].
Qed.

Lemma In_keys_lookup key d : In key (keys d) -> exists t, lookup key d = Some t.
Proof.
  induction d as [|[k v] d IH]; simpl; [tauto|].
  destruct (String.eqb_spec key k); [eauto|].
  intros [E|H]; [congruence | auto].
Qed.

Lemma lookup_not_In key d : ~ In key (keys d) -> lookup key d = None.
Proof.
  intro H. destruct (lookup key d) eqn:E; [|reflexivity].
  elim H. eapply lookup_In_keys; eauto.
Qed.

Lemma keys_dict_set key v d : In key (keys d) -> keys (dict_set key v d) = keys d.
Proof.
  induction d as [|[k v'] d IH]; simpl; [tauto|].
  destruct (String.eqb_spec key k); simpl; [reflexivity|].
  intros [E|H]; [congruence | f_equal; auto].
Qed.

Lemma lookup_dict_set key v d k :
  In key (keys d) ->
  lookup k (dict_set key v d) = if String.eqb k key then Some v else lookup k d.
Proof.
  induction d as [|[k0 v0] d IH]; simpl; [tauto|].
  intros Hin. destruct (String.eqb_spec key k0) as [->|Hne]; simpl.
  - destruct (String.eqb k k0); reflexivity.
  - destruct Hin as [E|Hin]; [congruence|].
    rewrite (IH Hin).
    destruct (String.eqb_spec k k0) as [->|]; [|reflexivity].
    destruct (String.eqb_spec k0 key); [congruence | reflexivity].
Qed.

(** ** Tensors *)

Lemma tensor_add_length a b :
  List.length a = List.length b -> List.length (tensor_add a b) = List.length a.
Proof.
  revert b; induction a as [|x a IH]; intros [|y b]; simpl; try discriminate; auto.
Qed.

Lemma tensor_scale_length w t : List.length (tensor_scale w t) = List.length t.
Proof. apply length_map. Qed.

Lemma zeros_like_length t : List.length (zeros_like t) = List.length t.
Proof. apply length_map. Qed.

Lemma tensor_iadd_ok a b :
  List.length a = List.length b -> tensor_iadd a b = Ok (tensor_add a b).
Proof. intro H. unfold tensor_iadd. rewrite H, Nat.eqb_refl. reflexivity. Qed.

Lemma nth_tensor_add a b j :
  List.length a = List.length b -> (j < List.length a)%nat ->
  nth j (tensor_add a b) 0 = nth j a 0 + nth j b 0.
Proof.
  revert b j; induction a as [|x a IH]; intros [|y b] j; simpl; try discriminate;
    try lia.
  intros H Hj. destruct j; [reflexivity|]. apply IH; lia.
Qed.

Lemma nth_tensor_scale w t j :
  (j < List.length t)%nat -> nth j (tensor_scale w t) 0 = w * nth j t 0.
Proof.
  revert j; induction t as [|x t IH]; intros j; simpl; [lia|].
  intro Hj. destruct j; [reflexivity|]. apply IH; lia.
Qed.

Lemma nth_zeros_like t j : nth j (zeros_like t) 0 = 0.
Proof.
  revert j; induction t as [|x t IH]; intros [|j]; simpl; auto.
Qed.

(** ** The loops of [aggregate_updates] *)

Lemma accumulate_ok aggregated w upd :
  Forall (fits upd) aggregated ->
  exists aggregated',
    accumulate aggregated w upd = Ok aggregated' /\
    Forall2 (grows_by (fun k j => w * nth j (get k upd) 0)) aggregated aggregated'.
Proof.
  induction aggregated as [|[key a] rest IH]; intros Hfit.
  - exists []. split; [reflexivity | constructor].
  - inversion Hfit as [|? ? [d [Hd Hlen]] Hrest]; subst. simpl in Hd, Hlen.
    destruct (IH Hrest) as [rest' [Hacc Hrel]].
    exists ((key, tensor_add a (tensor_scale w d)) :: rest'). split.
    + simpl. unfold dict_get. rewrite Hd. simpl.
      rewrite tensor_iadd_ok by (rewrite tensor_scale_length; lia).
      simpl. rewrite Hacc. reflexivity.
    + constructor; [|exact Hrel].
      unfold grows_by; simpl. split; [reflexivity|]. split.
      * apply tensor_add_length. rewrite tensor_scale_length. lia.
      * intros j Hj. unfold get. rewrite Hd.
        rewrite nth_tensor_add by (rewrite ?tensor_scale_length; lia).
        rewrite nth_tensor_scale by lia. reflexivity.
Qed.

Lemma Forall2_grows_fits upd f aggregated aggregated' :
  Forall2 (grows_by f) aggregated aggregated' ->
  Forall (fits upd) aggregated -> Forall (fits upd) aggregated'.
Proof.
  induction 1 as [|kv kv' l l' [Hk [Hl _]] _ IH]; intro Hf; [constructor|].
  inversion Hf as [|? ? [d [Hd Hlen]] Hrest]; subst.
  constructor; [|auto].
  exists d. rewrite Hk, Hl. auto.
Qed.

Lemma Forall2_grows_trans f1 f2 l1 l2 l3 :
  Forall2 (grows_by f1) l1 l2 -> Forall2 (grows_by f2) l2 l3 ->
  Forall2 (grows_by (fun k j => f1 k j + f2 k j)) l1 l3.
Proof.
  intro H; revert l3; induction H as [|x y l l' [Hk [Hl Hv]] _ IH]; intros l3 H23;
    inversion H23 as [|? z ? l3' [Hk' [Hl' Hv']] Hrest]; subst; constructor; auto.
  unfold grows_by. split; [congruence|]. split; [congruence|].
  intros j Hj. rewrite Hv' by lia. rewrite Hv by lia. rewrite Hk. ring.
Qed.

Lemma Forall2_grows_ext f1 f2 l1 l2 :
  (forall k j, f1 k j == f2 k j) ->
  Forall2 (grows_by f1) l1 l2 -> Forall2 (grows_by f2) l1 l2.
Proof.
  intros Hext; induction 1 as [|x y l l' [Hk [Hl Hv]] _ IH]; constructor; auto.
  unfold grows_by; repeat split; auto.
  intros j Hj. rewrite Hv by lia. rewrite Hext. reflexivity.
Qed.

Lemma Forall2_grows_refl l : Forall2 (grows_by (fun _ _ => 0)) l l.
Proof.
  induction l; constructor; auto.
  unfold grows_by; repeat split; auto. intros; ring.
Qed.

Lemma Forall2_grows_keys f l l' : Forall2 (grows_by f) l l' -> keys l' = keys l.
Proof.
  induction 1 as [|x y l l' [Hk _] _ IH]; [reflexivity|].
  unfold keys in *. simpl. rewrite Hk, IH. reflexivity.
Qed.

Lemma Forall2_grows_lookup f l l' k a :
  Forall2 (grows_by f) l l' -> lookup k l = Some a ->
  exists a', lookup k l' = Some a' /\ grows_by f (k, a) (k, a').
Proof.
  induction 1 as [|[k1 a1] [k2 a2] l l' Hg _ IH]; simpl; [discriminate|].
  pose proof Hg as [Hk _]. simpl in Hk. subst k2.
  destruct (String.eqb_spec k k1) as [->|]; [|exact IH].
  intros [= ->]. eauto.
Qed.

Lemma py_truediv_ok a b : b <> 0%Z -> py_truediv a b = Ok (inject_Z a / inject_Z b).
Proof.
  intro H. unfold py_truediv. destruct (Z.eqb_spec b 0); [contradiction | reflexivity].
Qed.

Lemma weighted_averaging_ok client_updates total aggregated :
  total <> 0%Z ->
  Forall (fun u => Forall (fits (updates u)) aggregated) client_updates ->
  exists aggregated',
    weighted_averaging client_updates total aggregated = Ok aggregated' /\
    Forall2 (grows_by (weighted_sum total client_updates)) aggregated aggregated'.
Proof.
  intro Htot. revert aggregated.
  induction client_updates as [|u rest IH]; intros aggregated Hfit.
  - exists aggregated. split; [reflexivity|]. apply Forall2_grows_refl.
  - inversion Hfit as [|? ? Hu Hrest]; subst.
    destruct (accumulate_ok aggregated (inject_Z (num_samples u) / inject_Z total)
                (updates u) Hu) as [agg1 [Hacc Hrel1]].
    destruct (IH agg1) as [agg2 [Hwa Hrel2]].
    { eapply Forall_impl; [|exact Hrest]. intros u' Hu'.
      eapply Forall2_grows_fits; eauto. }
    exists agg2. split.
    + simpl. rewrite py_truediv_ok by assumption. simpl. rewrite Hacc. exact Hwa.
    + eapply Forall2_grows_ext; [|eapply Forall2_grows_trans; eauto].
      intros k j. simpl. unfold delta_at. reflexivity.
Qed.

Lemma apply_updates_ok aggregated : forall global_state,
  NoDup (keys aggregated) ->
  Forall (fits global_state) aggregated ->
  exists global_state',
    apply_updates aggregated global_state = Ok global_state' /\
    keys global_state' = keys global_state /\
    forall k, lookup k global_state' =
              match lookup k aggregated with
              | Some a => Some (tensor_add (get k global_state) a)
              | None => lookup k global_state
              end.
Proof.
  induction aggregated as [|[key a] rest IH]; intros gs Hnd Hfit.
  - exists gs. simpl. auto.
  - inversion Hnd as [|? ? Hnotin Hnd']; subst.
    inversion Hfit as [|? ? [g [Hg Hlen]] Hrest]; subst. simpl in Hg, Hlen.
    pose proof (lookup_In_keys _ _ _ Hg) as Hin.
    destruct (IH (dict_set key (tensor_add g a) gs) Hnd') as [gs' [Happ [Hkeys Hlk]]].
    { rewrite Forall_forall in *. intros [k a'] Hk.
      destruct (Hrest _ Hk) as [g' [Hg' Hlen']]. simpl in Hg', Hlen'.
      exists g'. simpl. split; [|assumption].
      rewrite lookup_dict_set by assumption.
      destruct (String.eqb_spec k key) as [->|]; [|assumption].
      elim Hnotin. change (In key (keys rest)).
      unfold keys. apply in_map_iff. exists (key, a'). auto. }
    exists gs'. split; [|split].
    + simpl. unfold dict_get. rewrite Hg. simpl.
      rewrite tensor_iadd_ok by assumption. simpl. exact Happ.
    + rewrite Hkeys. apply keys_dict_set; assumption.
    + intro k. rewrite Hlk. simpl.
      destruct (String.eqb_spec k key) as [->|Hne].
      * rewrite (lookup_not_In key rest) by exact Hnotin.
        rewrite lookup_dict_set by assumption. rewrite String.eqb_refl.
        unfold get. rewrite Hg. reflexivity.
      * unfold get. rewrite lookup_dict_set by assumption.
        destruct (String.eqb_spec k key); [contradiction | reflexivity].
Qed.

Lemma In_lookup_NoDup d k t : NoDup (keys d) -> In (k, t) d -> lookup k d = Some t.
Proof.
  induction d as [|[k0 t0] d IH]; simpl; [tauto|].
  intros Hnd Hin. inversion Hnd as [|? ? Hnotin Hnd']; subst.
  destruct Hin as [[= -> ->]|Hin].
  - rewrite String.eqb_refl. reflexivity.
  - destruct (String.eqb_spec k k0) as [->|]; [|auto].
    elim Hnotin. unfold keys. apply in_map_iff. exists (k0, t). auto.
Qed.

Lemma lookup_zeroed k d :
  lookup k (map (fun kv => (fst kv, zeros_like (snd kv))) d)
  = option_map zeros_like (lookup k d).
Proof.
  induction d as [|[k0 t0] d IH]; simpl; [reflexivity|].
  destruct (String.eqb k k0); auto.
Qed.

Lemma keys_zeroed d : keys (map (fun kv => (fst kv, zeros_like (snd kv))) d) = keys d.
Proof. unfold keys. rewrite map_map. reflexivity. Qed.

Lemma total_samples_zero client_updates :
  Forall (fun u => num_samples u = 0%Z) client_updates ->
  total_samples_of client_updates = 0%Z.
Proof.
  unfold total_samples_of. induction 1 as [|u l Hu _ IH]; simpl; [reflexivity|].
  rewrite Hu. exact IH.
Qed.

Lemma aggregate_updates_zero_total global_state client_updates :
  client_updates <> [] -> total_samples_of client_updates = 0%Z ->
  aggregate_updates global_state client_updates = Raise ZeroDivisionError.
Proof.
  destruct client_updates as [|first rest]; [congruence|].
  intros _ Htot. unfold aggregate_updates. rewrite Htot. reflexivity.
Qed.

(** [aggregate_updates] returns only on an empty list or a non-zero total. *)
Lemma aggregate_updates_returns global_state client_updates global_state' :
  aggregate_updates global_state client_updates = Ok global_state' ->
  client_updates = [] \/ total_samples_of client_updates <> 0%Z.
Proof.
  intro H. destruct client_updates as [|first rest]; [auto|]. right.
  intro Htot. rewrite aggregate_updates_zero_total in H by (auto; discriminate).
  discriminate.
Qed.

(** ** Claims about [aggregate_updates] *)

Lemma weighted_sum_absent total client_updates key j :
  Forall (fun u => lookup key (updates u) = None) client_updates ->
  weighted_sum total client_updates key j == 0.
Proof.
  induction 1 as [|u l Hu _ IH]; simpl; [reflexivity|].
  rewrite IH. unfold delta_at, get. rewrite Hu. destruct j; simpl; ring.
Qed.

(** C1. For a non-empty list of updates whose sample counts sum to a
    positive total and whose deltas share one key set [K] (every tensor of
    a delta sitting under a key of the global state, with the shape it has
    there), [aggregate_updates] returns; the new global state has the keys
    of the old one, in the same order, and under every key each element is
    the old element plus the weighted sum
    [Σ_i (n_i / Σ_j n_j) * delta_i[key]] of the clients' elements (a key
    outside [K] has no delta, and keeps its tensor). *)
Theorem aggregate_updates_weighted_sum global_state K client_updates :
  client_updates <> [] ->
  (0 < total_samples_of client_updates)%Z ->
  Forall (fun u => follows_schema global_state K (updates u)) client_updates ->
  exists global_state',
    aggregate_updates global_state client_updates = Ok global_state' /\
    keys global_state' = keys global_state /\
    forall key g, lookup key global_state = Some g ->
      exists g',
        lookup key global_state' = Some g' /\
        List.length g' = List.length g /\
        (~ In key K -> g' = g) /\
        forall j, (j < List.length g)%nat ->
          nth j g' 0 ==
          nth j g 0 + weighted_sum (total_samples_of client_updates) client_updates key j.
Proof.
  intros Hne Htot Hschema.
  destruct client_updates as [|first rest]; [congruence|]. clear Hne.
  set (ups := first :: rest) in *.
  set (agg0 := map (fun kv => (fst kv, zeros_like (snd kv))) (updates first)).
  assert (Hfirst : follows_schema global_state K (updates first))
    by (inversion Hschema; assumption).
  destruct Hfirst as [Hnd1 [Hkeys1 Hshape1]].
  assert (Hfit0 : Forall (fits global_state) agg0).
  { apply Forall_forall. intros kv Hin. apply in_map_iff in Hin.
    destruct Hin as [[k t] [<- Hin]]. simpl.
    pose proof (In_lookup_NoDup _ _ _ Hnd1 Hin) as Hlk.
    destruct (Hshape1 _ _ Hlk) as [g [Hg Hlen]].
    exists g. simpl. rewrite zeros_like_length. split; [assumption | lia]. }
  assert (Hfits : Forall (fun u => Forall (fits (updates u)) agg0) ups).
  { eapply Forall_impl; [|exact Hschema]. intros u [Hnd [Hkeys Hshape]].
    apply Forall_forall. intros kv Hin. apply in_map_iff in Hin.
    destruct Hin as [[k t] [<- Hin]]. simpl.
    pose proof (In_lookup_NoDup _ _ _ Hnd1 Hin) as Hlk.
    destruct (Hshape1 _ _ Hlk) as [g [Hg Hlen]].
    destruct (In_keys_lookup k (updates u)) as [d Hd].
    { apply Hkeys, Hkeys1. eapply lookup_In_keys; eauto. }
    destruct (Hshape _ _ Hd) as [g' [Hg' Hlen']].
    exists d. simpl. rewrite zeros_like_length.
    split; [assumption|]. congruence. }
  destruct (weighted_averaging_ok ups (total_samples_of ups) agg0) as [agg [Hwa Hrel]];
    [lia | exact Hfits |].
  pose proof (Forall2_grows_keys _ _ _ Hrel) as Hkagg.
  unfold agg0 in Hkagg. rewrite keys_zeroed in Hkagg.
  destruct (apply_updates_ok agg global_state) as [gs' [Happ [Hk Hlk]]].
  { rewrite Hkagg. exact Hnd1. }
  { eapply Forall2_grows_fits; eauto. }
  exists gs'. split; [|split; [exact Hk|]].
  - unfold aggregate_updates, ups. fold ups. fold agg0. rewrite Hwa. exact Happ.
  - intros key g Hg.
    destruct (lookup key (updates first)) as [t|] eqn:Ht.
    + assert (Hz : lookup key agg0 = Some (zeros_like t)).
      { unfold agg0. rewrite lookup_zeroed, Ht. reflexivity. }
      destruct (Forall2_grows_lookup _ _ _ _ _ Hrel Hz) as [a [Ha [_ [Hlen Hval]]]].
      cbn [fst snd] in Hlen, Hval. rewrite zeros_like_length in Hlen, Hval.
      destruct (Hshape1 _ _ Ht) as [g0 [Hg0 Htg]].
      assert (g0 = g) by congruence. subst g0.
      exists (tensor_add g a). split; [|split; [|split]].
      * rewrite Hlk, Ha. unfold get. rewrite Hg. reflexivity.
      * apply tensor_add_length. lia.
      * intro Hout. elim Hout. apply Hkeys1. eapply lookup_In_keys; eauto.
      * intros j Hj. rewrite nth_tensor_add by lia.
        rewrite Hval by lia. rewrite nth_zeros_like. ring.
    + assert (Hout : ~ In key K).
      { intro Hin. apply Hkeys1, In_keys_lookup in Hin. destruct Hin; congruence. }
      assert (Hnone : lookup key agg = None).
      { apply lookup_not_In. rewrite Hkagg. intro Hin. apply Hout, Hkeys1, Hin. }
      exists g. split; [|split; [|split]].
      * rewrite Hlk, Hnone. exact Hg.
      * reflexivity.
      * reflexivity.
      * intros j _. rewrite weighted_sum_absent; [ring|].
        eapply Forall_impl; [|exact Hschema]. intros u [_ [Hku _]].
        apply lookup_not_In. intro Hin. apply Hout, Hku, Hin.
Qed.

(** C10. On a non-empty list of updates whose sample counts are all zero
    the weight [num_samples / total_samples] divides by zero:
    [aggregate_updates] raises [ZeroDivisionError], it neither returns nor
    keeps the global state. *)
Theorem aggregate_updates_zero_samples global_state client_updates :
  client_updates <> [] ->
  Forall (fun u => num_samples u = 0%Z) client_updates ->
  aggregate_updates global_state client_updates = Raise ZeroDivisionError.
Proof.
  intros Hne Hzero. apply aggregate_updates_zero_total; [exact Hne|].
  apply total_samples_zero; exact Hzero.
Qed.

Lemma aggregate_updates_weighted_sum_witness :
  exists global_state',
    aggregate_updates [("w"%string, [0])]
      [mkUpdate "facility_0" [("w"%string, [1])] 100 0;
       mkUpdate "facility_1" [("w"%string, [1])] 300 0] = Ok global_state' /\
    keys global_state' = ["w"%string] /\
    forall key g, lookup key [("w"%string, [0])] = Some g ->
      exists g',
        lookup key global_state' = Some g' /\
        List.length g' = List.length g /\
        (~ In key ["w"%string] -> g' = g) /\
        forall j, (j < List.length g)%nat ->
          nth j g' 0 ==
          nth j g 0 +
          weighted_sum 400
            [mkUpdate "facility_0" [("w"%string, [1])] 100 0;
             mkUpdate "facility_1" [("w"%string, [1])] 300 0] key j.
Proof.
  apply (aggregate_updates_weighted_sum [("w"%string, [0])] ["w"%string]
           [mkUpdate "facility_0" [("w"%string, [1])] 100 0;
            mkUpdate "facility_1" [("w"%string, [1])] 300 0]).
  - discriminate.
  - reflexivity.
  - assert (Hs : follows_schema [("w"%string, [0])] ["w"%string] [("w"%string, [1])]).
    { split; [repeat constructor; simpl; tauto|]. split; [tauto|].
      intros k t. simpl. destruct (String.eqb k "w"); [|discriminate].
      intros [= <-]. exists [0]. split; reflexivity. }
    constructor; [exact Hs|]. constructor; [exact Hs|]. constructor.
Defined.

Lemma aggregate_updates_zero_samples_witness :
  aggregate_updates [("w"%string, [0])]
    [mkUpdate "facility_0" [("w"%string, [1])] 0 0;
     mkUpdate "facility_1" [("w"%string, [1])] 0 0] = Raise ZeroDivisionError.
Proof.
  apply aggregate_updates_zero_samples.
  - discriminate.
  - repeat constructor.
Defined.

(** The exception is not caught on the way: a round whose clients all
    report zero samples raises it too. *)
Example federated_round_no_samples :
  federated_round Scenario.no_samples = Raise ZeroDivisionError.
Proof. vm_compute. reflexivity. Qed.

(** ** [add_client] *)

(** C8, as the code has it.  [add_client] never fails: for every client,
    whether or not its identifier is already registered, it returns and
    leaves the registered list extended by that client at the end, the rest
    of the server unchanged. *)
Theorem add_client_appends client w :
  exists w',
    add_client client w = Ok (tt, w') /\
    clients (server w') = clients (server w) ++ [client] /\
    global_model (server w') = global_model (server w) /\
    config (server w') = config (server w) /\
    round_results (server w') = round_results (server w) /\
    store w' = store w /\ rng w' = rng w.
Proof.
  eexists. split; [reflexivity|]. simpl. repeat split.
Qed.

(** C8 fails as stated: registering a second client under the identifier
    [facility_0] raises nothing and the registry holds both. *)
Lemma add_client_accepts_duplicate :
  In "facility_0"%string (map client_id (clients (server Scenario.too_few))) /\
  exists w',
    add_client (Scenario.failing "facility_0") Scenario.too_few = Ok (tt, w') /\
    map client_id (clients (server w')) = ["facility_0"%string; "facility_0"%string].
Proof.
  split; [simpl; auto|].
  eexists. split; reflexivity.
Qed.

(** ** [select_clients] *)

Lemma remove_at_spec {A} (l : list A) : forall i p,
  nth_error l i = Some p -> NoDup l ->
  NoDup (remove_at i l) /\ ~ In p (remove_at i l) /\
  incl (remove_at i l) l /\ S (List.length (remove_at i l)) = List.length l.
Proof.
  induction l as [|x l IH]; intros [|i] p Hnth Hnd; simpl in *; try discriminate.
  - injection Hnth as ->. inversion Hnd; subst.
    repeat split; auto. intros y Hy. right. exact Hy.
  - inversion Hnd as [|? ? Hx Hnd']; subst.
    destruct (IH i p Hnth Hnd') as [H1 [H2 [H3 H4]]].
    repeat split.
    + constructor; [|exact H1]. intro Hin. apply Hx. apply H3. exact Hin.
    + intros [->|Hin]; [|auto]. apply Hx. eapply nth_error_In; eauto.
    + intros y [->|Hy]; [left; reflexivity | right; apply H3; exact Hy].
    + simpl. congruence.
Qed.

Lemma permutation_prefix_spec size : forall remaining w,
  NoDup remaining -> (size <= List.length remaining)%nat ->
  exists idx,
    permutation_prefix size remaining w
    = Ok (idx, {| server := server w; store := store w;
                  rng := rng_skip size (rng w) |}) /\
    List.length idx = size /\ NoDup idx /\ incl idx remaining.
Proof.
  induction size as [|size IH]; intros remaining w Hnd Hlen.
  - exists []. repeat split; [destruct w; reflexivity | constructor | intros ? []].
  - simpl. unfold bind, draw.
    set (i := (rng w 0 mod List.length remaining)%nat).
    assert (Hi : (i < List.length remaining)%nat)
      by (apply Nat.mod_upper_bound; lia).
    destruct (nth_error remaining i) as [p|] eqn:Hp;
      [|apply nth_error_None in Hp; lia].
    destruct (remove_at_spec remaining i p Hp Hnd) as [H1 [H2 [H3 H4]]].
    destruct (IH (remove_at i remaining)
                {| server := server w; store := store w; rng := rng_shift (rng w) |}
                H1 ltac:(lia)) as [idx [Hrun [Hl [Hn Hincl]]]].
    exists (p :: idx). rewrite Hrun. simpl. repeat split.
    + congruence.
    + constructor; [|exact Hn]. intro Hin. apply H2. apply Hincl. exact Hin.
    + intros y [<-|Hy]; [eapply nth_error_In; eauto | apply H3, Hincl, Hy].
Qed.

Lemma take_positions_spec {A} (a : list A) idx :
  Forall (fun i => (i < List.length a)%nat) idx ->
  Forall2 (fun i c => nth_error a i = Some c) idx (take_positions a idx).
Proof.
  induction 1 as [|i idx Hi _ IH]; [constructor|].
  unfold take_positions in *. simpl.
  destruct (nth_error a i) as [x|] eqn:Hx; [|apply nth_error_None in Hx; lia].
  simpl. constructor; assumption.
Qed.

Lemma positions_In {A} (a : list A) idx sel c :
  Forall2 (fun i c => nth_error a i = Some c) idx sel -> In c sel ->
  exists i, In i idx /\ nth_error a i = Some c.
Proof.
  induction 1 as [|i x idx sel Hx _ IH]; simpl; [tauto|].
  intros [<-|Hin]; [eauto|]. destruct (IH Hin) as [j [Hj Hc]]. eauto.
Qed.

Lemma positions_NoDup {A} (a : list A) idx sel :
  Forall2 (fun i c => nth_error a i = Some c) idx sel ->
  NoDup a -> NoDup idx -> NoDup sel.
Proof.
  intros H Ha. induction H as [|i x idx sel Hx Hrest IH]; intro Hidx; [constructor|].
  inversion Hidx as [|? ? Hi Hidx']; subst. constructor; [|auto].
  intro Hin. destruct (positions_In _ _ _ _ Hrest Hin) as [j [Hj Hxj]].
  assert (i = j); [|subst; contradiction].
  eapply (proj1 (NoDup_nth_error a) Ha); [|congruence].
  apply nth_error_Some. congruence.
Qed.

(** ** Binary64 rounding *)

Section Binary64Facts.

Import Binary64.

Lemma pow2_pos k : 0 < pow2 k.
Proof.
  unfold pow2. destruct (Z.leb_spec 0 k).
  - change 0 with (inject_Z 0). rewrite <- Zlt_Qlt. apply Z.pow_pos_nonneg; lia.
  - reflexivity.
Qed.

Lemma pow2_nonpos e : (e <= 0)%Z -> pow2 e * inject_Z (2 ^ (- e)) == 1.
Proof.
  intro He. unfold pow2. destruct (Z.leb_spec 0 e).
  - assert (e = 0%Z) by lia. subst. reflexivity.
  - assert (Hp : (0 < 2 ^ (- e))%Z) by (apply Z.pow_pos_nonneg; lia).
    unfold Qeq, Qmult, inject_Z. cbn [Qnum Qden]. 
    rewrite Pos.mul_1_r, Z.mul_1_l, Z.mul_1_r, Z.mul_1_l, Z2Pos.id by exact Hp. reflexivity.
Qed.

Lemma round_half_even_ge y M : inject_Z M <= y -> (M <= round_half_even y)%Z.
Proof.
  intro H. unfold round_half_even.
  assert (Hf : (M <= Qfloor y)%Z).
  { rewrite <- (Qfloor_Z M). apply Qfloor_resp_le. exact H. }
  destruct (Qcompare _ _); [destruct (Z.even _)| |]; lia.
Qed.

Lemma round_half_even_le y M : y <= inject_Z M -> (round_half_even y <= M)%Z.
Proof.
  intro H. unfold round_half_even.
  assert (Hf : (Qfloor y <= M)%Z).
  { rewrite <- (Qfloor_Z M). apply Qfloor_resp_le. exact H. }
  assert (Hup : 0 < y - inject_Z (Qfloor y) -> (Qfloor y + 1 <= M)%Z).
  { intro Hfrac.
    assert (Hlt : inject_Z (Qfloor y) < inject_Z M) by lra.
    rewrite <- Zlt_Qlt in Hlt. lia. }
  destruct (Qcompare (y - inject_Z (Qfloor y)) (1 # 2)) eqn:C.
  - apply Qeq_alt in C. destruct (Z.even _); [exact Hf|]. apply Hup. lra.
  - exact Hf.
  - apply Qgt_alt in C. apply Hup. lra.
Qed.

Lemma ilog2_small x :
  0 < x -> x < inject_Z (2 ^ 53) -> (ilog2 x <= 52)%Z.
Proof.
  intros Hpos Hlt. unfold ilog2.
  set (k := (Z.log2 (Qnum x) - Z.log2 (Z.pos (Qden x)))%Z).
  assert (Hn : (0 < Qnum x)%Z) by (destruct x as [n d]; unfold Qlt in Hpos; simpl in *; lia).
  assert (Hk : (k <= 53)%Z).
  { unfold k. destruct x as [n d]. unfold Qlt in Hlt. simpl in *.
    pose proof (Z.log2_spec n Hn) as [Hn1 _].
    pose proof (Z.log2_spec (Z.pos d) eq_refl) as [_ Hd2].
    pose proof (Z.log2_nonneg n). pose proof (Z.log2_nonneg (Z.pos d)).
    destruct (Z_le_gt_dec (Z.log2 n - Z.log2 (Z.pos d)) 53) as [|Hgt]; [assumption|].
    exfalso.
    assert (H1 : (2 ^ (54 + Z.log2 (Z.pos d)) <= 2 ^ Z.log2 n)%Z)
      by (apply Z.pow_le_mono_r; lia).
    rewrite Z.pow_add_r in H1 by lia.
    rewrite Z.pow_succ_r in Hd2 by lia.
    change (2 ^ 54)%Z with (2 * 2 ^ 53)%Z in H1.
    assert (0 < 2 ^ 53)%Z by reflexivity.
    assert (0 < 2 ^ Z.log2 (Z.pos d))%Z by (apply Z.pow_pos_nonneg; lia).
    nia. }
  destruct (Qle_bool (pow2 k) x) eqn:E; [|lia].
  apply Qle_bool_iff in E.
  destruct (Z_le_gt_dec k 52) as [|Hgt]; [assumption|]. exfalso.
  assert (k = 53%Z) by lia. subst k. rewrite H in E.
  change (pow2 53) with (inject_Z (2 ^ 53)) in E. lra.
Qed.

Lemma Qabs_small x : Qabs x < inject_Z (2 ^ 53) -> ~ x == 0 ->
  (exponent x <= 0)%Z.
Proof.
  intros Hlt Hnz. unfold exponent.
  assert (Hpos : 0 < Qabs x).
  { destruct (Qlt_le_dec 0 (Qabs x)) as [|Hle]; [assumption|]. exfalso. apply Hnz.
    apply Qabs_Qle_condition in Hle. lra. }
  pose proof (ilog2_small _ Hpos Hlt). lia.
Qed.

Lemma round_comp x y : x == y -> round x = round y.
Proof. intro H. unfold round. rewrite (Qred_complete _ _ H). reflexivity. Qed.

(** Rounding never crosses an integer below 2^53. *)
Lemma round_between x A B :
  Qabs x < inject_Z (2 ^ 53) ->
  inject_Z A <= x -> x <= inject_Z B ->
  inject_Z A <= round x <= inject_Z B.
Proof.
  intros Hsmall HA HB. unfold round.
  destruct (Qeq_bool (Qred x) 0) eqn:E.
  - apply Qeq_bool_iff in E. rewrite Qred_correct in E. lra.
  - assert (Hnz : ~ Qred x == 0) by (intro H; apply Qeq_bool_iff in H; congruence).
    assert (Hx : Qred x == x) by apply Qred_correct.
    set (y := Qred x) in *.
    assert (He : (exponent y <= 0)%Z).
    { apply Qabs_small; [|exact Hnz]. rewrite Hx. exact Hsmall. }
    set (e := exponent y) in *. cbv zeta.
    pose proof (pow2_pos e) as Hp. pose proof (pow2_nonpos e He) as Hinv.
    set (s := inject_Z (2 ^ (- e))) in *.
    assert (Hs : 0 < s).
    { unfold s. change 0 with (inject_Z 0). rewrite <- Zlt_Qlt.
      apply Z.pow_pos_nonneg; lia. }
    assert (Hdiv : y / pow2 e == y * s).
    { unfold Qdiv. apply Qmult_comp; [reflexivity|].
      apply Qmult_inj_l with (z := pow2 e); [lra|].
      rewrite Qmult_inv_r by lra. rewrite Hinv. reflexivity. }
    assert (HA' : (A * 2 ^ (- e) <= round_half_even (y / pow2 e))%Z).
    { apply round_half_even_ge. rewrite inject_Z_mult. fold s. rewrite Hdiv.
      apply Qmult_le_compat_r; lra. }
    assert (HB' : (round_half_even (y / pow2 e) <= B * 2 ^ (- e))%Z).
    { apply round_half_even_le. rewrite inject_Z_mult. fold s. rewrite Hdiv.
      apply Qmult_le_compat_r; lra. }
    rewrite Zle_Qle in HA', HB'. rewrite !inject_Z_mult in HA', HB'. fold s in HA', HB'.
    set (r := inject_Z (round_half_even (y / pow2 e))) in *.
    split.
    + assert (inject_Z A * s * pow2 e <= r * pow2 e)
        by (apply Qmult_le_compat_r; lra).
      assert (inject_Z A * s * pow2 e == inject_Z A) by (rewrite <- Qmult_assoc, (Qmult_comm s), Hinv; ring).
      lra.
    + assert (r * pow2 e <= inject_Z B * s * pow2 e)
        by (apply Qmult_le_compat_r; lra).
      assert (inject_Z B * s * pow2 e == inject_Z B) by (rewrite <- Qmult_assoc, (Qmult_comm s), Hinv; ring).
      lra.
Qed.

Lemma round_nonneg x : 0 <= x -> 0 <= round x.
Proof.
  intro H. unfold round. destruct (Qeq_bool (Qred x) 0); [apply Qle_refl|]. cbv zeta.
  apply Qmult_le_0_compat; [|apply Qlt_le_weak, pow2_pos].
  change 0 with (inject_Z 0). rewrite <- Zle_Qle. apply round_half_even_ge.
  change (inject_Z 0) with 0. apply Qle_shift_div_l; [apply pow2_pos|].
  rewrite Qmult_0_l, Qred_correct. exact H.
Qed.

Lemma round_nonpos x : x <= 0 -> round x <= 0.
Proof.
  intro H. unfold round. destruct (Qeq_bool (Qred x) 0); [apply Qle_refl|]. cbv zeta.
  pose proof (pow2_pos (exponent (Qred x))) as Hp.
  assert (Hr : (round_half_even (Qred x / pow2 (exponent (Qred x))) <= 0)%Z).
  { apply round_half_even_le. change (inject_Z 0) with 0.
    apply Qle_shift_div_r; [exact Hp|]. rewrite Qmult_0_l, Qred_correct. exact H. }
  rewrite Zle_Qle in Hr. change (inject_Z 0) with 0 in Hr.
  set (r := inject_Z _) in *. 
  assert (r * pow2 (exponent (Qred x)) <= 0 * pow2 (exponent (Qred x)))
    by (apply Qmult_le_compat_r; lra).
  lra.
Qed.

End Binary64Facts.

Lemma mul_one x : Binary64.mul x 1 = Some x.
Proof. reflexivity. Qed.

Lemma py_int_of_nat (n : nat) : py_int (inject_Z (Z.of_nat n)) = Z.of_nat n.
Proof.
  unfold py_int.
  assert (H : Qle_bool 0 (inject_Z (Z.of_nat n)) = true).
  { apply Qle_bool_iff. change 0 with (inject_Z 0). rewrite <- Zle_Qle. lia. }
  rewrite H. apply Qfloor_Z.
Qed.

(** The default fraction: the product is the length. *)
Lemma num_selected_default pool :
  num_selected_of pool 1 = Ok (Z.max 1 (Z.of_nat pool)).
Proof. unfold num_selected_of. rewrite mul_one, py_int_of_nat. reflexivity. Qed.

Lemma num_selected_pos pool fraction k :
  num_selected_of pool fraction = Ok k -> (1 <= k)%Z.
Proof.
  unfold num_selected_of. destruct (Binary64.mul _ _); [|discriminate].
  intros [= <-]. lia.
Qed.

Lemma select_clients_unfold fraction w :
  select_clients fraction w
  = match num_selected_of (List.length (clients (server w))) fraction with
    | Ok k => random_choice (clients (server w)) (Z.to_nat k) w
    | Raise e => Raise e
    end.
Proof.
  unfold select_clients, bind, get_server, lift.
  destruct (num_selected_of _ _); reflexivity.
Qed.

Lemma Qceiling_floor x : (Qceiling x <= Qfloor x + 1)%Z.
Proof.
  rewrite <- (Qceiling_Z (Qfloor x + 1)). apply Qceiling_resp_le.
  apply Qlt_le_weak. apply Qlt_floor.
Qed.

(** For a fraction between 0 and 1 the binary64 product is finite and lies
    between the integers around the exact product: the count is the exact
    floor or one more, and never more than the pool. *)
Lemma num_selected_bounds pool fraction :
  (1 <= pool)%nat -> (Z.of_nat pool < 2 ^ 53)%Z ->
  0 <= fraction -> fraction <= 1 ->
  exists x,
    Binary64.mul (inject_Z (Z.of_nat pool)) fraction = Some x /\
    num_selected_of pool fraction = Ok (Z.max 1 (Qfloor x)) /\
    (Qfloor (fraction * inject_Z (Z.of_nat pool)) <= Qfloor x
     <= Qfloor (fraction * inject_Z (Z.of_nat pool)) + 1)%Z /\
    (1 <= Z.max 1 (Qfloor x) <= Z.of_nat pool)%Z.
Proof.
  intros Hp Hsmall H0 H1.
  set (P := inject_Z (Z.of_nat pool)).
  assert (HP : 0 <= P) by (unfold P; change 0 with (inject_Z 0); rewrite <- Zle_Qle; lia).
  assert (HP53 : P < inject_Z (2 ^ 53)) by (unfold P; rewrite <- Zlt_Qlt; exact Hsmall).
  assert (Hnn : 0 <= P * fraction) by (apply Qmult_le_0_compat; assumption).
  assert (Hle : P * fraction <= P).
  { rewrite <- (Qmult_1_r P) at 2. rewrite !(Qmult_comm P).
    apply Qmult_le_compat_r; assumption. }
  assert (Hcomm : Qfloor (fraction * P) = Qfloor (P * fraction))
    by (apply Qfloor_comp; ring).
  rewrite Hcomm.
  assert (Hgoal : forall x, 0 <= x -> x <= P ->
            (Qfloor (P * fraction) <= Qfloor x <= Qfloor (P * fraction) + 1)%Z ->
            Binary64.mul P fraction = Some x ->
            Binary64.mul P fraction = Some x /\
            num_selected_of pool fraction = Ok (Z.max 1 (Qfloor x)) /\
            (Qfloor (P * fraction) <= Qfloor x <= Qfloor (P * fraction) + 1)%Z /\
            (1 <= Z.max 1 (Qfloor x) <= Z.of_nat pool)%Z).
  { intros x Hx0 HxP Hfl Hmul. split; [exact Hmul|]. split; [|split; [exact Hfl|]].
    - unfold num_selected_of. fold P. rewrite Hmul. unfold py_int.
      apply Qle_bool_iff in Hx0. rewrite Hx0. reflexivity.
    - assert ((Qfloor x <= Z.of_nat pool)%Z).
      { rewrite <- (Qfloor_Z (Z.of_nat pool)). apply Qfloor_resp_le. exact HxP. }
      lia. }
  destruct (Qeq_bool fraction 1) eqn:E1.
  - assert (Hmul : Binary64.mul P fraction = Some P)
      by (unfold Binary64.mul; rewrite E1; reflexivity).
    apply Qeq_bool_iff in E1. exists P. apply Hgoal; [exact HP | apply Qle_refl | | exact Hmul].
    assert (Qfloor (P * fraction) = Qfloor P) by (apply Qfloor_comp; rewrite E1; ring).
    lia.
  - set (x := P * fraction) in *.
    assert (Habs : Qabs x < inject_Z (2 ^ 53)) by (rewrite Qabs_pos by exact Hnn; lra).
    destruct (round_between x 0 (Z.of_nat pool) Habs Hnn Hle) as [Hr0 HrP].
    destruct (round_between x (Qfloor x) (Qceiling x) Habs (Qfloor_le x) (Qle_ceiling x))
      as [Hrf Hrc].
    fold P in HrP. change (inject_Z 0) with 0 in Hr0.
    assert (Hfin : Binary64.finite (Binary64.round x) = true).
    { unfold Binary64.finite. apply Qle_bool_iff. rewrite Qabs_pos by exact Hr0.
      assert (inject_Z (2 ^ 53) <= Binary64.max_float) by (vm_compute; discriminate).
      lra. }
    assert (Hmul : Binary64.mul P fraction = Some (Binary64.round x))
      by (unfold Binary64.mul; rewrite E1; fold x; cbv zeta; rewrite Hfin; reflexivity).
    exists (Binary64.round x). apply Hgoal; [exact Hr0 | exact HrP | | exact Hmul].
    split.
    + rewrite <- (Qfloor_Z (Qfloor x)) at 1. apply Qfloor_resp_le. exact Hrf.
    + pose proof (Qceiling_floor x).
      assert ((Qfloor (Binary64.round x) <= Qceiling x)%Z); [|lia].
      rewrite <- (Qfloor_Z (Qceiling x)). apply Qfloor_resp_le. exact Hrc.
Qed.

Lemma random_choice_spec {A} (a : list A) size w :
  (1 <= size <= List.length a)%nat ->
  exists idx,
    random_choice a size w
    = Ok (take_positions a idx,
          {| server := server w; store := store w; rng := rng_skip size (rng w) |}) /\
    List.length idx = size /\ NoDup idx /\
    Forall (fun i => (i < List.length a)%nat) idx.
Proof.
  intros [H1 H2]. unfold random_choice.
  destruct (Nat.eqb_spec (List.length a) 0) as [E|_]; [lia|]. simpl.
  destruct (Nat.ltb_spec (List.length a) size) as [E|_]; [lia|].
  destruct (permutation_prefix_spec size (seq 0 (List.length a)) w)
    as [idx [Hrun [Hlen [Hnd Hincl]]]].
  { apply seq_NoDup. }
  { rewrite length_seq. exact H2. }
  exists idx. unfold bind. rewrite Hrun. repeat split; auto.
  apply Forall_forall. intros i Hi. apply Hincl, in_seq in Hi. lia.
Qed.

(** C3, as the code has it.  On a registry of [P >= 1] clients and for a
    float fraction in [0, 1], [select_clients] returns
    [max(1, int(P * fraction))] clients, the product being rounded to
    binary64: that is [max(1, floor(fraction * P))] or, when the product
    rounds up to the next integer, one more, and never more than [P].
    The clients sit at pairwise distinct positions of the registry (a draw
    without replacement), so they are registered clients, and they are
    pairwise distinct whenever the registry lists no client twice; the
    server and the store of round results are as before, only the
    generator has advanced. *)
Theorem select_clients_cardinality fraction w :
  let P := List.length (clients (server w)) in
  (1 <= P)%nat -> (Z.of_nat P < 2 ^ 53)%Z ->
  Binary64.is_float fraction = true -> 0 <= fraction -> fraction <= 1 ->
  exists selected idx w' x,
    select_clients fraction w = Ok (selected, w') /\
    Binary64.mul (inject_Z (Z.of_nat P)) fraction = Some x /\
    Z.of_nat (List.length selected) = Z.max 1 (Qfloor x) /\
    (Qfloor (fraction * inject_Z (Z.of_nat P)) <= Qfloor x
     <= Qfloor (fraction * inject_Z (Z.of_nat P)) + 1)%Z /\
    (1 <= List.length selected <= P)%nat /\
    NoDup idx /\
    Forall2 (fun i c => nth_error (clients (server w)) i = Some c) idx selected /\
    (forall c, In c selected -> In c (clients (server w))) /\
    (NoDup (clients (server w)) -> NoDup selected) /\
    server w' = server w /\ store w' = store w.
Proof.
  intros P HP Hsmall _ H0 H1.
  destruct (num_selected_bounds _ fraction HP Hsmall H0 H1)
    as [x [Hmul [Hnum [Hfloor Hbounds]]]].
  fold P in Hmul, Hnum, Hfloor, Hbounds.
  set (pool := clients (server w)) in *.
  destruct (random_choice_spec pool (Z.to_nat (Z.max 1 (Qfloor x))) w)
    as [idx [Hrun [Hlen [Hnd Hlt]]]]; [unfold P in Hbounds; lia|].
  pose proof (take_positions_spec pool idx Hlt) as Hpos.
  pose proof (Forall2_length Hpos) as Hl.
  exists (take_positions pool idx), idx. eexists. exists x.
  split; [|split; [|split; [|split; [|split; [|split; [|split; [|split; [|split]]]]]]]].
  - rewrite select_clients_unfold. fold pool. fold P. rewrite Hnum. exact Hrun.
  - exact Hmul.
  - rewrite <- Hl, Hlen. lia.
  - exact Hfloor.
  - rewrite <- Hl, Hlen. lia.
  - exact Hnd.
  - exact Hpos.
  - intros c Hc. destruct (positions_In _ _ _ _ Hpos Hc) as [i [_ Hi]].
    eapply nth_error_In; eauto.
  - intro Hpool. eapply positions_NoDup; eauto.
  - split; reflexivity.
Qed.

Lemma select_clients_cardinality_witness :
  exists selected idx w' x,
    select_clients (1 # 2) Scenario.one_failure = Ok (selected, w') /\
    Binary64.mul (inject_Z (Z.of_nat 5)) (1 # 2) = Some x /\
    Z.of_nat (List.length selected) = Z.max 1 (Qfloor x) /\
    (Qfloor ((1 # 2) * inject_Z (Z.of_nat 5)) <= Qfloor x
     <= Qfloor ((1 # 2) * inject_Z (Z.of_nat 5)) + 1)%Z /\
    (1 <= List.length selected <= 5)%nat /\
    NoDup idx /\
    Forall2 (fun i c => nth_error (clients (server Scenario.one_failure)) i = Some c)
      idx selected /\
    (forall c, In c selected -> In c (clients (server Scenario.one_failure))) /\
    (NoDup (clients (server Scenario.one_failure)) -> NoDup selected) /\
    server w' = server Scenario.one_failure /\ store w' = store Scenario.one_failure.
Proof.
  apply (select_clients_cardinality (1 # 2) Scenario.one_failure).
  - simpl. lia.
  - simpl. lia.
  - vm_compute. reflexivity.
  - discriminate.
  - discriminate.
Defined.

(** C3 fails as stated, in two ways.  With five clients and the float 0.6
    (which is just below 6/10) the code selects three clients, the product
    [5 * 0.6] being rounded to 3.0, where [max(1, floor(fraction * P))] is
    2.  And on a registry that lists one client twice the selection with
    the default fraction holds that client twice. *)
Lemma select_clients_not_floor_nor_distinct :
  (let fraction := Binary64.round (6 # 10) in
   Binary64.is_float fraction = true /\ 0 <= fraction /\ fraction <= 1 /\
   Z.max 1 (Qfloor (fraction * inject_Z 5)) = 2%Z /\
   exists selected w',
     select_clients fraction Scenario.one_failure = Ok (selected, w') /\
     List.length selected = 3%nat) /\
  (let c := Scenario.scripted "facility_0" 100 [1 # 2] in
   exists w',
     select_clients 1 (Scenario.world_of Scenario.default_config [c; c])
     = Ok ([c; c], w')).
Proof.
  split.
  - cbv zeta. split; [vm_compute; reflexivity|]. split; [vm_compute; discriminate|].
    split; [vm_compute; discriminate|]. split; [vm_compute; reflexivity|].
    eexists. eexists. split; [vm_compute; reflexivity | reflexivity].
  - cbv zeta. eexists. vm_compute. reflexivity.
Qed.

(** [select_clients] returns only with the server and the store as they
    were, and then with the clients at some distinct positions. *)
Lemma select_clients_inv fraction w selected w1 :
  select_clients fraction w = Ok (selected, w1) ->
  exists idx,
    selected = take_positions (clients (server w)) idx /\
    List.length selected = List.length idx /\
    num_selected_of (List.length (clients (server w))) fraction
    = Ok (Z.of_nat (List.length idx)) /\
    NoDup idx /\
    w1 = {| server := server w; store := store w;
            rng := rng_skip (List.length idx) (rng w) |}.
Proof.
  rewrite select_clients_unfold.
  set (pool := clients (server w)).
  destruct (num_selected_of (List.length pool) fraction) as [k|e] eqn:Hk; [|discriminate].
  pose proof (num_selected_pos _ _ _ Hk) as Hk1.
  set (size := Z.to_nat k).
  assert (Hsize : (1 <= size)%nat) by (unfold size; lia).
  intro Hrun.
  assert (Hle : (size <= List.length pool)%nat).
  { unfold random_choice in Hrun.
    destruct (Nat.eqb_spec (List.length pool) 0) as [E|_].
    - destruct (Nat.eqb_spec size 0); [lia | discriminate].
    - simpl in Hrun. destruct (Nat.ltb_spec (List.length pool) size); [discriminate | lia]. }
  destruct (random_choice_spec pool size w (conj Hsize Hle)) as [idx [Hrun' [Hlen [Hnd Hlt]]]].
  rewrite Hrun' in Hrun. injection Hrun as <- <-.
  exists idx. repeat split; auto.
  - symmetry. exact (Forall2_length (take_positions_spec pool idx Hlt)).
  - rewrite Hlen. unfold size. f_equal. lia.
  - rewrite Hlen. reflexivity.
Qed.

(** With the default fraction 1 every registered client is selected. *)
Lemma select_clients_all w selected w1 :
  select_clients 1 w = Ok (selected, w1) ->
  List.length selected = List.length (clients (server w)) /\
  (1 <= List.length selected)%nat.
Proof.
  intro H. destruct (select_clients_inv _ _ _ _ H) as [idx [_ [Hlen [Hnum _]]]].
  rewrite num_selected_default in Hnum. injection Hnum as Hnum.
  rewrite select_clients_unfold, num_selected_default in H.
  unfold random_choice in H.
  destruct (Nat.eqb_spec (List.length (clients (server w))) 0) as [E|_].
  - rewrite E in H. simpl in H. discriminate.
  - simpl in H.
    destruct (Nat.ltb_spec (List.length (clients (server w)))
                (Z.to_nat (Z.max 1 (Z.of_nat (List.length (clients (server w)))))));
      [discriminate | lia].
Qed.

Lemma train_clients_spec selected : forall client_updates client_evaluations w,
  train_clients selected client_updates client_evaluations w
  = Ok ((client_updates
           ++ trained_updates (global_model (server w)) (rng w) selected,
         client_evaluations
           ++ trained_evaluations (global_model (server w)) (rng w) selected),
        {| server := server w; store := store w;
           rng := rng_skip (List.length selected) (rng w) |}).
Proof.
  induction selected as [|client rest IH]; intros ups evs w.
  - simpl. unfold ret. rewrite !app_nil_r. destruct w; reflexivity.
  - simpl. unfold bind at 1. unfold get_server. unfold bind at 1. unfold draw.
    destruct (local_train client (global_model (server w)) (rng w 0%nat))
      as [[u m]|e].
    + destruct (evaluate client m) as [ev|e]; rewrite IH; simpl;
        rewrite <- ?app_assoc; reflexivity.
    + rewrite IH. reflexivity.
Qed.

(** [federated_round] unfolded: the selection, the guard on [min_clients],
    and the aggregation of what the selected clients returned. *)
Lemma federated_round_unfold w :
  federated_round w =
  match select_clients 1 w with
  | Raise e => Raise e
  | Ok (selected, w1) =>
      let s := server w in
      if (Z.of_nat (List.length selected) <? min_clients (config s))%Z then
        Ok (List.length (store w),
            {| server := s;
               store := store w ++ [Insufficient (List.length selected) None];
               rng := rng w1 |})
      else
        let ups := trained_updates (global_model s) (rng w1) selected in
        let evs := trained_evaluations (global_model s) (rng w1) selected in
        match (if is_empty ups then Ok (global_model s)
               else aggregate_updates (global_model s) ups) with
        | Raise e => Raise e
        | Ok global_state =>
            Ok (List.length (store w),
                {| server := {| global_model := global_state; config := config s;
                                clients := clients s;
                                round_results := round_results s ++ [List.length (store w)] |};
                   store := store w ++ [completed_record ups evs];
                   rng := rng_skip (List.length selected) (rng w1) |})
        end
  end.
Proof.
  unfold federated_round. unfold bind at 1.
  destruct (select_clients 1 w) as [[selected w1]|e] eqn:Hsel; [|reflexivity].
  destruct (select_clients_inv _ _ _ _ Hsel) as [idx [_ [_ [_ [_ ->]]]]].
  unfold bind at 1. unfold get_server. cbn [server store rng].
  destruct (Z.of_nat (List.length selected) <? min_clients (config (server w)))%Z.
  - reflexivity.
  - unfold bind at 1. rewrite train_clients_spec. cbn [server store rng fst snd app].
    destruct (trained_updates (global_model (server w))
                (rng_skip (List.length idx) (rng w)) selected) as [|u ups] eqn:Hups.
    + reflexivity.
    + cbn [is_empty]. unfold bind at 1. unfold server_aggregate_updates.
      unfold bind at 1. unfold get_server. unfold bind at 1. unfold lift.
      cbn [server store rng].
      destruct (aggregate_updates (global_model (server w)) (u :: ups)); reflexivity.
Qed.

Lemma aggregate_updates_guard global_state client_updates :
  (if is_empty client_updates then Ok global_state
   else aggregate_updates global_state client_updates)
  = aggregate_updates global_state client_updates.
Proof. destruct client_updates; reflexivity. Qed.

Lemma federated_round_inv w a w' :
  federated_round w = Ok (a, w') ->
  exists selected w1,
    select_clients 1 w = Ok (selected, w1) /\
    a = List.length (store w) /\
    let s := server w in
    let ups := trained_updates (global_model s) (rng w1) selected in
    let evs := trained_evaluations (global_model s) (rng w1) selected in
    ((Z.of_nat (List.length selected) < min_clients (config s))%Z /\
     w' = {| server := s;
             store := store w ++ [Insufficient (List.length selected) None];
             rng := rng w1 |})
    \/
    ((min_clients (config s) <= Z.of_nat (List.length selected))%Z /\
     exists global_state,
       aggregate_updates (global_model s) ups = Ok global_state /\
       w' = {| server := {| global_model := global_state; config := config s;
                            clients := clients s;
                            round_results := round_results s ++ [a] |};
               store := store w ++ [completed_record ups evs];
               rng := rng_skip (List.length selected) (rng w1) |}).
Proof.
  rewrite federated_round_unfold.
  destruct (select_clients 1 w) as [[selected w1]|e]; [|discriminate].
  cbv zeta. rewrite aggregate_updates_guard.
  destruct (Z.ltb_spec (Z.of_nat (List.length selected)) (min_clients (config (server w)))).
  - intros [= <- <-]. exists selected, w1. split; [reflexivity|]. split; [reflexivity|].
    left. split; [assumption | reflexivity].
  - destruct (aggregate_updates _ _) as [gs|e] eqn:Hagg; [|discriminate].
    intros [= <- <-]. exists selected, w1. split; [reflexivity|]. split; [reflexivity|].
    right. split; [assumption|]. exists gs. split; [assumption | reflexivity].
Qed.

Lemma nth_error_snoc {A} (l : list A) x : nth_error (l ++ [x]) (List.length l) = Some x.
Proof. rewrite nth_error_app2 by lia. rewrite Nat.sub_diag. reflexivity. Qed.

Lemma trained_evaluations_nil global_state selected : forall g,
  trained_updates global_state g selected = [] ->
  trained_evaluations global_state g selected = [].
Proof.
  induction selected as [|c rest IH]; intros g; simpl; [reflexivity|].
  destruct (local_train c global_state (g 0%nat)) as [[u m]|e]; [discriminate | apply IH].
Qed.

Lemma trained_updates_In global_state selected : forall g u,
  In u (trained_updates global_state g selected) <->
  exists i c m, nth_error selected i = Some c /\
                local_train c global_state (g i) = Ok (u, m).
Proof.
  induction selected as [|c rest IH]; intros g u; simpl.
  - split; [tauto|]. intros [[|i] [c [m [H _]]]]; discriminate.
  - destruct (local_train c global_state (g 0%nat)) as [[u0 m0]|e] eqn:Hc; simpl;
      rewrite ?IH; split.
    + intros [<-|[i [c' [m [Hn Ht]]]]]; [exists 0%nat, c, m0; auto|].
      exists (S i), c', m. auto.
    + intros [[|i] [c' [m [Hn Ht]]]]; simpl in Hn.
      * injection Hn as <-. left. congruence.
      * right. exists i, c', m. auto.
    + intros [i [c' [m [Hn Ht]]]]. exists (S i), c', m. auto.
    + intros [[|i] [c' [m [Hn Ht]]]]; simpl in Hn.
      * injection Hn as <-. congruence.
      * exists i, c', m. auto.
Qed.

Lemma trained_evaluations_In global_state selected : forall g e,
  In e (trained_evaluations global_state g selected) ->
  exists i c u m e0,
    nth_error selected i = Some c /\
    local_train c global_state (g i) = Ok (u, m) /\
    evaluate c m = Ok e0 /\ e = set_client_id (client_id c) e0.
Proof.
  induction selected as [|c rest IH]; intros g e; simpl; [tauto|].
  assert (Hrest : In e (trained_evaluations global_state (rng_shift g) rest) ->
                  exists i c' u m e0,
                    nth_error (c :: rest) i = Some c' /\
                    local_train c' global_state (g i) = Ok (u, m) /\
                    evaluate c' m = Ok e0 /\ e = set_client_id (client_id c') e0).
  { intro H. destruct (IH _ _ H) as [i [c' [u [m [e0 Hi]]]]].
    exists (S i), c', u, m, e0. exact Hi. }
  destruct (local_train c global_state (g 0%nat)) as [[u0 m0]|x] eqn:Hc; [|exact Hrest].
  destruct (evaluate c m0) as [e0|x] eqn:He; [|exact Hrest].
  intros [<-|H]; [|auto].
  exists 0%nat, c, u0, m0, e0. auto.
Qed.

Lemma failed_clients_In global_state selected : forall g c,
  In c (failed_clients global_state g selected) ->
  exists i x, nth_error selected i = Some c /\
              local_train c global_state (g i) = Raise x.
Proof.
  induction selected as [|c0 rest IH]; intros g c; simpl; [tauto|].
  destruct (local_train c0 global_state (g 0%nat)) as [[u0 m0]|x] eqn:Hc.
  - intro H. destruct (IH _ _ H) as [i [y Hi]]. exists (S i), y. exact Hi.
  - intros [<-|H]; [exists 0%nat, x; auto|].
    destruct (IH _ _ H) as [i [y Hi]]. exists (S i), y. exact Hi.
Qed.

Lemma trained_failed_length global_state selected : forall g,
  (List.length (trained_updates global_state g selected)
   + List.length (failed_clients global_state g selected)
   = List.length selected)%nat.
Proof.
  induction selected as [|c rest IH]; intros g; simpl; [reflexivity|].
  destruct (local_train c global_state (g 0%nat)) as [[u m]|e]; simpl;
    rewrite <- (IH (rng_shift g)); lia.
Qed.

(** ** The store and the training loop *)

(** A call of [federated_round] creates exactly one record, at the end of
    the store, and touches no other; the server's list [round_results]
    gains its address when the round completed and is unchanged otherwise. *)
Lemma federated_round_store w a w' :
  federated_round w = Ok (a, w') ->
  exists r,
    store w' = store w ++ [r] /\ a = List.length (store w) /\
    round_of r = None /\
    round_results (server w')
    = round_results (server w) ++ completed_from a [r] /\
    config (server w') = config (server w) /\
    clients (server w') = clients (server w).
Proof.
  intro H. destruct (federated_round_inv _ _ _ H) as [selected [w1 [_ [Ha Hcases]]]].
  cbv zeta in Hcases. destruct Hcases as [[_ ->]|[_ [gs [_ ->]]]].
  - eexists. cbn [server store]. repeat split; auto.
    simpl. rewrite app_nil_r. reflexivity.
  - eexists. cbn [server store round_results config clients]. repeat split; auto.
Qed.

Lemma store_update_snoc (s : Store) f r :
  store_update (List.length s) f (s ++ [r]) = s ++ [f r].
Proof. induction s as [|x s IH]; simpl; [reflexivity | rewrite IH; reflexivity]. Qed.

Lemma Qgt_bool_compare a b : Qgt_bool a b = true <-> (b ?= a) = Lt.
Proof.
  unfold Qgt_bool. rewrite negb_true_iff. rewrite <- Qlt_alt.
  split.
  - intro H. apply Qnot_le_lt. intro Hle. apply Qle_bool_iff in Hle. congruence.
  - intro H. destruct (Qle_bool a b) eqn:E; [|reflexivity].
    apply Qle_bool_iff in E. exfalso. eapply Qlt_not_le; eauto.
Qed.

(** The update of lines 327-331 is the tracker of the specification. *)
Lemma check_convergence_observe p l a evs rd t :
  check_convergence a t = ConvergenceTracker.observe t (Completed p l a evs rd).
Proof.
  unfold check_convergence, ConvergenceTracker.observe, convergence_threshold.
  destruct (Qgt_bool a (best_accuracy t + (1 # 1000))) eqn:E.
  - apply Qgt_bool_compare in E. rewrite E. reflexivity.
  - destruct (best_accuracy t + (1 # 1000) ?= a) eqn:C;
      try (rewrite Nat.add_1_r; reflexivity).
    apply Qgt_bool_compare in C. congruence.
Qed.

Lemma train_loop_cons round_num range history_rounds t w :
  train_loop (round_num :: range) history_rounds t w =
  match federated_round w with
  | Raise e => Raise e
  | Ok (a, w1) =>
      let w2 := {| server := server w1;
                   store := store_update a (set_round (Z.of_nat round_num + 1)) (store w1);
                   rng := rng w1 |} in
      match nth_error (store w2) a with
      | None => Raise (ValueError "dangling reference")
      | Some (Completed _ _ current_accuracy _ _) =>
          let t1 := check_convergence current_accuracy t in
          if Nat.leb patience (no_improvement_count t1) then
            Ok ((history_rounds ++ [a], t1, (Z.of_nat round_num + 1)%Z), w2)
          else train_loop range (history_rounds ++ [a]) t1 w2
      | Some (Insufficient _ _) => train_loop range (history_rounds ++ [a]) t w2
      end
  end.
Proof.
  cbn [train_loop]. unfold bind at 1.
  destruct (federated_round w) as [[a w1]|e]; [|reflexivity].
  unfold bind at 1. unfold modify. unfold bind at 1. unfold read. cbn [store server rng].
  destruct (nth_error _ a) as [[c rd|p l acc evs rd]|]; try reflexivity.
  cbv zeta. destruct (Nat.leb _ _); reflexivity.
Qed.

Lemma status_set_round n r : status (set_round n r) = status r.
Proof. destruct r; reflexivity. Qed.

Lemma round_of_set_round n r : round_of (set_round n r) = Some n.
Proof. destruct r; reflexivity. Qed.

(** What the loop of [train] has done when it returns: the records [rs] of
    the rounds it ran are the new end of the store, the history lists their
    addresses, and the tracker is the specification's tracker run over
    them, which signalled STOP at the last record or not at all. *)
Lemma train_loop_spec n : forall k hr t w hr' t' conv w',
  train_loop (seq k n) hr t w = Ok ((hr', t', conv), w') ->
  (no_improvement_count t < 3)%nat ->
  exists rs,
    store w' = store w ++ rs /\
    hr' = hr ++ seq (List.length (store w)) (List.length rs) /\
    (List.length rs <= n)%nat /\
    (forall i r, nth_error rs i = Some r ->
                 round_of r = Some (Z.of_nat (k + i) + 1)%Z) /\
    t' = fold_left ConvergenceTracker.observe rs t /\
    (forall pre post, rs = pre ++ post -> post <> [] ->
       (no_improvement_count (fold_left ConvergenceTracker.observe pre t) < 3)%nat) /\
    (((3 <= no_improvement_count t')%nat /\
      conv = Z.of_nat (k + List.length rs) /\ rs <> [])
     \/ ((no_improvement_count t' < 3)%nat /\ conv = (-1)%Z /\ List.length rs = n)) /\
    round_results (server w')
    = round_results (server w) ++ completed_from (List.length (store w)) rs /\
    config (server w') = config (server w).
Proof.
  induction n as [|n IH]; intros k hr t w hr' t' conv w' Hrun Ht.
  - simpl in Hrun. unfold ret in Hrun. injection Hrun as <- <- <- <-.
    exists []. rewrite !app_nil_r. simpl.
    split; [reflexivity|]. split; [reflexivity|]. split; [lia|].
    split; [intros [|i] r Hr; discriminate|]. split; [reflexivity|].
    split; [|split; [right; auto | auto]].
    intros pre post Hpp Hpost. symmetry in Hpp. apply app_eq_nil in Hpp.
    destruct Hpp; contradiction.
  - change (seq k (S n)) with (k :: seq (S k) n) in Hrun.
    rewrite train_loop_cons in Hrun.
    destruct (federated_round w) as [[a w1]|e] eqn:Hround; [|discriminate].
    destruct (federated_round_store _ _ _ Hround)
      as [r [Hst [Ha [_ [Hrr [Hcfg _]]]]]].
    cbv zeta in Hrun. cbn [store] in Hrun.
    rewrite Hst, Ha, store_update_snoc, nth_error_snoc in Hrun.
    set (r' := set_round (Z.of_nat k + 1) r) in *.
    set (w2 := {| server := server w1; store := store w ++ [r']; rng := rng w1 |}) in *.
    assert (Hlen2 : List.length (store w2) = S (List.length (store w)))
      by (unfold w2; cbn [store]; rewrite length_app; simpl; lia).
    assert (Hstat : status r' = status r) by apply status_set_round.
    assert (Hrd' : round_of r' = Some (Z.of_nat (k + 0) + 1)%Z)
      by (rewrite Nat.add_0_r; apply round_of_set_round).
    assert (Hobs : match r' with
                   | Completed _ _ acc _ _ =>
                       check_convergence acc t = ConvergenceTracker.observe t r'
                   | Insufficient _ _ => t = ConvergenceTracker.observe t r'
                   end)
      by (destruct r'; [reflexivity | apply check_convergence_observe]).
    assert (Hrr1 : forall rest,
               (round_results (server w) ++ completed_from a [r])
                 ++ completed_from (S (List.length (store w))) rest
               = round_results (server w)
                   ++ completed_from (List.length (store w)) (r' :: rest)).
    { intro rest. rewrite <- app_assoc. f_equal. rewrite Ha. simpl.
      rewrite Hstat. destruct (status r); reflexivity. }
    assert (Hrec : forall t1,
               t1 = ConvergenceTracker.observe t r' ->
               (no_improvement_count t1 < 3)%nat ->
               train_loop (seq (S k) n) (hr ++ [List.length (store w)]) t1 w2
               = Ok ((hr', t', conv), w') ->
               exists rs,
                 store w' = store w ++ rs /\
                 hr' = hr ++ seq (List.length (store w)) (List.length rs) /\
                 (List.length rs <= S n)%nat /\
                 (forall i r, nth_error rs i = Some r ->
                              round_of r = Some (Z.of_nat (k + i) + 1)%Z) /\
                 t' = fold_left ConvergenceTracker.observe rs t /\
                 (forall pre post, rs = pre ++ post -> post <> [] ->
                    (no_improvement_count
                       (fold_left ConvergenceTracker.observe pre t) < 3)%nat) /\
                 (((3 <= no_improvement_count t')%nat /\
                   conv = Z.of_nat (k + List.length rs) /\ rs <> [])
                  \/ ((no_improvement_count t' < 3)%nat /\ conv = (-1)%Z /\
                      List.length rs = S n)) /\
                 round_results (server w')
                 = round_results (server w) ++ completed_from (List.length (store w)) rs /\
                 config (server w') = config (server w)).
    { intros t1 Ht1 Hc1 Hloop.
      destruct (IH _ _ _ _ _ _ _ _ Hloop Hc1)
        as [rs [Hs [Hh [Hl [Hnum [Htr [Hpre [Hconv [Hrrs Hcf]]]]]]]]].
      exists (r' :: rs). split; [|split; [|split; [|split; [|split; [|split; [|split; [|split]]]]]]].
      - rewrite Hs. unfold w2. cbn [store]. rewrite <- app_assoc. reflexivity.
      - rewrite Hh, Hlen2. rewrite <- app_assoc. reflexivity.
      - simpl. lia.
      - intros [|i] x Hx; simpl in Hx.
        + injection Hx as <-. exact Hrd'.
        + rewrite (Hnum _ _ Hx). do 2 f_equal. lia.
      - simpl. rewrite <- Ht1. exact Htr.
      - intros [|p pre] post Hpp Hpost; [exact Ht|].
        simpl in Hpp. injection Hpp as <- Hpp. simpl. rewrite <- Ht1. eauto.
      - destruct Hconv as [[H1 [H2 H3]]|[H1 [H2 H3]]]; [left | right].
        + repeat split; [exact H1 | | discriminate].
          rewrite H2. f_equal. simpl. lia.
        + repeat split; [exact H1 | exact H2 | simpl; lia].
      - rewrite Hrrs, Hlen2. unfold w2. cbn [server]. rewrite Hrr. apply Hrr1.
      - rewrite Hcf. unfold w2. cbn [server]. exact Hcfg. }
    destruct r' as [c rd|p l acc evs rd] eqn:Hr'.
    + apply (Hrec t Hobs Ht Hrun).
    + cbv zeta in Hrun. rewrite Hobs in Hrun.
      destruct (Nat.leb_spec patience
                  (no_improvement_count
                     (ConvergenceTracker.observe t (Completed p l acc evs rd))))
        as [Hstop|Hgo].
      * injection Hrun as <- <- <- <-.
        exists [Completed p l acc evs rd].
        split; [|split; [|split; [|split; [|split; [|split; [|split; [|split]]]]]]].
        -- reflexivity.
        -- reflexivity.
        -- simpl. lia.
        -- intros [|[|i]] x Hx; simpl in Hx; try discriminate.
           injection Hx as <-. exact Hrd'.
        -- reflexivity.
        -- intros [|p0 [|p1 pre]] post Hpp Hpost; [exact Ht | |].
           ++ simpl in Hpp. injection Hpp as _ Hpp. congruence.
           ++ simpl in Hpp. discriminate.
        -- left. repeat split; [exact Hstop | | discriminate].
           simpl. f_equal. lia.
        -- unfold w2. cbn [server]. rewrite Hrr. rewrite <- (Hrr1 []).
           simpl. rewrite app_nil_r. reflexivity.
        -- unfold w2. cbn [server]. exact Hcfg.
      * apply (Hrec _ eq_refl Hgo Hrun).
Qed.

Lemma records_seq rs : forall s0 tail,
  records (s0 ++ rs ++ tail) (seq (List.length s0) (List.length rs)) = rs.
Proof.
  induction rs as [|r rs IH]; intros s0 tail; [reflexivity|].
  simpl. rewrite nth_error_app2 by lia. rewrite Nat.sub_diag. simpl. f_equal.
  specialize (IH (s0 ++ [r]) tail).
  rewrite length_app, Nat.add_1_r, <- app_assoc in IH. exact IH.
Qed.

(** [train], when it returns: see [train_loop_spec]. *)
Lemma train_spec w h w' :
  train w = Ok (h, w') ->
  exists rs,
    store w' = store w ++ rs /\
    rounds h = seq (List.length (store w)) (List.length rs) /\
    records (store w') (rounds h) = rs /\
    (List.length rs <= Z.to_nat (num_rounds (config (server w))))%nat /\
    (forall i r, nth_error rs i = Some r -> round_of r = Some (Z.of_nat i + 1)%Z) /\
    final_accuracy h = best_accuracy (ConvergenceTracker.after rs) /\
    (forall pre post, rs = pre ++ post -> post <> [] ->
       ~ ConvergenceTracker.stop (ConvergenceTracker.after pre)) /\
    ((ConvergenceTracker.stop (ConvergenceTracker.after rs) /\
      convergence_round h = Z.of_nat (List.length rs) /\ rs <> [])
     \/ (~ ConvergenceTracker.stop (ConvergenceTracker.after rs) /\
         convergence_round h = (-1)%Z /\
         List.length rs = Z.to_nat (num_rounds (config (server w))))) /\
    round_results (server w')
    = round_results (server w) ++ completed_from (List.length (store w)) rs.
Proof.
  unfold train. unfold bind at 1. unfold get_server. unfold bind at 1.
  destruct (train_loop _ _ _ w) as [[[[hr t] conv] w1]|e] eqn:Hloop; [|discriminate].
  unfold ret. intros [= <- <-]. cbn [rounds final_accuracy convergence_round].
  destruct (train_loop_spec _ _ _ _ _ _ _ _ _ Hloop)
    as [rs [Hs [Hh [Hl [Hnum [Htr [Hpre [Hconv [Hrrs _]]]]]]]]]; [simpl; lia|].
  simpl in Hh. exists rs.
  split; [exact Hs|]. split; [exact Hh|].
  split; [rewrite Hs, Hh; rewrite <- (app_nil_r rs) at 1; apply records_seq|].
  split; [exact Hl|]. split; [exact Hnum|]. split; [rewrite Htr; reflexivity|].
  unfold ConvergenceTracker.stop, ConvergenceTracker.after, ConvergenceTracker.init.
  split; [|split; [|exact Hrrs]].
  - intros pre post Hpp Hpost. specialize (Hpre pre post Hpp Hpost). lia.
  - rewrite <- Htr. destruct Hconv as [[H1 [H2 H3]]|[H1 [H2 H3]]]; [left | right].
    + repeat split; assumption.
    + repeat split; [lia | assumption | assumption].
Qed.

(** ** The loop of [train] over any evaluation of the convergence test *)

Section TrainWith.

Variable round : M addr.
Hypothesis Hprotocol : round_protocol round.
Variable check : Q -> Tracker -> Tracker.
Variable observe : Tracker -> RoundResult -> Tracker.
Hypothesis Hcheck : forall p l a evs rd t,
  check a t = observe t (Completed p l a evs rd).
Hypothesis Hskip : forall c rd t, observe t (Insufficient c rd) = t.

Lemma train_loop_with_cons round_num range history_rounds t w :
  train_loop_with round check (round_num :: range) history_rounds t w =
  match round w with
  | Raise e => Raise e
  | Ok (a, w1) =>
      let w2 := {| server := server w1;
                   store := store_update a (set_round (Z.of_nat round_num + 1)) (store w1);
                   rng := rng w1 |} in
      match nth_error (store w2) a with
      | None => Raise (ValueError "dangling reference")
      | Some (Completed _ _ current_accuracy _ _) =>
          let t1 := check current_accuracy t in
          if Nat.leb patience (no_improvement_count t1) then
            Ok ((history_rounds ++ [a], t1, (Z.of_nat round_num + 1)%Z), w2)
          else train_loop_with round check range (history_rounds ++ [a]) t1 w2
      | Some (Insufficient _ _) => train_loop_with round check range (history_rounds ++ [a]) t w2
      end
  end.
Proof.
  cbn [train_loop_with]. unfold bind at 1.
  destruct (round w) as [[a w1]|e]; [|reflexivity].
  unfold bind at 1. unfold modify. unfold bind at 1. unfold read. cbn [store server rng].
  destruct (nth_error _ a) as [[c rd|p l acc evs rd]|]; try reflexivity.
  cbv zeta. destruct (Nat.leb _ _); reflexivity.
Qed.

(** What the loop has done when it returns: the records [rs] of the rounds
    it ran are the new end of the store, the history lists their
    addresses, and the tracker is [observe] run over them, which signalled
    STOP at the last record or not at all. *)
Lemma train_loop_with_spec n : forall k hr t w hr' t' conv w',
  train_loop_with round check (seq k n) hr t w = Ok ((hr', t', conv), w') ->
  (no_improvement_count t < 3)%nat ->
  exists rs,
    store w' = store w ++ rs /\
    hr' = hr ++ seq (List.length (store w)) (List.length rs) /\
    (List.length rs <= n)%nat /\
    (forall i r, nth_error rs i = Some r ->
                 round_of r = Some (Z.of_nat (k + i) + 1)%Z) /\
    t' = fold_left observe rs t /\
    (forall pre post, rs = pre ++ post -> post <> [] ->
       (no_improvement_count (fold_left observe pre t) < 3)%nat) /\
    (((3 <= no_improvement_count t')%nat /\
      conv = Z.of_nat (k + List.length rs) /\ rs <> [])
     \/ ((no_improvement_count t' < 3)%nat /\ conv = (-1)%Z /\ List.length rs = n)).
Proof.
  induction n as [|n IH]; intros k hr t w hr' t' conv w' Hrun Ht.
  - simpl in Hrun. unfold ret in Hrun. injection Hrun as <- <- <- <-.
    exists []. rewrite !app_nil_r. simpl.
    split; [reflexivity|]. split; [reflexivity|]. split; [lia|].
    split; [intros [|i] r Hr; discriminate|]. split; [reflexivity|].
    split; [|right; auto].
    intros pre post Hpp Hpost. symmetry in Hpp. apply app_eq_nil in Hpp.
    destruct Hpp; contradiction.
  - change (seq k (S n)) with (k :: seq (S k) n) in Hrun.
    rewrite train_loop_with_cons in Hrun.
    destruct (round w) as [[a w1]|e] eqn:Hround; [|discriminate].
    destruct (Hprotocol _ _ _ Hround) as [r [Hst Ha]].
    cbv zeta in Hrun. cbn [store] in Hrun.
    rewrite Hst, Ha, store_update_snoc, nth_error_snoc in Hrun.
    set (r' := set_round (Z.of_nat k + 1) r) in *.
    set (w2 := {| server := server w1; store := store w ++ [r']; rng := rng w1 |}) in *.
    assert (Hlen2 : List.length (store w2) = S (List.length (store w)))
      by (unfold w2; cbn [store]; rewrite length_app; simpl; lia).
    assert (Hstat : status r' = status r) by apply status_set_round.
    assert (Hrd' : round_of r' = Some (Z.of_nat (k + 0) + 1)%Z)
      by (rewrite Nat.add_0_r; apply round_of_set_round).
    assert (Hobs : match r' with
                   | Completed _ _ acc _ _ =>
                       check acc t = observe t r'
                   | Insufficient _ _ => t = observe t r'
                   end)
      by (destruct r'; [symmetry; apply Hskip | apply Hcheck]).
    assert (Hrec : forall t1,
               t1 = observe t r' ->
               (no_improvement_count t1 < 3)%nat ->
               train_loop_with round check (seq (S k) n) (hr ++ [List.length (store w)]) t1 w2
               = Ok ((hr', t', conv), w') ->
               exists rs,
                 store w' = store w ++ rs /\
                 hr' = hr ++ seq (List.length (store w)) (List.length rs) /\
                 (List.length rs <= S n)%nat /\
                 (forall i r, nth_error rs i = Some r ->
                              round_of r = Some (Z.of_nat (k + i) + 1)%Z) /\
                 t' = fold_left observe rs t /\
                 (forall pre post, rs = pre ++ post -> post <> [] ->
                    (no_improvement_count
                       (fold_left observe pre t) < 3)%nat) /\
                 (((3 <= no_improvement_count t')%nat /\
                   conv = Z.of_nat (k + List.length rs) /\ rs <> [])
                  \/ ((no_improvement_count t' < 3)%nat /\ conv = (-1)%Z /\
                      List.length rs = S n))).
    { intros t1 Ht1 Hc1 Hloop.
      destruct (IH _ _ _ _ _ _ _ _ Hloop Hc1)
        as [rs [Hs [Hh [Hl [Hnum [Htr [Hpre Hconv]]]]]]].
      exists (r' :: rs). split; [|split; [|split; [|split; [|split; [|split]]]]].
      - rewrite Hs. unfold w2. cbn [store]. rewrite <- app_assoc. reflexivity.
      - rewrite Hh, Hlen2. rewrite <- app_assoc. reflexivity.
      - simpl. lia.
      - intros [|i] x Hx; simpl in Hx.
        + injection Hx as <-. exact Hrd'.
        + rewrite (Hnum _ _ Hx). do 2 f_equal. lia.
      - simpl. rewrite <- Ht1. exact Htr.
      - intros [|p pre] post Hpp Hpost; [exact Ht|].
        simpl in Hpp. injection Hpp as <- Hpp. simpl. rewrite <- Ht1. eauto.
      - destruct Hconv as [[H1 [H2 H3]]|[H1 [H2 H3]]]; [left | right].
        + repeat split; [exact H1 | | discriminate].
          rewrite H2. f_equal. simpl. lia.
        + repeat split; [exact H1 | exact H2 | simpl; lia]. }
    destruct r' as [c rd|p l acc evs rd] eqn:Hr'.
    + apply (Hrec t Hobs Ht Hrun).
    + cbv zeta in Hrun. rewrite Hobs in Hrun.
      destruct (Nat.leb_spec patience
                  (no_improvement_count
                     (observe t (Completed p l acc evs rd))))
        as [Hstop|Hgo].
      * injection Hrun as <- <- <- <-.
        exists [Completed p l acc evs rd].
        split; [|split; [|split; [|split; [|split; [|split]]]]].
        -- reflexivity.
        -- reflexivity.
        -- simpl. lia.
        -- intros [|[|i]] x Hx; simpl in Hx; try discriminate.
           injection Hx as <-. exact Hrd'.
        -- reflexivity.
        -- intros [|p0 [|p1 pre]] post Hpp Hpost; [exact Ht | |].
           ++ simpl in Hpp. injection Hpp as _ Hpp. congruence.
           ++ simpl in Hpp. discriminate.
        -- left. repeat split; [exact Hstop | | discriminate].
           simpl. f_equal. lia.
      * apply (Hrec _ eq_refl Hgo Hrun).
Qed.

(** [train_with], when it returns: see [train_loop_with_spec]. *)
Lemma train_with_spec w h w' :
  train_with round check w = Ok (h, w') ->
  exists rs,
    store w' = store w ++ rs /\
    rounds h = seq (List.length (store w)) (List.length rs) /\
    records (store w') (rounds h) = rs /\
    (List.length rs <= Z.to_nat (num_rounds (config (server w))))%nat /\
    (forall i r, nth_error rs i = Some r -> round_of r = Some (Z.of_nat i + 1)%Z) /\
    final_accuracy h = best_accuracy (fold_left observe rs ConvergenceTracker.init) /\
    (forall pre post, rs = pre ++ post -> post <> [] ->
       ~ ConvergenceTracker.stop (fold_left observe pre ConvergenceTracker.init)) /\
    ((ConvergenceTracker.stop (fold_left observe rs ConvergenceTracker.init) /\
      convergence_round h = Z.of_nat (List.length rs) /\ rs <> [])
     \/ (~ ConvergenceTracker.stop (fold_left observe rs ConvergenceTracker.init) /\
         convergence_round h = (-1)%Z /\
         List.length rs = Z.to_nat (num_rounds (config (server w))))).
Proof.
  unfold train_with. unfold bind at 1. unfold get_server. unfold bind at 1.
  destruct (train_loop_with round check _ _ _ w) as [[[[hr t] conv] w1]|e] eqn:Hloop; [|discriminate].
  unfold ret. intros [= <- <-]. cbn [rounds final_accuracy convergence_round].
  destruct (train_loop_with_spec _ _ _ _ _ _ _ _ _ Hloop)
    as [rs [Hs [Hh [Hl [Hnum [Htr [Hpre Hconv]]]]]]]; [simpl; lia|].
  simpl in Hh. exists rs.
  split; [exact Hs|]. split; [exact Hh|].
  split; [rewrite Hs, Hh; rewrite <- (app_nil_r rs) at 1; apply records_seq|].
  split; [exact Hl|]. split; [exact Hnum|]. split; [rewrite Htr; reflexivity|].
  unfold ConvergenceTracker.stop, ConvergenceTracker.init.
  split.
  - intros pre post Hpp Hpost. specialize (Hpre pre post Hpp Hpost). lia.
  - rewrite <- Htr. destruct Hconv as [[H1 [H2 H3]]|[H1 [H2 H3]]]; [left | right].
    + repeat split; assumption.
    + repeat split; [lia | assumption | assumption].
Qed.

End TrainWith.

(** ** Claims about [train] *)

(** The loop of [train] is [train_loop_with] over the exact test. *)
Lemma train_loop_with_exact range : forall hr t w,
  train_loop_with federated_round check_convergence range hr t w
  = train_loop range hr t w.
Proof.
  induction range as [|round_num range IH]; intros hr t w; [reflexivity|].
  rewrite train_loop_cons, (train_loop_with_cons federated_round check_convergence).
  destruct (federated_round w) as [[a w1]|e]; [|reflexivity]. cbv zeta.
  destruct (nth_error _ a) as [[c rd|p l acc evs rd]|]; try reflexivity; [apply IH|].
  destruct (Nat.leb _ _); [reflexivity | apply IH].
Qed.

Lemma federated_round_protocol : round_protocol federated_round.
Proof.
  intros w a w' H. destruct (federated_round_store _ _ _ H) as [r [Hst [Ha _]]].
  exists r. split; assumption.
Qed.

(** Lines 327-331 evaluated in binary64 are the float tracker. *)
Lemma check_convergence64_observe p l a evs rd t :
  check_convergence64 a t = FloatTracker.observe t (Completed p l a evs rd).
Proof.
  unfold check_convergence64, FloatTracker.observe. cbv zeta.
  destruct (Binary64.add (best_accuracy t) convergence_threshold64) as [sum|];
    [|rewrite Nat.add_1_r; reflexivity].
  destruct (Qgt_bool a sum) eqn:E.
  - apply Qgt_bool_compare in E. rewrite E. reflexivity.
  - destruct (sum ?= a) eqn:C; try (rewrite Nat.add_1_r; reflexivity).
    apply Qgt_bool_compare in C. congruence.
Qed.

Lemma add_comp x x' y : x == x' -> Binary64.add x y = Binary64.add x' y.
Proof.
  intro H. unfold Binary64.add.
  rewrite (round_comp (x + y) (x' + y)) by (rewrite H; reflexivity). reflexivity.
Qed.

Lemma float_observe_improves t r a b sum :
  completed_with r a -> best_accuracy t == b ->
  Binary64.add b convergence_threshold64 = Some sum -> (sum ?= a) = Lt ->
  exists b', FloatTracker.observe t r
             = {| best_accuracy := b'; no_improvement_count := 0 |} /\ b' == a.
Proof.
  destruct r as [c rd|p l a' evs rd]; unfold completed_with; [tauto|].
  intros Ha Hb Hsum Hlt. cbn [FloatTracker.observe].
  rewrite (add_comp _ _ _ Hb), Hsum.
  rewrite (Qcompare_comp _ _ (Qeq_refl _) _ _ Ha), Hlt. eauto.
Qed.

Lemma float_observe_stalls t r a b sum :
  completed_with r a -> best_accuracy t == b ->
  Binary64.add b convergence_threshold64 = Some sum -> (sum ?= a) <> Lt ->
  FloatTracker.observe t r
  = {| best_accuracy := best_accuracy t;
       no_improvement_count := no_improvement_count t + 1 |}.
Proof.
  destruct r as [c rd|p l a' evs rd]; unfold completed_with; [tauto|].
  intros Ha Hb Hsum Hlt. cbn [FloatTracker.observe].
  rewrite (add_comp _ _ _ Hb), Hsum.
  rewrite (Qcompare_comp _ _ (Qeq_refl _) _ _ Ha).
  destruct (sum ?= a); congruence.
Qed.

(** C5, as the code has it.  When [train] returns, whatever its rounds
    compute, with [rs] the records of its history in order: they are the
    records created during the run, one per round and at most
    [num_rounds];
    [final_accuracy] is the best accuracy of the tracker after observing
    [rs], where the tracker starts with best and counter 0, a COMPLETED
    record with accuracy [a] sets the best to [a] and the counter to 0 when
    [a] exceeds the binary64 sum of the best and the float 0.001, any other
    COMPLETED record increments the counter, and an INSUFFICIENT_CLIENTS
    record changes neither; the counter had not reached the patience of 3
    before the last record; and either it has reached it with the last
    record, which is the convergence round, or it has not and the whole
    budget of [num_rounds] rounds was run, INSUFFICIENT_CLIENTS rounds
    included.  In particular, a run whose first four rounds complete with
    the floats 0.5, 0.5005, 0.5007, 0.5006 has exactly these four rounds,
    declares convergence at round 4 and reports 0.5. *)
Theorem train_convergence_tracking round w h w' :
  round_protocol round ->
  train_with round check_convergence64 w = Ok (h, w') ->
  let rs := records (store w') (rounds h) in
  store w' = store w ++ rs /\
  (List.length rs <= Z.to_nat (num_rounds (config (server w))))%nat /\
  final_accuracy h = best_accuracy (FloatTracker.after rs) /\
  (forall pre post, rs = pre ++ post -> post <> [] ->
     ~ ConvergenceTracker.stop (FloatTracker.after pre)) /\
  ((ConvergenceTracker.stop (FloatTracker.after rs) /\
    convergence_round h = Z.of_nat (List.length rs))
   \/ (~ ConvergenceTracker.stop (FloatTracker.after rs) /\
       convergence_round h = (-1)%Z /\
       List.length rs = Z.to_nat (num_rounds (config (server w))))) /\
  (Forall2 completed_with (firstn 4 rs)
     (map Binary64.round [5 # 10; 5005 # 10000; 5007 # 10000; 5006 # 10000]) ->
   List.length rs = 4%nat /\ convergence_round h = 4%Z /\ final_accuracy h == 5 # 10).
Proof.
  intros Hprotocol Hrun rs.
  destruct (train_with_spec round Hprotocol check_convergence64 FloatTracker.observe
              check_convergence64_observe (fun _ _ _ => eq_refl) _ _ _ Hrun)
    as [rs' [Hst [Hh [Hrec [Hl [_ [Hfin [Hpre Hconv]]]]]]]].
  fold (FloatTracker.after rs') in Hfin, Hconv.
  assert (Hpre' : forall pre post, rs' = pre ++ post -> post <> [] ->
                    ~ ConvergenceTracker.stop (FloatTracker.after pre))
    by exact Hpre.
  clear Hpre. subst rs. rewrite Hrec.
  split; [exact Hst|].
  split; [exact Hl|]. split; [exact Hfin|]. split; [exact Hpre'|].
  split; [destruct Hconv as [[H1 [H2 _]]|H]; [left; auto | right; exact H]|].
  intro Hscript.
  destruct rs' as [|r1 [|r2 [|r3 [|r4 rest]]]]; simpl in Hscript;
    try (inversion Hscript as [|? ? ? ? _ Hs2]; subst;
         try (inversion Hs2 as [|? ? ? ? _ Hs3]; subst;
              try (inversion Hs3 as [|? ? ? ? _ Hs4]; subst; inversion Hs4));
         fail).
  inversion Hscript as [|? ? ? ? H1 Hs2]; subst.
  inversion Hs2 as [|? ? ? ? H2 Hs3]; subst.
  inversion Hs3 as [|? ? ? ? H3 Hs4]; subst.
  inversion Hs4 as [|? ? ? ? H4 _]; subst.
  assert (Hafter : exists b,
             FloatTracker.after [r1; r2; r3; r4]
             = {| best_accuracy := b; no_improvement_count := 3 |} /\ b == 5 # 10).
  { unfold FloatTracker.after. cbn [fold_left].
    destruct (float_observe_improves ConvergenceTracker.init r1 _ 0
                (Binary64.round (0 + convergence_threshold64)) H1 (Qeq_refl _))
      as [b [-> Hb]]; [vm_compute; reflexivity | vm_compute; reflexivity|].
    assert (Hb5 : b == 5 # 10) by (rewrite Hb; vm_compute; reflexivity).
    exists b. split; [|exact Hb5].
    rewrite (float_observe_stalls {| best_accuracy := b; no_improvement_count := 0 |}
               r2 _ (5 # 10)
               (Binary64.round ((5 # 10) + convergence_threshold64)) H2 Hb5)
      by (vm_compute; first [reflexivity | discriminate]).
    cbn [best_accuracy no_improvement_count].
    rewrite (float_observe_stalls {| best_accuracy := b; no_improvement_count := _ |}
               r3 _ (5 # 10)
               (Binary64.round ((5 # 10) + convergence_threshold64)) H3 Hb5)
      by (vm_compute; first [reflexivity | discriminate]).
    cbn [best_accuracy no_improvement_count].
    rewrite (float_observe_stalls {| best_accuracy := b; no_improvement_count := _ |}
               r4 _ (5 # 10)
               (Binary64.round ((5 # 10) + convergence_threshold64)) H4 Hb5)
      by (vm_compute; first [reflexivity | discriminate]).
    cbn [best_accuracy no_improvement_count].
    reflexivity. }
  destruct Hafter as [b [Hafter Hb]].
  assert (Hrest : rest = []).
  { destruct rest as [|r5 rest]; [reflexivity|]. exfalso.
    apply (Hpre' [r1; r2; r3; r4] (r5 :: rest) eq_refl); [discriminate|].
    unfold ConvergenceTracker.stop. rewrite Hafter. simpl. lia. }
  subst rest. rewrite Hfin, Hafter. cbn [best_accuracy].
  split; [reflexivity|]. split; [|exact Hb].
  destruct Hconv as [[_ [H _]]|[Hns _]]; [exact H|].
  exfalso. apply Hns. unfold ConvergenceTracker.stop. rewrite Hafter. simpl. lia.
Qed.

Lemma train_convergence_tracking_witness :
  let w := Scenario.float_early_stop in
  let h := fst Scenario.float_early_stop_run in
  let w' := snd Scenario.float_early_stop_run in
  let rs := records (store w') (rounds h) in
  Forall2 completed_with (firstn 4 rs)
    (map Binary64.round [5 # 10; 5005 # 10000; 5007 # 10000; 5006 # 10000]) /\
  List.length rs = 4%nat /\ convergence_round h = 4%Z /\ final_accuracy h == 5 # 10.
Proof.
  intros w h w' rs.
  assert (Hscript : Forall2 completed_with (firstn 4 rs)
                      (map Binary64.round
                         [5 # 10; 5005 # 10000; 5007 # 10000; 5006 # 10000]))
    by (vm_compute; repeat constructor).
  split; [exact Hscript|].
  refine (proj2 (proj2 (proj2 (proj2 (proj2
            (train_convergence_tracking federated_round w h w'
               federated_round_protocol _))))) Hscript).
  vm_compute. reflexivity.
Defined.

(** C5 fails as stated, whichever way its exact test is read.  A client
    that reports the floats 0.009 and then 0.01 three times: the binary64
    sum [0.009 + 0.001] is below the float 0.01, so the code takes round 2
    as an improvement, runs its four rounds without convergence and
    returns 0.01, where the tracker of the claim on the accuracies 0.009,
    0.010, 0.010, 0.010 stalls three times and stops at round 4 with the
    best 0.009.  And a client that reports the floats 0.5 and then 0.501:
    the binary64 sum [0.5 + 0.001] is the float 0.501, so the code returns
    0.5, where the float 0.501 exceeds 0.5 by more than 0.001 and the
    tracker of the claim, on the recorded accuracies, improves to it. *)
Lemma train_convergence_not_exact :
  (train64 Scenario.decimal_step = Ok Scenario.decimal_step_run /\
   let h := fst Scenario.decimal_step_run in
   let rs := records (store (snd Scenario.decimal_step_run)) (rounds h) in
   Forall2 completed_with rs
     (map Binary64.round [9 # 1000; 10 # 1000; 10 # 1000; 10 # 1000]) /\
   final_accuracy h == Binary64.round (10 # 1000) /\
   convergence_round h = (-1)%Z /\
   let claimed := ConvergenceTracker.after
                    (map (fun a => Completed 1 0 a [] None)
                       [9 # 1000; 10 # 1000; 10 # 1000; 10 # 1000]) in
   best_accuracy claimed == 9 # 1000 /\ no_improvement_count claimed = 3%nat) /\
  (train64 Scenario.float_step = Ok Scenario.float_step_run /\
   let h := fst Scenario.float_step_run in
   let rs := records (store (snd Scenario.float_step_run)) (rounds h) in
   Forall2 completed_with rs (map Binary64.round [5 # 10; 501 # 1000]) /\
   final_accuracy h == 5 # 10 /\
   best_accuracy (ConvergenceTracker.after rs) == Binary64.round (501 # 1000) /\
   ~ final_accuracy h == best_accuracy (ConvergenceTracker.after rs)).
Proof.
  split.
  - split; [vm_compute; reflexivity|]. cbv zeta.
    split; [vm_compute; repeat constructor|].
    split; [vm_compute; reflexivity|]. split; [vm_compute; reflexivity|].
    split; vm_compute; reflexivity.
  - split; [vm_compute; reflexivity|]. cbv zeta.
    split; [vm_compute; repeat constructor|].
    split; [vm_compute; reflexivity|]. split; [vm_compute; reflexivity|].
    vm_compute. intro H. discriminate H.
Qed.



(** The tracker's best accuracy never decreases, stays within the threshold
    of every accuracy it has seen, and is its initial value or one of the
    accuracies seen. *)
Lemma observe_best_bounds rs : forall t,
  let t' := fold_left ConvergenceTracker.observe rs t in
  best_accuracy t <= best_accuracy t' /\
  (forall a, In a (completed_accuracies rs) -> a <= best_accuracy t' + (1 # 1000)) /\
  (best_accuracy t' = best_accuracy t \/ In (best_accuracy t') (completed_accuracies rs)).
Proof.
  induction rs as [|r rs IH]; intros t; cbv zeta.
  - simpl. split; [apply Qle_refl|]. split; [tauto | auto].
  - destruct r as [c rd|p l a evs rd]; [exact (IH t)|].
    cbn [fold_left completed_accuracies flat_map app].
    change (flat_map _ rs) with (completed_accuracies rs).
    set (t1 := ConvergenceTracker.observe t (Completed p l a evs rd)).
    destruct (IH t1) as [H1 [H2 H3]].
    assert (Ht1 : best_accuracy t <= best_accuracy t1 /\
                  a <= best_accuracy t1 + (1 # 1000) /\
                  (best_accuracy t1 = best_accuracy t \/ best_accuracy t1 = a)).
    { unfold t1. cbn [ConvergenceTracker.observe].
      destruct (best_accuracy t + (1 # 1000) ?= a) eqn:C; cbn [best_accuracy].
      - apply Qeq_alt in C. repeat split; [apply Qle_refl | lra | auto].
      - apply Qlt_alt in C. repeat split; [lra | lra | auto].
      - apply Qgt_alt in C. repeat split; [apply Qle_refl | lra | auto]. }
    destruct Ht1 as [Ha1 [Ha2 Ha3]]. split; [|split].
    + eapply Qle_trans; eauto.
    + intros x [<-|Hx]; [lra | auto].
    + destruct H3 as [H3|H3]; [|right; right; exact H3].
      rewrite H3. destruct Ha3 as [->| ->]; [left | right; left]; reflexivity.
Qed.




(** ** Claims about [federated_round] *)

(** C2, as the code has it.  When [federated_round] returns, its record
    has status INSUFFICIENT_CLIENTS exactly when fewer than [min_clients]
    clients were selected; the record then reports the number of selected
    clients and the global state is unchanged.  When enough clients were
    selected and none of them produced an update, the record is COMPLETED
    with 0 participants, 0 average loss and accuracy and no evaluation, and
    the global state is unchanged as well. *)
Theorem federated_round_insufficient_clients w a w' :
  federated_round w = Ok (a, w') ->
  exists selected w1 r,
    select_clients 1 w = Ok (selected, w1) /\
    nth_error (store w') a = Some r /\
    (status r = insufficient_clients <->
     (Z.of_nat (List.length selected) < min_clients (config (server w)))%Z) /\
    (status r = insufficient_clients ->
     r = Insufficient (List.length selected) None /\
     global_model (server w') = global_model (server w)) /\
    (status r = completed ->
     trained_updates (global_model (server w)) (rng w1) selected = [] ->
     r = Completed 0 0 0 [] None /\
     global_model (server w') = global_model (server w)).
Proof.
  intro H. destruct (federated_round_inv _ _ _ H) as [selected [w1 [Hsel [Ha Hcases]]]].
  cbv zeta in Hcases. exists selected, w1.
  destruct Hcases as [[Hlt ->]|[Hge [gs [Hagg ->]]]]; cbn [server store global_model].
  - exists (Insufficient (List.length selected) None).
    split; [exact Hsel|]. split; [rewrite Ha; apply nth_error_snoc|].
    split; [simpl; tauto|]. split; [auto|]. simpl. discriminate.
  - eexists. split; [exact Hsel|]. split; [rewrite Ha; apply nth_error_snoc|].
    split; [|split].
    + simpl. split; [discriminate | lia].
    + simpl. discriminate.
    + intros _ Hups. rewrite Hups in Hagg. simpl in Hagg. injection Hagg as <-.
      rewrite (trained_evaluations_nil _ _ _ Hups), Hups. split; reflexivity.
Qed.

Lemma federated_round_insufficient_clients_witness :
  let w := Scenario.all_fail in
  let a := fst Scenario.all_fail_round in
  let w' := snd Scenario.all_fail_round in
  exists selected w1 r,
    select_clients 1 w = Ok (selected, w1) /\
    nth_error (store w') a = Some r /\
    (status r = insufficient_clients <->
     (Z.of_nat (List.length selected) < min_clients (config (server w)))%Z) /\
    (status r = insufficient_clients ->
     r = Insufficient (List.length selected) None /\
     global_model (server w') = global_model (server w)) /\
    (status r = completed ->
     trained_updates (global_model (server w)) (rng w1) selected = [] ->
     r = Completed 0 0 0 [] None /\
     global_model (server w') = global_model (server w)).
Proof.
  intros w a w'.
  refine (federated_round_insufficient_clients w a w' _).
  vm_compute. reflexivity.
Defined.

(** C2 fails as stated: three clients are selected where three are
    required, all three raise, no update is collected, and the record of
    the round is COMPLETED, not INSUFFICIENT_CLIENTS. *)
Lemma federated_round_zero_updates_completed :
  federated_round Scenario.all_fail = Ok Scenario.all_fail_round /\
  match select_clients 1 Scenario.all_fail with
  | Ok (selected, w1) =>
      List.length selected = 3%nat /\
      min_clients (config (server Scenario.all_fail)) = 3%Z /\
      trained_updates (global_model (server Scenario.all_fail)) (rng w1) selected = []
  | Raise _ => False
  end /\
  nth_error (store (snd Scenario.all_fail_round)) (fst Scenario.all_fail_round)
  = Some (Completed 0 0 0 [] None) /\
  status (Completed 0 0 0 [] None) <> insufficient_clients.
Proof.
  split; [vm_compute; reflexivity|].
  split; [vm_compute; repeat split|].
  split; [vm_compute; reflexivity | discriminate].
Qed.

(** C7, as the code has it.  A call of [federated_round] that returns has
    created exactly one round record; the records that existed are neither
    changed nor removed.  The server's [round_results] gains the new record
    when the round completed and is unchanged when the round ended with
    INSUFFICIENT_CLIENTS: that record is only returned.  [train] puts every
    returned record, of either status, in the history it returns: when it
    returns, the history lists in order exactly the records created during
    the run, one per round run, numbered from 1, and the server's
    [round_results] has gained the COMPLETED ones among them. *)
Theorem federated_round_history :
  (forall w a w',
     federated_round w = Ok (a, w') ->
     exists r,
       store w' = store w ++ [r] /\ a = List.length (store w) /\
       nth_error (store w') a = Some r /\
       (status r = completed ->
        round_results (server w') = round_results (server w) ++ [a]) /\
       (status r = insufficient_clients ->
        round_results (server w') = round_results (server w))) /\
  (forall w h w',
     train w = Ok (h, w') ->
     exists rs,
       store w' = store w ++ rs /\
       rounds h = seq (List.length (store w)) (List.length rs) /\
       records (store w') (rounds h) = rs /\
       (forall i r, nth_error rs i = Some r -> round_of r = Some (Z.of_nat i + 1)%Z) /\
       round_results (server w')
       = round_results (server w) ++ completed_from (List.length (store w)) rs).
Proof.
  split.
  - intros w a w' H.
    destruct (federated_round_store _ _ _ H) as [r [Hst [Ha [_ [Hrr _]]]]].
    exists r. split; [exact Hst|]. split; [exact Ha|].
    split; [rewrite Hst, Ha; apply nth_error_snoc|].
    rewrite Hrr. simpl. split; intros ->; [reflexivity | apply app_nil_r].
  - intros w h w' H.
    destruct (train_spec _ _ _ H) as [rs [H1 [H2 [H3 [_ [H4 [_ [_ [_ H5]]]]]]]]].
    exists rs. auto.
Qed.

Lemma federated_round_history_witness :
  let w := Scenario.too_few in
  let a := fst Scenario.too_few_round in
  let w' := snd Scenario.too_few_round in
  exists r,
    store w' = store w ++ [r] /\ a = List.length (store w) /\
    nth_error (store w') a = Some r /\
    (status r = completed ->
     round_results (server w') = round_results (server w) ++ [a]) /\
    (status r = insufficient_clients ->
     round_results (server w') = round_results (server w)).
Proof.
  intros w a w'.
  refine (proj1 federated_round_history w a w' _).
  vm_compute. reflexivity.
Defined.

(** C7 fails as stated: the round on a registry of one client, where three
    are required, returns an INSUFFICIENT_CLIENTS record and the server's
    [round_results] is as empty as before. *)
Lemma federated_round_insufficient_not_recorded :
  federated_round Scenario.too_few = Ok Scenario.too_few_round /\
  nth_error (store (snd Scenario.too_few_round)) (fst Scenario.too_few_round)
  = Some (Insufficient 1 None) /\
  round_results (server Scenario.too_few) = [] /\
  round_results (server (snd Scenario.too_few_round)) = [].
Proof.
  split; [vm_compute; reflexivity|]. repeat split.
Qed.

(** C9.  Let enough clients be selected and let some of them raise in
    local training.  Then [federated_round] does not raise with them: if
    the aggregation of the updates of the other clients returns, the round
    returns a COMPLETED record and the global state is that aggregation.
    The updates that enter it are exactly those of the selected clients
    whose local training returned; every evaluation of the record comes
    from such a client; and the participant count of the record is the
    number of those updates, which is the number of selected clients less
    the number of those that raised: 4 for five selected clients of which
    one raises. *)
Theorem federated_round_partial_failure w selected w1 global_state :
  select_clients 1 w = Ok (selected, w1) ->
  (min_clients (config (server w)) <= Z.of_nat (List.length selected))%Z ->
  let gm := global_model (server w) in
  let ups := trained_updates gm (rng w1) selected in
  let evs := trained_evaluations gm (rng w1) selected in
  let failed := failed_clients gm (rng w1) selected in
  failed <> [] ->
  aggregate_updates gm ups = Ok global_state ->
  exists a w' avg_loss avg_accuracy,
    federated_round w = Ok (a, w') /\
    nth_error (store w') a
    = Some (Completed (List.length ups) avg_loss avg_accuracy evs None) /\
    global_model (server w') = global_state /\
    (List.length ups + List.length failed = List.length selected)%nat /\
    (forall u, In u ups <->
               exists i c m, nth_error selected i = Some c /\
                             local_train c gm (rng w1 i) = Ok (u, m)) /\
    (forall c, In c failed ->
               exists i x, nth_error selected i = Some c /\
                           local_train c gm (rng w1 i) = Raise x) /\
    (forall e, In e evs ->
               exists i c u m e0,
                 nth_error selected i = Some c /\
                 local_train c gm (rng w1 i) = Ok (u, m) /\
                 evaluate c m = Ok e0 /\ e = set_client_id (client_id c) e0) /\
    (List.length selected = 5%nat -> List.length failed = 1%nat ->
     List.length ups = 4%nat).
Proof.
  intros Hsel Hmin gm ups evs failed _ Hagg.
  pose proof (trained_failed_length gm selected (rng w1)) as Hlen.
  fold ups failed in Hlen.
  eexists. eexists. eexists. eexists.
  split; [|split; [|split; [|split; [exact Hlen|split; [|split; [|split]]]]]].
  - rewrite federated_round_unfold, Hsel. cbv zeta.
    destruct (Z.ltb_spec (Z.of_nat (List.length selected))
                (min_clients (config (server w)))) as [Hlt|_]; [lia|].
    rewrite aggregate_updates_guard. fold gm ups evs. rewrite Hagg. reflexivity.
  - cbn [store]. apply nth_error_snoc.
  - reflexivity.
  - apply trained_updates_In.
  - apply failed_clients_In.
  - apply trained_evaluations_In.
  - lia.
Qed.

Lemma federated_round_partial_failure_witness :
  let w := Scenario.one_failure in
  let selected := fst Scenario.one_failure_selection in
  let w1 := snd Scenario.one_failure_selection in
  let gm := global_model (server w) in
  let ups := trained_updates gm (rng w1) selected in
  let evs := trained_evaluations gm (rng w1) selected in
  let failed := failed_clients gm (rng w1) selected in
  (List.length selected = 5%nat /\ List.length failed = 1%nat) /\
  exists a w' avg_loss avg_accuracy,
    federated_round w = Ok (a, w') /\
    nth_error (store w') a
    = Some (Completed (List.length ups) avg_loss avg_accuracy evs None) /\
    global_model (server w') = global_model (server (snd Scenario.one_failure_round)) /\
    (List.length ups + List.length failed = List.length selected)%nat /\
    (forall u, In u ups <->
               exists i c m, nth_error selected i = Some c /\
                             local_train c gm (rng w1 i) = Ok (u, m)) /\
    (forall c, In c failed ->
               exists i x, nth_error selected i = Some c /\
                           local_train c gm (rng w1 i) = Raise x) /\
    (forall e, In e evs ->
               exists i c u m e0,
                 nth_error selected i = Some c /\
                 local_train c gm (rng w1 i) = Ok (u, m) /\
                 evaluate c m = Ok e0 /\ e = set_client_id (client_id c) e0) /\
    (List.length selected = 5%nat -> List.length failed = 1%nat ->
     List.length ups = 4%nat).
Proof.
  intros w selected w1 gm ups evs failed.
  split; [split; vm_compute; reflexivity|].
  refine (federated_round_partial_failure w selected w1
            (global_model (server (snd Scenario.one_failure_round))) _ _ _ _).
  - vm_compute. reflexivity.
  - vm_compute. discriminate.
  - vm_compute. discriminate.
  - vm_compute. reflexivity.
Defined.

(** ** The clip invariant of the [PrivacyEngine] *)

Section ClipInvariant.

Import PrivacyEngine.
Local Open Scope R_scope.

Lemma sum_sq_nonneg g : 0 <= sum_sq g.
Proof.
  induction g as [|x g IH]; simpl; [Lra.lra|].
  pose proof (Rle_0_sqr x) as Hx. unfold Rsqr in Hx. Lra.lra.
Qed.

Lemma sum_sq_app a b : sum_sq (a ++ b) = sum_sq a + sum_sq b.
Proof. induction a as [|x a IH]; simpl; [|rewrite IH]; Lra.lra. Qed.

Lemma sum_sq_scale c g : sum_sq (map (Rmult c) g) = c * c * sum_sq g.
Proof. induction g as [|x g IH]; simpl; [|rewrite IH]; ring. Qed.

Lemma sum_param_norms_flatten grads : forall acc,
  sum_param_norms grads acc = acc + sum_sq (flatten grads).
Proof.
  induction grads as [|[g|] grads IH]; intros acc;
    unfold flatten; cbn [sum_param_norms flat_map].
  - simpl. ring.
  - fold (flatten grads). rewrite IH, sum_sq_app. unfold norm2.
    rewrite pow2_sqrt by apply sum_sq_nonneg. ring.
  - fold (flatten grads). rewrite app_nil_l. apply IH.
Qed.

(** The norm the engine computes is the norm of the flattened vector. *)
Lemma total_norm_flat grads : total_norm grads = flat_norm grads.
Proof.
  unfold total_norm, flat_norm, norm2.
  rewrite sum_param_norms_flatten. f_equal. ring.
Qed.

Lemma flatten_scale c grads :
  flatten (map (option_map (map (Rmult c))) grads) = map (Rmult c) (flatten grads).
Proof.
  induction grads as [|[g|] grads IH]; simpl; [reflexivity | | exact IH].
  unfold flatten in *. rewrite IH, map_app. reflexivity.
Qed.

Lemma flat_norm_scale c grads :
  0 <= c ->
  flat_norm (map (option_map (map (Rmult c))) grads) = c * flat_norm grads.
Proof.
  intro Hc. unfold flat_norm, norm2. rewrite flatten_scale, sum_sq_scale.
  rewrite sqrt_mult; [|apply Rmult_le_pos; assumption | apply sum_sq_nonneg].
  rewrite sqrt_square by assumption. reflexivity.
Qed.

Lemma flat_norm_nonneg grads : 0 <= flat_norm grads.
Proof. unfold flat_norm, norm2. apply sqrt_pos. Qed.

(** The bound, whatever the norm of the input. *)
Lemma clip_gradients_bound max_grad_norm grads :
  0 < max_grad_norm ->
  flat_norm (clip_gradients max_grad_norm grads) <= max_grad_norm.
Proof.
  intro HM. unfold clip_gradients, clip_coef. rewrite total_norm_flat.
  pose proof (flat_norm_nonneg grads) as HN.
  set (N := flat_norm grads) in *.
  assert (Hden : 0 < N + epsilon) by (unfold epsilon; Lra.lra).
  set (c := max_grad_norm / (N + epsilon)).
  assert (Hc : 0 < c) by (apply Rdiv_lt_0_compat; assumption).
  assert (HcM : c * (N + epsilon) = max_grad_norm)
    by (unfold c; field; Lra.lra).
  destruct (Rlt_dec c 1) as [Hlt|Hge].
  - rewrite flat_norm_scale by Lra.lra. fold N.
    assert (0 <= c * epsilon)
      by (apply Rmult_le_pos; [|unfold epsilon]; Lra.lra).
    Lra.lra.
  - fold N. assert (1 * (N + epsilon) <= c * (N + epsilon))
      by (apply Rmult_le_compat_r; Lra.lra).
    unfold epsilon in *. Lra.lra.
Qed.

Lemma add_noise_elems_zero draws g : forall j, add_noise_elems 0 draws j g = g.
Proof.
  induction g as [|x g IH]; intros j; simpl; [reflexivity|].
  rewrite IH. f_equal. ring.
Qed.

Lemma add_noise_zero normal grads : forall i, add_noise 0 normal i grads = Ok grads.
Proof.
  induction grads as [|[g|] grads IH]; intros i; simpl; [reflexivity | |].
  - destruct (Rlt_dec 0 0) as [H|_]; [Lra.lra|].
    rewrite IH. simpl. rewrite add_noise_elems_zero. reflexivity.
  - rewrite IH. reflexivity.
Qed.

(** C4.  For gradients of non-zero Euclidean norm and a positive
    [max_grad_norm], the gradients as the clipping step leaves them, scaled
    by [max_grad_norm / (total_norm + 1e-6)] when that is below 1, have a
    flattened Euclidean norm of at most [max_grad_norm].  These clipped
    gradients are what the noise is then added to: with a noise multiplier
    of 0, [add_noise_to_gradients] returns exactly them. *)
Theorem clip_invariant max_grad_norm (normal : nat -> nat -> R) grads :
  0 < max_grad_norm ->
  flat_norm grads <> 0 ->
  flat_norm (clip_gradients max_grad_norm grads) <= max_grad_norm /\
  add_noise_to_gradients 0 max_grad_norm normal grads
  = Ok (clip_gradients max_grad_norm grads).
Proof.
  intros HM _. split; [apply clip_gradients_bound; exact HM|].
  unfold add_noise_to_gradients. rewrite Rmult_0_l. apply add_noise_zero.
Qed.

Lemma clip_invariant_witness :
  flat_norm (clip_gradients 1 [Some [3; 4]; None]) <= 1 /\
  add_noise_to_gradients 0 1 (fun _ _ => 0) [Some [3; 4]; None]
  = Ok (clip_gradients 1 [Some [3; 4]; None]).
Proof.
  apply (clip_invariant 1 (fun _ _ => 0) [Some [3; 4]; None]).
  - Lra.lra.
  - unfold flat_norm, norm2. simpl. intro H.
    apply sqrt_eq_0 in H; Lra.lra.
Defined.

End ClipInvariant.

(** ** More on the [PrivacyEngine] *)

Section PrivacyEngineBehaviour.

Import PrivacyEngine.
Local Open Scope R_scope.

Lemma map_Rmult_1 (g : Grad) : map (Rmult 1) g = g.
Proof. induction g as [|x g IH]; simpl; [|rewrite IH, Rmult_1_l]; reflexivity. Qed.

Lemma total_norm_nonneg grads : 0 <= total_norm grads.
Proof. unfold total_norm. apply sqrt_pos. Qed.

Lemma clip_coef_lt_1 max_grad_norm grads :
  clip_coef max_grad_norm grads < 1 <-> max_grad_norm < total_norm grads + epsilon.
Proof.
  unfold clip_coef. pose proof (total_norm_nonneg grads) as HN.
  assert (Hden : 0 < total_norm grads + epsilon) by (unfold epsilon; Lra.lra).
  split; intro H.
  - apply (Rmult_lt_compat_r _ _ _ Hden) in H.
    unfold Rdiv in H. rewrite Rmult_assoc, Rinv_l in H by Lra.lra. Lra.lra.
  - apply (Rmult_lt_reg_r (total_norm grads + epsilon)); [exact Hden|].
    unfold Rdiv. rewrite Rmult_assoc, Rinv_l by Lra.lra. Lra.lra.
Qed.

(** X1.  The gradients are left as they are exactly when their norm is at most
    [max_grad_norm - 1e-6]; above that every gradient is multiplied by the
    one coefficient, which lies strictly between 0 and 1, and the norm
    comes out strictly below [max_grad_norm] and not above what it was. *)
Theorem clip_gradients_cases max_grad_norm grads :
  0 < max_grad_norm ->
  (total_norm grads + epsilon <= max_grad_norm ->
   clip_gradients max_grad_norm grads = grads) /\
  (max_grad_norm < total_norm grads + epsilon ->
   clip_gradients max_grad_norm grads
   = map (option_map (map (Rmult (clip_coef max_grad_norm grads)))) grads /\
   0 < clip_coef max_grad_norm grads < 1 /\
   flat_norm (clip_gradients max_grad_norm grads) < max_grad_norm /\
   flat_norm (clip_gradients max_grad_norm grads) <= flat_norm grads).
Proof.
  intro HM. pose proof (total_norm_nonneg grads) as HN.
  assert (Hden : 0 < total_norm grads + epsilon) by (unfold epsilon; Lra.lra).
  split; intro H.
  - unfold clip_gradients.
    destruct (Rlt_dec (clip_coef max_grad_norm grads) 1) as [Hlt|_]; [|reflexivity].
    apply clip_coef_lt_1 in Hlt. Lra.lra.
  - pose proof (proj2 (clip_coef_lt_1 max_grad_norm grads) H) as Hlt.
    assert (Hpos : 0 < clip_coef max_grad_norm grads)
      by (unfold clip_coef; apply Rdiv_lt_0_compat; assumption).
    assert (Heq : clip_gradients max_grad_norm grads
                  = map (option_map (map (Rmult (clip_coef max_grad_norm grads)))) grads).
    { unfold clip_gradients.
      destruct (Rlt_dec (clip_coef max_grad_norm grads) 1); [reflexivity | contradiction]. }
    split; [exact Heq|]. split; [split; assumption|].
    rewrite Heq, flat_norm_scale by Lra.lra. rewrite <- total_norm_flat.
    set (N := total_norm grads) in *. set (c := clip_coef max_grad_norm grads) in *.
    assert (HcM : c * (N + epsilon) = max_grad_norm)
      by (unfold c, clip_coef; fold N; field; Lra.lra).
    assert (0 < c * epsilon) by (apply Rmult_lt_0_compat; [|unfold epsilon]; Lra.lra).
    split; [Lra.lra|].
    assert (c * N <= 1 * N) by (apply Rmult_le_compat_r; Lra.lra). Lra.lra.
Qed.

Lemma clip_gradients_cases_witness :
  (total_norm [Some [3; 4]; None] + epsilon <= 6 ->
   clip_gradients 6 [Some [3; 4]; None] = [Some [3; 4]; None]) /\
  (6 < total_norm [Some [3; 4]; None] + epsilon ->
   clip_gradients 6 [Some [3; 4]; None]
   = map (option_map (map (Rmult (clip_coef 6 [Some [3; 4]; None]))))
       [Some [3; 4]; None] /\
   0 < clip_coef 6 [Some [3; 4]; None] < 1 /\
   flat_norm (clip_gradients 6 [Some [3; 4]; None]) < 6 /\
   flat_norm (clip_gradients 6 [Some [3; 4]; None]) <= flat_norm [Some [3; 4]; None]).
Proof.
  apply (clip_gradients_cases 6 [Some [3; 4]; None]). Lra.lra.
Defined.

Lemma add_noise_elems_spec std draws g : forall j0,
  List.length (add_noise_elems std draws j0 g) = List.length g /\
  forall j, (j < List.length g)%nat ->
    nth j (add_noise_elems std draws j0 g) 0 = nth j g 0 + std * draws (j0 + j)%nat.
Proof.
  induction g as [|x g IH]; intros j0; simpl; [split; [reflexivity | intros; lia]|].
  destruct (IH (S j0)) as [Hl Hn]. split; [congruence|].
  intros [|j] Hj; [rewrite Nat.add_0_r; reflexivity|].
  rewrite Hn by lia. rewrite Nat.add_succ_r. reflexivity.
Qed.

Lemma add_noise_spec std normal grads : forall i out,
  add_noise std normal i grads = Ok out ->
  List.length out = List.length grads /\
  (forall k, nth_error grads k = Some None -> nth_error out k = Some None) /\
  (forall k g, nth_error grads k = Some (Some g) ->
     exists g', nth_error out k = Some (Some g') /\
                List.length g' = List.length g /\
                forall j, (j < List.length g)%nat ->
                  nth j g' 0 = nth j g 0 + std * normal (i + k)%nat j).
Proof.
  induction grads as [|[g0|] grads IH]; intros i out; simpl.
  - intros [= <-]. split; [reflexivity|].
    split; [intros [|k] H; discriminate | intros [|k] g H; discriminate].
  - destruct (Rlt_dec std 0); [discriminate|].
    destruct (add_noise std normal (S i) grads) as [rest|e] eqn:Hrest; [|discriminate].
    simpl. intros [= <-]. destruct (IH _ _ Hrest) as [Hl [Hnone Hsome]].
    split; [simpl; congruence|]. split.
    + intros [|k] H; simpl in *; [discriminate | auto].
    + intros [|k] g H; simpl in *.
      * injection H as <-. eexists. split; [reflexivity|].
        destruct (add_noise_elems_spec std (normal i) g0 0%nat) as [Hl0 Hn0].
        split; [exact Hl0|]. intros j Hj. rewrite Hn0 by exact Hj.
        rewrite Nat.add_0_r. reflexivity.
      * destruct (Hsome _ _ H) as [g' [H1 [H2 H3]]]. exists g'.
        split; [exact H1|]. split; [exact H2|]. intros j Hj.
        rewrite H3 by exact Hj. rewrite Nat.add_succ_r. reflexivity.
  - destruct (add_noise std normal (S i) grads) as [rest|e] eqn:Hrest; [|discriminate].
    simpl. intros [= <-]. destruct (IH _ _ Hrest) as [Hl [Hnone Hsome]].
    split; [simpl; congruence|]. split.
    + intros [|k] H; simpl in *; [reflexivity | auto].
    + intros [|k] g H; simpl in *; [discriminate|].
      destruct (Hsome _ _ H) as [g' [H1 [H2 H3]]]. exists g'.
      split; [exact H1|]. split; [exact H2|]. intros j Hj.
      rewrite H3 by exact Hj. rewrite Nat.add_succ_r. reflexivity.
Qed.

Lemma clip_gradients_as_scale max_grad_norm grads :
  let c := clip_coef max_grad_norm grads in
  clip_gradients max_grad_norm grads
  = map (option_map (map (Rmult (if Rlt_dec c 1 then c else 1)))) grads.
Proof.
  cbv zeta. unfold clip_gradients.
  destruct (Rlt_dec (clip_coef max_grad_norm grads) 1) as [|Hge]; [reflexivity|].
  clear Hge. induction grads as [|[g|] grads IH]; simpl.
  - reflexivity.
  - rewrite <- IH, map_Rmult_1. reflexivity.
  - rewrite <- IH. reflexivity.
Qed.

(** X2.  What [add_noise_to_gradients] never does: whenever it returns,
    there is one entry per parameter as before, a parameter without
    gradient is still without, and a gradient is a gradient of the same
    shape. *)
Theorem add_noise_to_gradients_structure noise_multiplier max_grad_norm normal grads out :
  add_noise_to_gradients noise_multiplier max_grad_norm normal grads = Ok out ->
  List.length out = List.length grads /\
  (forall k, nth_error grads k = Some None -> nth_error out k = Some None) /\
  (forall k g, nth_error grads k = Some (Some g) ->
     exists g', nth_error out k = Some (Some g') /\ List.length g' = List.length g).
Proof.
  unfold add_noise_to_gradients. rewrite clip_gradients_as_scale. cbv zeta.
  set (factor := if Rlt_dec (clip_coef max_grad_norm grads) 1
                 then clip_coef max_grad_norm grads else 1).
  intro Hrun. destruct (add_noise_spec _ _ _ _ _ Hrun) as [Hl [Hnone Hsome]].
  rewrite length_map in Hl. split; [exact Hl|]. split.
  - intros k Hk. apply Hnone. rewrite nth_error_map.
    unfold Grad in *. rewrite Hk. reflexivity.
  - intros k g Hk.
    destruct (Hsome k (map (Rmult factor) g)) as [g' [H1 [H2 _]]].
    { rewrite nth_error_map. unfold Grad in *. rewrite Hk. reflexivity. }
    rewrite length_map in H2. exists g'. split; [exact H1 | exact H2].
Qed.

Lemma add_noise_to_gradients_structure_witness :
  let grads := [Some [3; 4]; None] in
  let out := clip_gradients 1 grads in
  List.length out = List.length grads /\
  (forall k, nth_error grads k = Some None -> nth_error out k = Some None) /\
  (forall k g, nth_error grads k = Some (Some g) ->
     exists g', nth_error out k = Some (Some g') /\ List.length g' = List.length g).
Proof.
  refine (add_noise_to_gradients_structure 0 1 (fun _ _ => 0) [Some [3; 4]; None]
            (clip_gradients 1 [Some [3; 4]; None]) _).
  unfold add_noise_to_gradients. rewrite Rmult_0_l. apply add_noise_zero.
Defined.

Lemma add_noise_returns std normal grads : forall i,
  0 <= std \/ Forall (fun p => p = None) grads ->
  exists out, add_noise std normal i grads = Ok out.
Proof.
  induction grads as [|[g|] grads IH]; intros i H; simpl.
  - eexists; reflexivity.
  - assert (Hstd : 0 <= std).
    { destruct H as [H|H]; [exact H | inversion H; discriminate]. }
    destruct (Rlt_dec std 0); [Lra.lra|].
    destruct (IH (S i) (or_introl Hstd)) as [rest ->]. eexists; reflexivity.
  - destruct (IH (S i)) as [rest ->]; [|eexists; reflexivity].
    destruct H as [H|H]; [left; exact H | right; inversion H; assumption].
Qed.

Lemma add_noise_raises std normal grads : forall i,
  std < 0 -> ~ Forall (fun p => p = None) grads ->
  add_noise std normal i grads = Raise RuntimeError.
Proof.
  induction grads as [|[g|] grads IH]; intros i Hstd Hsome; simpl.
  - elim Hsome. constructor.
  - destruct (Rlt_dec std 0); [reflexivity | contradiction].
  - rewrite IH; [reflexivity | exact Hstd|].
    intro H. apply Hsome. constructor; [reflexivity | exact H].
Qed.

Lemma add_noise_no_grad std normal grads : forall i,
  Forall (fun p => p = None) grads -> add_noise std normal i grads = Ok grads.
Proof.
  induction grads as [|p grads IH]; intros i H; [reflexivity|].
  inversion H as [|? ? -> Hrest]; subst. simpl. rewrite IH by exact Hrest. reflexivity.
Qed.

Lemma scale_no_grad s (grads : list (option Grad)) :
  Forall (fun p => p = None) grads ->
  map (option_map (map (Rmult s))) grads = grads.
Proof.
  induction 1 as [|p grads -> _ IH]; simpl; [|rewrite IH]; reflexivity.
Qed.

Lemma scale_keeps_None s (grads : list (option Grad)) :
  Forall (fun p => p = None) (map (option_map (map (Rmult s))) grads) <->
  Forall (fun p => p = None) grads.
Proof.
  induction grads as [|[g|] grads IH]; simpl.
  - tauto.
  - split; intro H; inversion H; discriminate.
  - split; intro H; inversion H; constructor; tauto.
Qed.

Lemma clip_gradients_no_grad max_grad_norm grads :
  Forall (fun p => p = None) grads -> clip_gradients max_grad_norm grads = grads.
Proof.
  intro H. rewrite clip_gradients_as_scale. cbv zeta. apply scale_no_grad. exact H.
Qed.

Lemma clip_gradients_keeps_None max_grad_norm grads :
  Forall (fun p => p = None) (clip_gradients max_grad_norm grads) <->
  Forall (fun p => p = None) grads.
Proof.
  rewrite clip_gradients_as_scale. cbv zeta. apply scale_keeps_None.
Qed.

(** X3.  [add_noise_to_gradients] returns when the standard deviation
    [noise_multiplier * max_grad_norm] is not negative or no parameter has
    a gradient, and in the latter case it returns its input; with a
    negative standard deviation and some gradient it raises the
    [RuntimeError] of [torch.normal]. *)
Theorem add_noise_to_gradients_returns noise_multiplier max_grad_norm normal grads :
  (0 <= noise_multiplier * max_grad_norm \/ Forall (fun p => p = None) grads ->
   exists out,
     add_noise_to_gradients noise_multiplier max_grad_norm normal grads = Ok out) /\
  (Forall (fun p => p = None) grads ->
   add_noise_to_gradients noise_multiplier max_grad_norm normal grads = Ok grads) /\
  (noise_multiplier * max_grad_norm < 0 -> ~ Forall (fun p => p = None) grads ->
   add_noise_to_gradients noise_multiplier max_grad_norm normal grads
   = Raise RuntimeError).
Proof.
  unfold add_noise_to_gradients. cbv zeta. split; [|split].
  - intros [H|H]; apply add_noise_returns; [left; exact H|].
    right. apply clip_gradients_keeps_None. exact H.
  - intro H. rewrite clip_gradients_no_grad by exact H.
    apply add_noise_no_grad. exact H.
  - intros Hstd Hsome. apply add_noise_raises; [exact Hstd|].
    intro H. apply Hsome. apply clip_gradients_keeps_None in H. exact H.
Qed.

Lemma add_noise_to_gradients_returns_witness :
  add_noise_to_gradients (-1) 1 (fun _ _ => 0) [Some [3; 4]; None] = Raise RuntimeError.
Proof.
  apply (proj2 (proj2 (add_noise_to_gradients_returns (-1) 1 (fun _ _ => 0)
                         [Some [3; 4]; None]))).
  - Lra.lra.
  - intro H. inversion H. discriminate.
Defined.

End PrivacyEngineBehaviour.

(** ** More on [aggregate_updates] *)

Lemma accumulate_inv aggregated w upd aggregated' :
  accumulate aggregated w upd = Ok aggregated' -> Forall (fits upd) aggregated.
Proof.
  revert aggregated'. induction aggregated as [|[key a] rest IH]; intros agg' H;
    [constructor|].
  simpl in H. unfold dict_get in H.
  destruct (lookup key upd) as [d|] eqn:Hd; [|discriminate]. simpl in H.
  unfold tensor_iadd in H.
  destruct (Nat.eqb_spec (List.length a) (List.length (tensor_scale w d))) as [Hl|];
    [|discriminate].
  simpl in H. destruct (accumulate rest w upd) as [rest'|e] eqn:Hrest; [|discriminate].
  constructor; [|eapply IH; reflexivity].
  exists d. simpl. rewrite tensor_scale_length in Hl. auto.
Qed.

Lemma Forall2_grows_fits_rev upd f aggregated aggregated' :
  Forall2 (grows_by f) aggregated aggregated' ->
  Forall (fits upd) aggregated' -> Forall (fits upd) aggregated.
Proof.
  induction 1 as [|kv kv' l l' [Hk [Hl _]] _ IH]; intro Hf; [constructor|].
  inversion Hf as [|? ? [d [Hd Hlen]] Hrest]; subst.
  constructor; [|auto].
  exists d. rewrite <- Hk, <- Hl. auto.
Qed.

Lemma weighted_averaging_inv client_updates total : forall aggregated aggregated',
  weighted_averaging client_updates total aggregated = Ok aggregated' ->
  (client_updates = [] \/ total <> 0%Z) /\
  Forall (fun u => Forall (fits (updates u)) aggregated) client_updates.
Proof.
  induction client_updates as [|u rest IH]; intros agg agg' H; [auto|].
  simpl in H. unfold py_truediv in H.
  destruct (Z.eqb_spec total 0) as [|Hne]; [discriminate|]. simpl in H.
  destruct (accumulate agg _ (updates u)) as [agg1|e] eqn:Hacc; [|discriminate].
  simpl in H. pose proof (accumulate_inv _ _ _ _ Hacc) as Hfit.
  destruct (accumulate_ok _ (inject_Z (num_samples u) / inject_Z total) _ Hfit)
    as [agg1' [Hacc' Hrel]].
  rewrite Hacc in Hacc'. injection Hacc' as <-.
  destruct (IH _ _ H) as [_ Hrest]. split; [right; exact Hne|].
  constructor; [exact Hfit|].
  eapply Forall_impl; [|exact Hrest]. intros u' Hu'.
  eapply Forall2_grows_fits_rev; eauto.
Qed.

Lemma fits_dict_set key v g global_state kv :
  lookup key global_state = Some g -> List.length v = List.length g ->
  fits (dict_set key v global_state) kv <-> fits global_state kv.
Proof.
  intros Hg Hlen. pose proof (lookup_In_keys _ _ _ Hg) as Hin.
  unfold fits. rewrite lookup_dict_set by exact Hin.
  destruct (String.eqb_spec (fst kv) key) as [->|]; [|tauto].
  split; intros [d [Hd Hl]].
  - injection Hd as <-. exists g. split; [exact Hg | lia].
  - exists v. split; [reflexivity|]. rewrite Hg in Hd. injection Hd as <-. lia.
Qed.

(** The loop that applies the aggregate returns exactly when every entry
    of the aggregate has a tensor of its shape in the global state; it then
    keeps the keys and the shapes, and the tensors of the keys it does not
    visit. *)
Lemma apply_updates_spec aggregated : forall global_state,
  (Forall (fits global_state) aggregated <->
   exists global_state', apply_updates aggregated global_state = Ok global_state') /\
  forall global_state',
    apply_updates aggregated global_state = Ok global_state' ->
    keys global_state' = keys global_state /\
    (forall k g, lookup k global_state = Some g ->
       exists g', lookup k global_state' = Some g' /\
                  List.length g' = List.length g) /\
    (forall k, ~ In k (keys aggregated) ->
       lookup k global_state' = lookup k global_state).
Proof.
  induction aggregated as [|[key a] rest IH]; intros gs.
  - split; [split; [eexists; reflexivity | constructor]|].
    simpl. intros gs' [= <-]. split; [reflexivity|]. split; [eauto | reflexivity].
  - simpl. unfold dict_get.
    destruct (lookup key gs) as [g|] eqn:Hg.
    2:{ split; [split|]; [| |discriminate].
        - intro H. inversion H as [|? ? [d [Hd _]] _]; subst. simpl in Hd. congruence.
        - intros [gs' H]. discriminate. }
    simpl. unfold tensor_iadd.
    destruct (Nat.eqb_spec (List.length g) (List.length a)) as [Hl|Hl].
    2:{ split; [split|]; [| |discriminate].
        - intro H. inversion H as [|? ? [d [Hd Hlen]] _]; subst. simpl in Hd, Hlen.
          rewrite Hg in Hd. injection Hd as <-. congruence.
        - intros [gs' H]. discriminate. }
    simpl. pose proof (lookup_In_keys _ _ _ Hg) as Hin.
    assert (Hlen1 : List.length (tensor_add g a) = List.length g)
      by (apply tensor_add_length; exact Hl).
    destruct (IH (dict_set key (tensor_add g a) gs)) as [Hiff Hinv].
    split.
    + rewrite <- Hiff. split; intro H.
      * inversion H; subst. eapply Forall_impl; [|eassumption].
        intros kv Hkv. apply (fits_dict_set key _ g); assumption.
      * constructor; [exists g; simpl; auto|].
        eapply Forall_impl; [|exact H].
        intros kv Hkv. apply (fits_dict_set key (tensor_add g a) g gs); assumption.
    + intros gs' Happ. destruct (Hinv _ Happ) as [Hk [Hshape Hother]].
      split; [rewrite Hk; apply keys_dict_set; exact Hin|]. split.
      * intros k g0 Hk0.
        destruct (String.eqb_spec k key) as [->|Hne].
        -- rewrite Hg in Hk0. injection Hk0 as <-.
           destruct (Hshape key (tensor_add g a)) as [g' [H1 H2]].
           { rewrite lookup_dict_set by exact Hin. rewrite String.eqb_refl. reflexivity. }
           exists g'. split; [exact H1 | lia].
        -- apply Hshape. rewrite lookup_dict_set by exact Hin.
           destruct (String.eqb_spec k key); [contradiction | exact Hk0].
      * intros k Hk0. rewrite Hother by (intro Hr; apply Hk0; right; exact Hr).
        rewrite lookup_dict_set by exact Hin.
        destruct (String.eqb_spec k key) as [->|]; [|reflexivity].
        elim Hk0. left. reflexivity.
Qed.

Lemma aggregate_updates_inv global_state first rest global_state' :
  aggregate_updates global_state (first :: rest) = Ok global_state' ->
  exists aggregated,
    weighted_averaging (first :: rest) (total_samples_of (first :: rest))
      (map (fun kv => (fst kv, zeros_like (snd kv))) (updates first)) = Ok aggregated /\
    apply_updates aggregated global_state = Ok global_state' /\
    keys aggregated = keys (updates first).
Proof.
  unfold aggregate_updates. intro H.
  destruct (weighted_averaging _ _ _) as [agg|e] eqn:Hwa; [|discriminate].
  exists agg. split; [reflexivity|]. split; [exact H|].
  destruct (weighted_averaging_inv _ _ _ _ Hwa) as [[Hnil|Htot] Hfit]; [discriminate|].
  destruct (weighted_averaging_ok _ _ _ Htot Hfit) as [agg' [Hwa' Hrel]].
  rewrite Hwa in Hwa'. injection Hwa' as <-.
  rewrite (Forall2_grows_keys _ _ _ Hrel). apply keys_zeroed.
Qed.

Lemma aggregate_updates_schema global_state client_updates global_state' :
  aggregate_updates global_state client_updates = Ok global_state' ->
  keys global_state' = keys global_state /\
  (forall k g, lookup k global_state = Some g ->
     exists g', lookup k global_state' = Some g' /\ List.length g' = List.length g) /\
  (forall first rest, client_updates = first :: rest ->
     forall k, ~ In k (keys (updates first)) ->
       lookup k global_state' = lookup k global_state).
Proof.
  destruct client_updates as [|first rest].
  - simpl. intros [= <-]. split; [reflexivity|]. split; [eauto|]. discriminate.
  - intro H. destruct (aggregate_updates_inv _ _ _ _ H) as [agg [_ [Happ Hk]]].
    destruct (proj2 (apply_updates_spec agg global_state) _ Happ) as [H1 [H2 H3]].
    split; [exact H1|]. split; [exact H2|].
    intros f r [= <- <-] k Hout. apply H3. rewrite Hk. exact Hout.
Qed.

(** X4.  Whenever [aggregate_updates] returns, the global state has the keys it
    had, in the same order, every tensor has the shape it had, and a key
    that the first update's delta does not have keeps its tensor. *)
Theorem aggregate_updates_keeps_schema global_state client_updates global_state' :
  aggregate_updates global_state client_updates = Ok global_state' ->
  keys global_state' = keys global_state /\
  (forall k g, lookup k global_state = Some g ->
     exists g', lookup k global_state' = Some g' /\ List.length g' = List.length g) /\
  (forall first rest, client_updates = first :: rest ->
     forall k, ~ In k (keys (updates first)) ->
       lookup k global_state' = lookup k global_state).
Proof. apply aggregate_updates_schema. Qed.

Lemma aggregate_updates_keeps_schema_witness :
  keys (global_model (server (snd Scenario.one_failure_round)))
  = keys (global_model (server Scenario.one_failure)) /\
  (forall k g, lookup k (global_model (server Scenario.one_failure)) = Some g ->
     exists g', lookup k (global_model (server (snd Scenario.one_failure_round))) = Some g'
                /\ List.length g' = List.length g) /\
  (forall first rest,
     trained_updates (global_model (server Scenario.one_failure))
       (rng (snd Scenario.one_failure_selection)) (fst Scenario.one_failure_selection)
     = first :: rest ->
     forall k, ~ In k (keys (updates first)) ->
       lookup k (global_model (server (snd Scenario.one_failure_round)))
       = lookup k (global_model (server Scenario.one_failure))).
Proof.
  apply (aggregate_updates_keeps_schema
           (global_model (server Scenario.one_failure))
           (trained_updates (global_model (server Scenario.one_failure))
              (rng (snd Scenario.one_failure_selection))
              (fst Scenario.one_failure_selection))).
  vm_compute. reflexivity.
Defined.

Lemma accumulate_no_zero_division aggregated weight upd :
  accumulate aggregated weight upd <> Raise ZeroDivisionError.
Proof.
  induction aggregated as [|[key a] rest IH]; simpl; [discriminate|].
  unfold dict_get. destruct (lookup key upd) as [d|]; [|discriminate]. simpl.
  unfold tensor_iadd. destruct (Nat.eqb _ _); [|discriminate]. simpl.
  destruct (accumulate rest weight upd) as [rest'|e]; [discriminate|].
  simpl. intros [= ->]. apply IH. reflexivity.
Qed.

Lemma weighted_averaging_no_zero_division client_updates total : forall aggregated,
  total <> 0%Z ->
  weighted_averaging client_updates total aggregated <> Raise ZeroDivisionError.
Proof.
  induction client_updates as [|u rest IH]; intros aggregated Htot; simpl; [discriminate|].
  unfold py_truediv. destruct (Z.eqb_spec total 0); [contradiction|]. simpl.
  destruct (accumulate aggregated _ (updates u)) as [agg'|e] eqn:E.
  - simpl. apply IH. exact Htot.
  - simpl. intros [= ->]. exact (accumulate_no_zero_division _ _ _ E).
Qed.

Lemma apply_updates_no_zero_division aggregated : forall global_state,
  apply_updates aggregated global_state <> Raise ZeroDivisionError.
Proof.
  induction aggregated as [|[key a] rest IH]; intro gs; simpl; [discriminate|].
  unfold dict_get. destruct (lookup key gs) as [g|]; [|discriminate]. simpl.
  unfold tensor_iadd. destruct (Nat.eqb _ _); [|discriminate]. simpl. apply IH.
Qed.

(** X5.  [aggregate_updates] raises [ZeroDivisionError] exactly when the
    list of updates is not empty and the sample counts sum to zero (all
    zero, or cancelling): no other failure of the aggregation is a
    division by zero, and a zero total never goes unnoticed. *)
Theorem aggregate_updates_zero_division_iff global_state client_updates :
  aggregate_updates global_state client_updates = Raise ZeroDivisionError <->
  client_updates <> [] /\ total_samples_of client_updates = 0%Z.
Proof.
  split.
  - intro H. destruct client_updates as [|first rest]; [discriminate|].
    split; [discriminate|].
    destruct (Z.eq_dec (total_samples_of (first :: rest)) 0) as [|Hne]; [assumption|].
    exfalso. unfold aggregate_updates in H. cbv zeta in H.
    destruct (weighted_averaging (first :: rest) _ _) as [agg|e] eqn:E.
    + simpl in H. exact (apply_updates_no_zero_division _ _ H).
    + simpl in H. injection H as ->.
      exact (weighted_averaging_no_zero_division _ _ _ Hne E).
  - intros [Hne Htot]. apply aggregate_updates_zero_total; assumption.
Qed.

(** The elements of the aggregated state, under a shared schema. *)
Lemma aggregate_updates_elements global_state K client_updates :
  client_updates <> [] ->
  (0 < total_samples_of client_updates)%Z ->
  Forall (fun u => follows_schema global_state K (updates u)) client_updates ->
  exists global_state',
    aggregate_updates global_state client_updates = Ok global_state' /\
    keys global_state' = keys global_state /\
    forall key g, lookup key global_state = Some g ->
      exists g',
        lookup key global_state' = Some g' /\
        List.length g' = List.length g /\
        (~ In key K -> g' = g) /\
        forall j, (j < List.length g)%nat ->
          nth j g' 0 ==
          nth j g 0 + weighted_sum (total_samples_of client_updates) client_updates key j.
Proof.
  intros Hne Htot Hschema.
  destruct client_updates as [|first rest]; [congruence|]. clear Hne.
  set (ups := first :: rest) in *.
  set (agg0 := map (fun kv => (fst kv, zeros_like (snd kv))) (updates first)).
  assert (Hfirst : follows_schema global_state K (updates first))
    by (inversion Hschema; assumption).
  destruct Hfirst as [Hnd1 [Hkeys1 Hshape1]].
  assert (Hfit0 : Forall (fits global_state) agg0).
  { apply Forall_forall. intros kv Hin. apply in_map_iff in Hin.
    destruct Hin as [[k t] [<- Hin]]. simpl.
    pose proof (In_lookup_NoDup _ _ _ Hnd1 Hin) as Hlk.
    destruct (Hshape1 _ _ Hlk) as [g [Hg Hlen]].
    exists g. simpl. rewrite zeros_like_length. split; [assumption | lia]. }
  assert (Hfits : Forall (fun u => Forall (fits (updates u)) agg0) ups).
  { eapply Forall_impl; [|exact Hschema]. intros u [Hnd [Hkeys Hshape]].
    apply Forall_forall. intros kv Hin. apply in_map_iff in Hin.
    destruct Hin as [[k t] [<- Hin]]. simpl.
    pose proof (In_lookup_NoDup _ _ _ Hnd1 Hin) as Hlk.
    destruct (Hshape1 _ _ Hlk) as [g [Hg Hlen]].
    destruct (In_keys_lookup k (updates u)) as [d Hd].
    { apply Hkeys, Hkeys1. eapply lookup_In_keys; eauto. }
    destruct (Hshape _ _ Hd) as [g' [Hg' Hlen']].
    exists d. simpl. rewrite zeros_like_length.
    split; [assumption|]. congruence. }
  destruct (weighted_averaging_ok ups (total_samples_of ups) agg0) as [agg [Hwa Hrel]];
    [lia | exact Hfits |].
  pose proof (Forall2_grows_keys _ _ _ Hrel) as Hkagg.
  unfold agg0 in Hkagg. rewrite keys_zeroed in Hkagg.
  destruct (apply_updates_ok agg global_state) as [gs' [Happ [Hk Hlk]]].
  { rewrite Hkagg. exact Hnd1. }
  { eapply Forall2_grows_fits; eauto. }
  exists gs'. split; [|split; [exact Hk|]].
  - unfold aggregate_updates, ups. fold ups. fold agg0. rewrite Hwa. exact Happ.
  - intros key g Hg.
    destruct (lookup key (updates first)) as [t|] eqn:Ht.
    + assert (Hz : lookup key agg0 = Some (zeros_like t)).
      { unfold agg0. rewrite lookup_zeroed, Ht. reflexivity. }
      destruct (Forall2_grows_lookup _ _ _ _ _ Hrel Hz) as [a [Ha [_ [Hlen Hval]]]].
      cbn [fst snd] in Hlen, Hval. rewrite zeros_like_length in Hlen, Hval.
      destruct (Hshape1 _ _ Ht) as [g0 [Hg0 Htg]].
      assert (g0 = g) by congruence. subst g0.
      exists (tensor_add g a). split; [|split; [|split]].
      * rewrite Hlk, Ha. unfold get. rewrite Hg. reflexivity.
      * apply tensor_add_length. lia.
      * intro Hout. elim Hout. apply Hkeys1. eapply lookup_In_keys; eauto.
      * intros j Hj. rewrite nth_tensor_add by lia.
        rewrite Hval by lia. rewrite nth_zeros_like. ring.
    + assert (Hout : ~ In key K).
      { intro Hin. apply Hkeys1, In_keys_lookup in Hin. destruct Hin; congruence. }
      assert (Hnone : lookup key agg = None).
      { apply lookup_not_In. rewrite Hkagg. intro Hin. apply Hout, Hkeys1, Hin. }
      exists g. split; [|split; [|split]].
      * rewrite Hlk, Hnone. exact Hg.
      * reflexivity.
      * reflexivity.
      * intros j _. rewrite weighted_sum_absent; [ring|].
        eapply Forall_impl; [|exact Hschema]. intros u [_ [Hku _]].
        apply lookup_not_In. intro Hin. apply Hout, Hku, Hin.
Qed.

Lemma fold_left_Zadd l : forall a, fold_left Z.add l a = (a + fold_left Z.add l 0)%Z.
Proof.
  induction l as [|x l IH]; intros a; simpl; [lia|].
  rewrite (IH (a + x)%Z), (IH x). lia.
Qed.

Lemma total_samples_cons u l :
  total_samples_of (u :: l) = (num_samples u + total_samples_of l)%Z.
Proof. unfold total_samples_of. simpl. apply fold_left_Zadd. Qed.

Lemma total_samples_app l1 l2 :
  total_samples_of (l1 ++ l2) = (total_samples_of l1 + total_samples_of l2)%Z.
Proof.
  induction l1 as [|u l1 IH]; simpl; [reflexivity|].
  rewrite !total_samples_cons, IH. lia.
Qed.

Lemma weighted_sum_app total l1 l2 key j :
  weighted_sum total (l1 ++ l2) key j
  == weighted_sum total l1 key j + weighted_sum total l2 key j.
Proof.
  induction l1 as [|u l1 IH]; simpl; [ring|]. rewrite IH. ring.
Qed.

Lemma nth_Forall2_Qeq (t1 t2 : Tensor) :
  List.length t1 = List.length t2 ->
  (forall j, (j < List.length t1)%nat -> nth j t1 0 == nth j t2 0) ->
  Forall2 Qeq t1 t2.
Proof.
  revert t2. induction t1 as [|x t1 IH]; intros [|y t2] Hl Hn; simpl in Hl;
    try discriminate; constructor.
  - exact (Hn 0%nat ltac:(simpl; lia)).
  - apply IH; [lia|]. intros j Hj. exact (Hn (S j) ltac:(simpl; lia)).
Qed.

Lemma follows_schema_w x y :
  follows_schema [("w"%string, [x])] ["w"%string] [("w"%string, [y])].
Proof.
  split; [repeat constructor; simpl; tauto|]. split; [tauto|].
  intros k t. simpl. destruct (String.eqb k "w"); [|discriminate].
  intros [= <-]. exists [x]. split; reflexivity.
Qed.

(** Two lists of updates with the same total and the same weighted sums
    aggregate to the same state. *)
Lemma aggregate_updates_equiv global_state K l l' :
  l <> [] -> l' <> [] ->
  total_samples_of l' = total_samples_of l ->
  (0 < total_samples_of l)%Z ->
  Forall (fun u => follows_schema global_state K (updates u)) l ->
  Forall (fun u => follows_schema global_state K (updates u)) l' ->
  (forall key j, weighted_sum (total_samples_of l) l key j
                 == weighted_sum (total_samples_of l) l' key j) ->
  exists gs1 gs2,
    aggregate_updates global_state l = Ok gs1 /\
    aggregate_updates global_state l' = Ok gs2 /\
    dict_equiv gs1 gs2.
Proof.
  intros Hne Hne' Htot' Htot Hs Hs' Hws.
  destruct (aggregate_updates_elements global_state K l Hne Htot Hs)
    as [gs1 [H1 [Hk1 He1]]].
  destruct (aggregate_updates_elements global_state K l' Hne' ltac:(lia) Hs')
    as [gs2 [H2 [Hk2 He2]]].
  exists gs1, gs2. split; [exact H1|]. split; [exact H2|].
  split; [congruence|]. intros k t1 Ht1.
  destruct (In_keys_lookup k global_state) as [g Hg].
  { rewrite <- Hk1. eapply lookup_In_keys; eauto. }
  destruct (He1 k g Hg) as [g1 [Hg1 [Hl1 [_ Hv1]]]].
  destruct (He2 k g Hg) as [g2 [Hg2 [Hl2 [_ Hv2]]]].
  rewrite Ht1 in Hg1. injection Hg1 as <-.
  exists g2. split; [exact Hg2|].
  apply nth_Forall2_Qeq; [lia|]. intros j Hj.
  rewrite Hv1, Hv2 by lia. rewrite Htot', Hws. reflexivity.
Qed.

(** X7.  An update that reports zero samples has weight zero: the aggregated
    state is the one obtained without it. *)
Theorem aggregate_updates_zero_weight global_state K l1 u l2 :
  num_samples u = 0%Z ->
  (0 < total_samples_of (l1 ++ u :: l2))%Z ->
  Forall (fun u => follows_schema global_state K (updates u)) (l1 ++ u :: l2) ->
  exists gs1 gs2,
    aggregate_updates global_state (l1 ++ u :: l2) = Ok gs1 /\
    aggregate_updates global_state (l1 ++ l2) = Ok gs2 /\
    dict_equiv gs1 gs2.
Proof.
  intros Hu Htot Hs.
  assert (Htot' : total_samples_of (l1 ++ l2) = total_samples_of (l1 ++ u :: l2)).
  { rewrite !total_samples_app, total_samples_cons. lia. }
  apply (aggregate_updates_equiv global_state K); auto.
  - destruct l1; discriminate.
  - intro E. rewrite E in Htot'. unfold total_samples_of in Htot' at 1.
    simpl in Htot'. lia.
  - apply Forall_app in Hs. destruct Hs as [H1 H2]. inversion H2; subst.
    apply Forall_app. auto.
  - intros key j. rewrite !weighted_sum_app. cbn [weighted_sum fold_right].
    fold (weighted_sum (total_samples_of (l1 ++ u :: l2)) l2 key j).
    rewrite Hu. unfold Qdiv. change (inject_Z 0) with 0. ring.
Qed.

Lemma aggregate_updates_zero_weight_witness :
  exists gs1 gs2,
    aggregate_updates [("w"%string, [0])] ([update_a] ++ update_empty :: [update_b])
    = Ok gs1 /\
    aggregate_updates [("w"%string, [0])] ([update_a] ++ [update_b]) = Ok gs2 /\
    dict_equiv gs1 gs2.
Proof.
  apply (aggregate_updates_zero_weight [("w"%string, [0])] ["w"%string]
           [update_a] update_empty [update_b]).
  - reflexivity.
  - reflexivity.
  - repeat (constructor; [apply follows_schema_w|]). constructor.
Defined.

(** ** More on [select_clients] *)




Lemma take_positions_seq {A} (a : list A) :
  take_positions a (seq 0 (List.length a)) = a.
Proof.
  assert (H : forall pre, take_positions (pre ++ a)
                            (seq (List.length pre) (List.length a)) = a).
  { induction a as [|x a IH]; intro pre; [reflexivity|].
    simpl. unfold take_positions. simpl.
    rewrite nth_error_app2 by lia. rewrite Nat.sub_diag. simpl. f_equal.
    specialize (IH (pre ++ [x])). rewrite length_app, Nat.add_1_r, <- app_assoc in IH.
    exact IH. }
  exact (H []).
Qed.

(** X10.  With the default fraction of 1 the selection is the whole registry in
    a random order. *)
Theorem select_clients_default_all w selected w' :
  select_clients 1 w = Ok (selected, w') ->
  Permutation selected (clients (server w)).
Proof.
  intro H. pose proof (select_clients_all _ _ _ H) as [Hlen Hpos].
  rewrite select_clients_unfold, num_selected_default in H.
  set (pool := clients (server w)) in *.
  set (size := Z.to_nat (Z.max 1 (Z.of_nat (List.length pool)))) in *.
  assert (Hsize : (1 <= size <= List.length pool)%nat).
  { split; [unfold size; lia|].
    unfold random_choice in H.
    destruct (Nat.eqb_spec (List.length pool) 0) as [E|_].
    - destruct (Nat.eqb_spec size 0); [unfold size in *; lia|].
      discriminate.
    - simpl in H. destruct (Nat.ltb_spec (List.length pool) size); [discriminate | lia]. }
  destruct (random_choice_spec pool size w Hsize) as [idx [Hrun [Hl [Hnd Hlt]]]].
  rewrite Hrun in H. injection H as <- _.
  pose proof (Forall2_length (take_positions_spec pool idx Hlt)) as Hl2.
  assert (Hperm : Permutation idx (seq 0 (List.length pool))).
  { apply NoDup_Permutation_bis; [exact Hnd | rewrite length_seq; lia|].
    intros i Hi. rewrite Forall_forall in Hlt. apply in_seq. specialize (Hlt i Hi). lia. }
  rewrite <- (take_positions_seq pool) at 2.
  unfold take_positions. apply Permutation_flat_map. exact Hperm.
Qed.

Lemma select_clients_default_all_witness :
  Permutation (fst Scenario.one_failure_selection)
    (clients (server Scenario.one_failure)).
Proof.
  apply (select_clients_default_all Scenario.one_failure
           (fst Scenario.one_failure_selection) (snd Scenario.one_failure_selection)).
  vm_compute. reflexivity.
Defined.

(** ** More on [federated_round] and [train] *)

Lemma select_clients_default_ok w :
  (1 <= List.length (clients (server w)))%nat ->
  exists selected g,
    select_clients 1 w
    = Ok (selected, {| server := server w; store := store w; rng := g |}) /\
    List.length selected = List.length (clients (server w)) /\
    incl selected (clients (server w)).
Proof.
  intro HP.
  destruct (random_choice_spec (clients (server w))
              (Z.to_nat (Z.max 1 (Z.of_nat (List.length (clients (server w)))))) w)
    as [idx [Hrun [Hlen [Hnd Hlt]]]]; [lia|].
  pose proof (take_positions_spec _ idx Hlt) as Hpos.
  assert (Hsel : select_clients 1 w
                 = Ok (take_positions (clients (server w)) idx,
                       {| server := server w; store := store w;
                          rng := rng_skip
                                   (Z.to_nat (Z.max 1 (Z.of_nat
                                                (List.length (clients (server w))))))
                                   (rng w) |}))
    by (rewrite select_clients_unfold, num_selected_default; exact Hrun).
  eexists. eexists. split; [exact Hsel|]. split.
  - exact (proj1 (select_clients_all _ _ _ Hsel)).
  - intros c Hc. destruct (positions_In _ _ _ _ Hpos Hc) as [i [_ Hi]].
    eapply nth_error_In; eauto.
Qed.

Lemma select_clients_inv_incl fraction w selected w1 :
  select_clients fraction w = Ok (selected, w1) ->
  incl selected (clients (server w)).
Proof.
  intro H. destruct (select_clients_inv _ _ _ _ H) as [idx [-> _]].
  intros c Hc. unfold take_positions in Hc. apply in_flat_map in Hc.
  destruct Hc as [i [_ Hi]].
  destruct (nth_error (clients (server w)) i) as [x|] eqn:Hx; [|contradiction].
  destruct Hi as [<-|[]]. eapply nth_error_In; eauto.
Qed.

Lemma select_clients_empty w :
  clients (server w) = [] ->
  exists msg, select_clients 1 w = Raise (ValueError msg).
Proof.
  intro H. rewrite select_clients_unfold, num_selected_default, H.
  eexists. vm_compute. reflexivity.
Qed.

(** X11.  On an empty registry a round does not end as INSUFFICIENT_CLIENTS: the
    selection raises [ValueError], and so does [train] as soon as it has a
    round to run. *)
Theorem federated_round_empty_registry w :
  clients (server w) = [] ->
  (exists msg, federated_round w = Raise (ValueError msg)) /\
  ((1 <= num_rounds (config (server w)))%Z ->
   exists msg, train w = Raise (ValueError msg)).
Proof.
  intro H. destruct (select_clients_empty w H) as [msg Hsel].
  assert (Hround : federated_round w = Raise (ValueError msg))
    by (rewrite federated_round_unfold, Hsel; reflexivity).
  split; [eauto|]. intro Hn. exists msg.
  unfold train. unfold bind at 1. unfold get_server.
  destruct (Z.to_nat (num_rounds (config (server w)))) as [|n] eqn:E; [lia|].
  unfold bind at 1. change (seq 0 (S n)) with (0%nat :: seq 1 n).
  rewrite train_loop_cons, Hround. reflexivity.
Qed.

Lemma federated_round_empty_registry_witness :
  (exists msg, federated_round (Scenario.world_of Scenario.default_config [])
               = Raise (ValueError msg)) /\
  ((1 <= num_rounds (config (server (Scenario.world_of Scenario.default_config []))))%Z ->
   exists msg, train (Scenario.world_of Scenario.default_config [])
               = Raise (ValueError msg)).
Proof.
  apply (federated_round_empty_registry (Scenario.world_of Scenario.default_config [])).
  reflexivity.
Defined.

(** A property of the server that every round keeps, and a property of the
    record that every round creates, hold of the server after [train] and
    of every record of its history. *)
Lemma train_loop_invariant (Inv : FederatedServer -> Prop) (P : RoundResult -> Prop) :
  (forall n r, P r -> P (set_round n r)) ->
  (forall w a w', Inv (server w) -> federated_round w = Ok (a, w') ->
     Inv (server w') /\ forall r, nth_error (store w') a = Some r -> P r) ->
  forall range hr t w res w',
    train_loop range hr t w = Ok (res, w') -> Inv (server w) ->
    Inv (server w') /\ exists rs, store w' = store w ++ rs /\ Forall P rs.
Proof.
  intros Hset Hstep. induction range as [|round_num range IH];
    intros hr t w res w' Hrun Hinv.
  - simpl in Hrun. unfold ret in Hrun. injection Hrun as <- <-.
    split; [exact Hinv|]. exists []. rewrite app_nil_r. split; [reflexivity | constructor].
  - rewrite train_loop_cons in Hrun.
    destruct (federated_round w) as [[a w1]|e] eqn:Hround; [|discriminate].
    destruct (federated_round_store _ _ _ Hround) as [r [Hst [Ha _]]].
    destruct (Hstep _ _ _ Hinv Hround) as [Hinv1 HP].
    specialize (HP r). rewrite Hst, Ha, nth_error_snoc in HP. specialize (HP eq_refl).
    cbv zeta in Hrun. cbn [store] in Hrun.
    rewrite Hst, Ha, store_update_snoc, nth_error_snoc in Hrun.
    set (r' := set_round (Z.of_nat round_num + 1) r) in *.
    assert (HP' : P r') by (apply Hset; exact HP).
    set (w2 := {| server := server w1; store := store w ++ [r']; rng := rng w1 |}) in *.
    assert (Hrec : forall hr2 t2,
               train_loop range hr2 t2 w2 = Ok (res, w') ->
               Inv (server w') /\ exists rs, store w' = store w ++ rs /\ Forall P rs).
    { intros hr2 t2 Hloop. destruct (IH _ _ _ _ _ Hloop Hinv1) as [Hi [rs [Hs Hf]]].
      split; [exact Hi|]. exists (r' :: rs). split; [|constructor; assumption].
      rewrite Hs. unfold w2. cbn [store]. rewrite <- app_assoc. reflexivity. }
    destruct r' as [c rd|p l acc evs rd] eqn:Hr'; [eapply Hrec; exact Hrun|].
    cbv zeta in Hrun. destruct (Nat.leb _ _); [|eapply Hrec; exact Hrun].
    injection Hrun as <- <-. split; [exact Hinv1|].
    exists [Completed p l acc evs rd]. split; [reflexivity|]. constructor; [exact HP' | constructor].
Qed.

Lemma train_as_loop w h w' :
  train w = Ok (h, w') ->
  exists t,
    train_loop (seq 0 (Z.to_nat (num_rounds (config (server w))))) []
      {| best_accuracy := 0; no_improvement_count := 0 |} w
    = Ok ((rounds h, t, convergence_round h), w') /\
    final_accuracy h = best_accuracy t.
Proof.
  unfold train. unfold bind at 1. unfold get_server. unfold bind at 1.
  destruct (train_loop _ _ _ w) as [[[[hr t] conv] w1]|e]; [|discriminate].
  unfold ret. intros [= <- <-]. exists t. split; reflexivity.
Qed.

Lemma train_invariant (Inv : FederatedServer -> Prop) (P : RoundResult -> Prop) :
  (forall n r, P r -> P (set_round n r)) ->
  (forall w a w', Inv (server w) -> federated_round w = Ok (a, w') ->
     Inv (server w') /\ forall r, nth_error (store w') a = Some r -> P r) ->
  forall w h w',
    train w = Ok (h, w') -> Inv (server w) ->
    Inv (server w') /\ Forall P (records (store w') (rounds h)).
Proof.
  intros Hset Hstep w h w' Hrun Hinv.
  destruct (train_spec _ _ _ Hrun) as [rs0 [Hs0 [_ [Hrec _]]]].
  destruct (train_as_loop _ _ _ Hrun) as [t [Hloop _]].
  destruct (train_loop_invariant Inv P Hset Hstep _ _ _ _ _ _ Hloop Hinv)
    as [Hi [rs [Hs Hf]]].
  split; [exact Hi|]. rewrite Hrec.
  rewrite Hs0 in Hs. apply app_inv_head in Hs. rewrite Hs. exact Hf.
Qed.

Lemma same_architecture_refl s : same_architecture s s.
Proof. repeat split; eauto. Qed.

Lemma federated_round_architecture s0 w a w' :
  same_architecture s0 (server w) -> federated_round w = Ok (a, w') ->
  same_architecture s0 (server w').
Proof.
  intros [Hc [Hcl [Hk Hsh]]] H.
  destruct (federated_round_inv _ _ _ H) as [selected [w1 [_ [_ Hcases]]]].
  cbv zeta in Hcases. destruct Hcases as [[_ ->]|[_ [gs [Hagg ->]]]];
    cbn [server]; [repeat split; assumption|].
  destruct (aggregate_updates_schema _ _ _ Hagg) as [Hk' [Hsh' _]].
  split; [exact Hc|]. split; [exact Hcl|]. cbn [global_model]. split; [congruence|].
  intros k g Hg. destruct (Hsh k g Hg) as [g1 [Hg1 Hl1]].
  destruct (Hsh' k g1 Hg1) as [g2 [Hg2 Hl2]]. exists g2. split; [exact Hg2 | lia].
Qed.

(** X12.  Training changes neither the configuration nor the registry nor the
    architecture of the global model: after [train] the state dictionary
    has the keys it had, in the same order, with tensors of the same
    shapes. *)
Theorem train_keeps_architecture w h w' :
  train w = Ok (h, w') -> same_architecture (server w) (server w').
Proof.
  intro Hrun.
  apply (train_invariant (same_architecture (server w)) (fun _ => True)
           (fun _ _ _ => I)
           (fun w0 a w0' Hi Hr => conj (federated_round_architecture _ _ _ _ Hi Hr)
                                       (fun _ _ => I))
           w h w' Hrun (same_architecture_refl _)).
Qed.

Lemma train_keeps_architecture_witness :
  same_architecture (server Scenario.early_stop) (server (snd Scenario.early_stop_run)).
Proof.
  apply (train_keeps_architecture Scenario.early_stop
           (fst Scenario.early_stop_run) (snd Scenario.early_stop_run)).
  vm_compute. reflexivity.
Defined.

Lemma trained_evaluations_length global_state selected : forall g,
  (List.length (trained_evaluations global_state g selected)
   <= List.length (trained_updates global_state g selected))%nat.
Proof.
  induction selected as [|c rest IH]; intros g; simpl; [lia|].
  destruct (local_train c global_state (g 0%nat)) as [[u m]|e]; [|apply IH].
  destruct (evaluate c m); simpl; specialize (IH (rng_shift g)); lia.
Qed.

(** X13.  The shape of a COMPLETED record: it has at most as many evaluations as
    participants and at most as many participants as registered clients,
    every evaluation carries the identifier of a registered client, the key
    ['round'] is not yet set, and a record without participants has zero
    averages and goes with an unchanged global model. *)
Theorem federated_round_record_shape w a w' p avg_l avg_a evs rd :
  federated_round w = Ok (a, w') ->
  nth_error (store w') a = Some (Completed p avg_l avg_a evs rd) ->
  (List.length evs <= p <= List.length (clients (server w)))%nat /\
  rd = None /\
  Forall (fun e => exists c, In c (clients (server w)) /\
                             eval_client_id e = Some (client_id c)) evs /\
  (p = 0%nat ->
   avg_l = 0 /\ avg_a = 0 /\ evs = [] /\
   global_model (server w') = global_model (server w)).
Proof.
  intros Hround Hrec.
  destruct (federated_round_inv _ _ _ Hround) as [selected [w1 [Hsel [Ha Hcases]]]].
  cbv zeta in Hcases.
  destruct Hcases as [[_ ->]|[_ [gs [Hagg ->]]]]; cbn [store] in Hrec;
    rewrite Ha, nth_error_snoc in Hrec; [discriminate|].
  unfold completed_record in Hrec. injection Hrec as <- <- <- <- <-.
  pose proof (select_clients_all _ _ _ Hsel) as [Hlen _].
  pose proof (select_clients_inv_incl _ _ _ _ Hsel) as Hincl.
  set (gm := global_model (server w)) in *.
  pose proof (trained_evaluations_length gm selected (rng w1)) as He.
  pose proof (trained_failed_length gm selected (rng w1)) as Hf.
  split; [lia|]. split; [reflexivity|]. split.
  - apply Forall_forall. intros e Hin.
    destruct (trained_evaluations_In _ _ _ _ Hin) as [i [c [u [m [e0 [Hc [_ [_ ->]]]]]]]].
    exists c. split; [apply Hincl; eapply nth_error_In; eauto | reflexivity].
  - intro Hp. apply length_zero_iff_nil in Hp.
    rewrite (trained_evaluations_nil _ _ _ Hp). rewrite Hp in *.
    simpl in Hagg. injection Hagg as <-. cbn [server global_model].
    repeat split.
Qed.

Lemma federated_round_record_shape_witness :
  (List.length ([] : list EvalResult) <= 0
   <= List.length (clients (server Scenario.all_fail)))%nat /\
  @None Z = None /\
  Forall (fun e => exists c, In c (clients (server Scenario.all_fail)) /\
                             eval_client_id e = Some (client_id c)) [] /\
  (0%nat = 0%nat ->
   0 = 0 /\ 0 = 0 /\ ([] : list EvalResult) = [] /\
   global_model (server (snd Scenario.all_fail_round))
   = global_model (server Scenario.all_fail)).
Proof.
  apply (federated_round_record_shape Scenario.all_fail
           (fst Scenario.all_fail_round) (snd Scenario.all_fail_round)
           0%nat 0 0 [] None).
  - vm_compute. reflexivity.
  - vm_compute. reflexivity.
Defined.

Lemma fold_Qplus_bounds l lo hi : forall a,
  Forall (fun x => lo <= x <= hi) l ->
  a + inject_Z (Z.of_nat (List.length l)) * lo <= fold_left Qplus l a
  <= a + inject_Z (Z.of_nat (List.length l)) * hi.
Proof.
  induction l as [|x l IH]; intros a H.
  - change (inject_Z (Z.of_nat (List.length (@nil Q)))) with 0.
    cbn [fold_left]. split; lra.
  - inversion H as [|? ? [Hlo Hhi] Hrest]; subst.
    destruct (IH (a + x) Hrest) as [H1 H2].
    change (List.length (x :: l)) with (S (List.length l)).
    rewrite Nat2Z.inj_succ. unfold Z.succ. rewrite inject_Z_plus.
    change (inject_Z 1) with 1. cbn [fold_left]. split; lra.
Qed.

Lemma mean_bounds l lo hi :
  l <> [] -> Forall (fun x => lo <= x <= hi) l -> lo <= mean l <= hi.
Proof.
  intros Hne H. unfold mean, Qsum.
  destruct (fold_Qplus_bounds l lo hi 0 H) as [H1 H2].
  set (n := inject_Z (Z.of_nat (List.length l))) in *.
  assert (Hn : 0 < n).
  { unfold n. change 0 with (inject_Z 0). rewrite <- Zlt_Qlt.
    destruct l; [congruence | simpl; lia]. }
  split.
  - apply Qle_shift_div_l; [exact Hn | lra].
  - apply Qle_shift_div_r; [exact Hn | lra].
Qed.

Lemma federated_round_accuracy_range w a w' r :
  (forall c, In c (clients (server w)) ->
             forall m e, evaluate c m = Ok e -> 0 <= accuracy e <= 1) ->
  federated_round w = Ok (a, w') ->
  nth_error (store w') a = Some r ->
  Forall (fun x => 0 <= x <= 1) (completed_accuracies [r]).
Proof.
  intros Hacc Hround Hrec.
  destruct (federated_round_inv _ _ _ Hround) as [selected [w1 [Hsel [Ha Hcases]]]].
  cbv zeta in Hcases.
  destruct Hcases as [[_ ->]|[_ [gs [Hagg ->]]]]; cbn [store] in Hrec;
    rewrite Ha, nth_error_snoc in Hrec; injection Hrec as <-; [constructor|].
  unfold completed_record. simpl.
  pose proof (select_clients_inv_incl _ _ _ _ Hsel) as Hincl.
  constructor; [|constructor].
  destruct (trained_evaluations _ _ _) as [|e evs] eqn:Hevs; [simpl; split; lra|].
  cbn [is_empty]. apply mean_bounds; [discriminate|].
  apply Forall_map. apply Forall_forall. intros e0 Hin. rewrite <- Hevs in Hin.
  destruct (trained_evaluations_In _ _ _ _ Hin) as [i [c [u [m [e1 [Hc [_ [He ->]]]]]]]].
  simpl. eapply Hacc; [|exact He]. apply Hincl. eapply nth_error_In; eauto.
Qed.

Lemma completed_accuracies_set_round n r :
  completed_accuracies [set_round n r] = completed_accuracies [r].
Proof. destruct r; reflexivity. Qed.

Lemma completed_accuracies_Forall (Q : Q -> Prop) rs :
  Forall (fun r => Forall Q (completed_accuracies [r])) rs ->
  Forall Q (completed_accuracies rs).
Proof.
  induction 1 as [|r rs Hr _ IH]; [constructor|].
  unfold completed_accuracies in *. cbn [flat_map] in *.
  rewrite app_nil_r in Hr. apply Forall_app. split; assumption.
Qed.

(** X14.  When the accuracies that the clients report lie between 0 and 1, so
    does the average accuracy of every COMPLETED round of a training run,
    and so does the final accuracy the run returns. *)
Theorem train_accuracy_range w h w' :
  (forall c, In c (clients (server w)) ->
             forall m e, evaluate c m = Ok e -> 0 <= accuracy e <= 1) ->
  train w = Ok (h, w') ->
  Forall (fun x => 0 <= x <= 1)
    (completed_accuracies (records (store w') (rounds h))) /\
  0 <= final_accuracy h <= 1.
Proof.
  intros Hacc Hrun.
  destruct (train_invariant
              (fun s => clients s = clients (server w))
              (fun r => Forall (fun x => 0 <= x <= 1) (completed_accuracies [r])))
    with (w := w) (h := h) (w' := w') as [_ Hall]; auto.
  - intros n r Hr. rewrite completed_accuracies_set_round. exact Hr.
  - intros w0 a w0' Hi Hr. split.
    + destruct (federated_round_store _ _ _ Hr) as [_ [_ [_ [_ [_ [_ Hc]]]]]]. congruence.
    + intros r Hrec.
      apply (federated_round_accuracy_range w0 a w0' r);
        [rewrite Hi; exact Hacc | exact Hr | exact Hrec].
  - apply completed_accuracies_Forall in Hall. split; [exact Hall|].
    destruct (train_spec _ _ _ Hrun) as [rs [_ [_ [Hrec [_ [_ [Hfin _]]]]]]].
    rewrite Hrec in Hall. rewrite Hfin.
    destruct (observe_best_bounds rs ConvergenceTracker.init) as [_ [_ [H|H]]].
    + fold (ConvergenceTracker.after rs) in H. rewrite H. simpl. split; lra.
    + fold (ConvergenceTracker.after rs) in H. rewrite Forall_forall in Hall.
      exact (Hall _ H).
Qed.

Lemma train_accuracy_range_witness :
  Forall (fun x => 0 <= x <= 1)
    (completed_accuracies
       (records (store (snd Scenario.early_stop_run))
          (rounds (fst Scenario.early_stop_run)))) /\
  0 <= final_accuracy (fst Scenario.early_stop_run) <= 1.
Proof.
  apply (train_accuracy_range Scenario.early_stop).
  - intros c [<-|[]] m e. simpl. intros [= <-]. simpl.
    set (k := (Scenario.counter m - 1)%nat).
    do 6 (destruct k as [|k]; [simpl; split; discriminate|]).
    destruct k; simpl; split; discriminate.
  - vm_compute. reflexivity.
Defined.

Lemma federated_round_too_few w :
  (1 <= List.length (clients (server w)))%nat ->
  (Z.of_nat (List.length (clients (server w))) < min_clients (config (server w)))%Z ->
  exists g,
    federated_round w
    = Ok (List.length (store w),
          {| server := server w;
             store := store w ++ [Insufficient (List.length (clients (server w))) None];
             rng := g |}).
Proof.
  intros HP Hmin. destruct (select_clients_default_ok w HP) as [sel [g [Hsel [Hlen _]]]].
  exists g. rewrite federated_round_unfold, Hsel. cbv zeta. rewrite Hlen.
  destruct (Z.ltb_spec (Z.of_nat (List.length (clients (server w))))
              (min_clients (config (server w)))); [reflexivity | lia].
Qed.

Lemma train_loop_too_few n : forall k hr t w,
  (1 <= List.length (clients (server w)))%nat ->
  (Z.of_nat (List.length (clients (server w))) < min_clients (config (server w)))%Z ->
  exists w',
    train_loop (seq k n) hr t w
    = Ok ((hr ++ seq (List.length (store w)) n, t, (-1)%Z), w') /\
    server w' = server w /\
    store w' = store w ++ map (fun i => Insufficient (List.length (clients (server w)))
                                          (Some (Z.of_nat i + 1)%Z)) (seq k n).
Proof.
  induction n as [|n IH]; intros k hr t w HP Hmin.
  - exists w. simpl. rewrite !app_nil_r. auto.
  - destruct (federated_round_too_few w HP Hmin) as [g Hround].
    change (seq k (S n)) with (k :: seq (S k) n).
    rewrite train_loop_cons, Hround. cbv zeta. cbn [server store rng].
    rewrite store_update_snoc, nth_error_snoc. cbn [set_round].
    set (w2 := {| server := server w;
                  store := store w ++ [Insufficient (List.length (clients (server w)))
                                         (Some (Z.of_nat k + 1)%Z)];
                  rng := g |}).
    destruct (IH (S k) (hr ++ [List.length (store w)]) t w2 HP Hmin)
      as [w' [Hrun [Hs Hst]]].
    exists w'. unfold addr in *. rewrite Hrun. unfold w2 in *. cbn [server store] in *.
    rewrite length_app, Nat.add_1_r, <- !app_assoc in *. auto.
Qed.

(** X15.  With a registry that is not empty but smaller than [min_clients],
    [train] runs its whole budget: it returns one INSUFFICIENT_CLIENTS
    record per round, numbered from 1, a final accuracy of 0 and no
    convergence round, and leaves the server as it was. *)
Theorem train_too_few_clients w :
  (1 <= List.length (clients (server w)))%nat ->
  (Z.of_nat (List.length (clients (server w))) < min_clients (config (server w)))%Z ->
  exists h w',
    train w = Ok (h, w') /\
    server w' = server w /\
    final_accuracy h = 0 /\ convergence_round h = (-1)%Z /\
    records (store w') (rounds h)
    = map (fun i => Insufficient (List.length (clients (server w)))
                      (Some (Z.of_nat i + 1)%Z))
        (seq 0 (Z.to_nat (num_rounds (config (server w))))).
Proof.
  intros HP Hmin.
  destruct (train_loop_too_few (Z.to_nat (num_rounds (config (server w)))) 0 []
              {| best_accuracy := 0; no_improvement_count := 0 |} w HP Hmin)
    as [w' [Hrun [Hs Hst]]].
  eexists. exists w'. split; [|split; [exact Hs|]].
  - unfold train. unfold bind at 1. unfold get_server. unfold bind at 1.
    rewrite Hrun. reflexivity.
  - cbn [final_accuracy convergence_round rounds best_accuracy].
    split; [reflexivity|]. split; [reflexivity|].
    rewrite Hst. cbn [app].
    set (rs := map _ _).
    replace (Z.to_nat (num_rounds (config (server w)))) with (List.length rs)
      by (unfold rs; rewrite length_map, length_seq; reflexivity).
    rewrite <- (app_nil_r rs) at 1. apply records_seq.
Qed.

Lemma train_too_few_clients_witness :
  exists h w',
    train Scenario.too_few = Ok (h, w') /\
    server w' = server Scenario.too_few /\
    final_accuracy h = 0 /\ convergence_round h = (-1)%Z /\
    records (store w') (rounds h)
    = map (fun i => Insufficient (List.length (clients (server Scenario.too_few)))
                      (Some (Z.of_nat i + 1)%Z))
        (seq 0 (Z.to_nat (num_rounds (config (server Scenario.too_few))))).
Proof.
  apply (train_too_few_clients Scenario.too_few).
  - simpl. lia.
  - simpl. lia.
Defined.

Lemma trained_all_fail global_state selected : forall g,
  (forall c, In c selected ->
             forall seed, exists e, local_train c global_state seed = Raise e) ->
  trained_updates global_state g selected = [].
Proof.
  induction selected as [|c rest IH]; intros g H; [reflexivity|].
  simpl. destruct (H c (or_introl eq_refl) (g 0%nat)) as [e ->].
  apply IH. intros c' Hc'. apply H. right. exact Hc'.
Qed.

Lemma federated_round_all_fail w :
  (1 <= List.length (clients (server w)))%nat ->
  (min_clients (config (server w)) <= Z.of_nat (List.length (clients (server w))))%Z ->
  (forall c, In c (clients (server w)) ->
             forall m seed, exists e, local_train c m seed = Raise e) ->
  exists g,
    federated_round w
    = Ok (List.length (store w),
          {| server := {| global_model := global_model (server w);
                          config := config (server w);
                          clients := clients (server w);
                          round_results := round_results (server w)
                                             ++ [List.length (store w)] |};
             store := store w ++ [Completed 0 0 0 [] None];
             rng := g |}).
Proof.
  intros HP Hmin Hfail.
  destruct (select_clients_default_ok w HP) as [sel [g [Hsel [Hlen Hincl]]]].
  eexists. rewrite federated_round_unfold, Hsel. cbv zeta. rewrite Hlen.
  destruct (Z.ltb_spec (Z.of_nat (List.length (clients (server w))))
              (min_clients (config (server w)))); [lia|].
  cbn [rng]. assert (Hups : trained_updates (global_model (server w)) g sel = []).
  { apply trained_all_fail. intros c Hc seed. apply Hfail. apply Hincl. exact Hc. }
  rewrite (trained_evaluations_nil _ _ _ Hups), Hups. reflexivity.
Qed.

Lemma train_loop_fail_step round_num range hr t w :
  (1 <= List.length (clients (server w)))%nat ->
  (min_clients (config (server w)) <= Z.of_nat (List.length (clients (server w))))%Z ->
  (forall c, In c (clients (server w)) ->
             forall m seed, exists e, local_train c m seed = Raise e) ->
  exists w2,
    clients (server w2) = clients (server w) /\
    config (server w2) = config (server w) /\
    global_model (server w2) = global_model (server w) /\
    store w2 = store w ++ [Completed 0 0 0 [] (Some (Z.of_nat round_num + 1)%Z)] /\
    train_loop (round_num :: range) hr t w
    = let t1 := check_convergence 0 t in
      if Nat.leb patience (no_improvement_count t1) then
        Ok ((hr ++ [List.length (store w)], t1, (Z.of_nat round_num + 1)%Z), w2)
      else train_loop range (hr ++ [List.length (store w)]) t1 w2.
Proof.
  intros HP Hmin Hfail. destruct (federated_round_all_fail w HP Hmin Hfail) as [g Hround].
  eexists. split; [|split; [|split; [|split]]];
    [| | | |rewrite train_loop_cons, Hround; cbv zeta; cbn [server store rng];
            rewrite store_update_snoc, nth_error_snoc; cbn [set_round]; reflexivity];
    reflexivity.
Qed.

(** X16.  When every registered client raises in local training, each round is
    recorded as COMPLETED with no participant and an average accuracy of 0,
    which the tracker counts as no improvement: with enough clients
    registered and a budget of at least 3 rounds, [train] stops after the
    third round, declares convergence there and returns a final accuracy of
    0, the global model unchanged. *)
Theorem train_all_clients_fail w :
  (1 <= List.length (clients (server w)))%nat ->
  (min_clients (config (server w)) <= Z.of_nat (List.length (clients (server w))))%Z ->
  (3 <= num_rounds (config (server w)))%Z ->
  (forall c, In c (clients (server w)) ->
             forall m seed, exists e, local_train c m seed = Raise e) ->
  exists h w',
    train w = Ok (h, w') /\
    convergence_round h = 3%Z /\ final_accuracy h = 0 /\
    records (store w') (rounds h)
    = [Completed 0 0 0 [] (Some 1%Z); Completed 0 0 0 [] (Some 2%Z);
       Completed 0 0 0 [] (Some 3%Z)] /\
    global_model (server w') = global_model (server w).
Proof.
  intros HP Hmin Hn Hfail.
  destruct (Z.to_nat (num_rounds (config (server w)))) as [|[|[|m]]] eqn:E; try lia.
  destruct (train_loop_fail_step 0 (1%nat :: 2%nat :: seq 3 m) []
              {| best_accuracy := 0; no_improvement_count := 0 |} w HP Hmin Hfail)
    as [w1 [Hc1 [Hf1 [Hg1 [Hs1 Hrun1]]]]].
  assert (HP1 : (1 <= List.length (clients (server w1)))%nat) by (rewrite Hc1; exact HP).
  assert (Hmin1 : (min_clients (config (server w1))
                   <= Z.of_nat (List.length (clients (server w1))))%Z)
    by (rewrite Hc1, Hf1; exact Hmin).
  assert (Hfail1 : forall c, In c (clients (server w1)) ->
                     forall m seed, exists e, local_train c m seed = Raise e)
    by (rewrite Hc1; exact Hfail).
  destruct (train_loop_fail_step 1 (2%nat :: seq 3 m) [List.length (store w)]
              {| best_accuracy := 0; no_improvement_count := 1 |} w1 HP1 Hmin1 Hfail1)
    as [w2 [Hc2 [Hf2 [Hg2 [Hs2 Hrun2]]]]].
  assert (HP2 : (1 <= List.length (clients (server w2)))%nat) by (rewrite Hc2; exact HP1).
  assert (Hmin2 : (min_clients (config (server w2))
                   <= Z.of_nat (List.length (clients (server w2))))%Z)
    by (rewrite Hc2, Hf2; exact Hmin1).
  assert (Hfail2 : forall c, In c (clients (server w2)) ->
                     forall m seed, exists e, local_train c m seed = Raise e)
    by (rewrite Hc2; exact Hfail1).
  destruct (train_loop_fail_step 2 (seq 3 m)
              [List.length (store w); List.length (store w1)]
              {| best_accuracy := 0; no_improvement_count := 2 |} w2 HP2 Hmin2 Hfail2)
    as [w3 [Hc3 [Hf3 [Hg3 [Hs3 Hrun3]]]]].
  eexists. exists w3. split; [|split; [|split; [|split]]].
  - unfold train. unfold bind at 1. unfold get_server. unfold bind at 1. rewrite E.
    change (seq 0 (S (S (S m)))) with (0%nat :: 1%nat :: 2%nat :: seq 3 m).
    unfold addr in *. rewrite Hrun1. cbv zeta.
    change (check_convergence 0 {| best_accuracy := 0; no_improvement_count := 0 |})
      with {| best_accuracy := 0; no_improvement_count := 1 |}.
    cbn [no_improvement_count Nat.leb patience app]. rewrite Hrun2. cbv zeta.
    change (check_convergence 0 {| best_accuracy := 0; no_improvement_count := 1 |})
      with {| best_accuracy := 0; no_improvement_count := 2 |}.
    cbn [no_improvement_count Nat.leb patience app]. rewrite Hrun3. cbv zeta.
    change (check_convergence 0 {| best_accuracy := 0; no_improvement_count := 2 |})
      with {| best_accuracy := 0; no_improvement_count := 3 |}.
    cbn [no_improvement_count Nat.leb patience app]. reflexivity.
  - reflexivity.
  - reflexivity.
  - cbn [rounds]. rewrite Hs3, Hs2, Hs1. rewrite <- !app_assoc. cbn [app].
    rewrite !length_app. cbn [List.length].
    replace (List.length (store w) + 1)%nat with (S (List.length (store w))) by lia.
    replace (List.length (store w) + 2)%nat with (S (S (List.length (store w)))) by lia.
    set (rs := [_; _; _]).
    change [List.length (store w); S (List.length (store w));
            S (S (List.length (store w)))]
      with (seq (List.length (store w)) (List.length rs)).
    rewrite <- (app_nil_r rs) at 1. apply records_seq.
  - congruence.
Qed.

Lemma train_all_clients_fail_witness :
  exists h w',
    train Scenario.all_fail = Ok (h, w') /\
    convergence_round h = 3%Z /\ final_accuracy h = 0 /\
    records (store w') (rounds h)
    = [Completed 0 0 0 [] (Some 1%Z); Completed 0 0 0 [] (Some 2%Z);
       Completed 0 0 0 [] (Some 3%Z)] /\
    global_model (server w') = global_model (server Scenario.all_fail).
Proof.
  apply (train_all_clients_fail Scenario.all_fail).
  - simpl. lia.
  - simpl. lia.
  - simpl. lia.
  - intros c [<-|[<-|[<-|[]]]] m seed; eexists; reflexivity.
Defined.







Lemma total_samples_positive client_updates :
  client_updates <> [] ->
  Forall (fun u => (0 < num_samples u)%Z) client_updates ->
  (0 < total_samples_of client_updates)%Z.
Proof.
  intros Hne H. induction H as [|u l Hu Hl IH]; [congruence|].
  rewrite total_samples_cons. destruct l as [|v l].
  - unfold total_samples_of. simpl. lia.
  - specialize (IH ltac:(discriminate)). lia.
Qed.

Lemma federated_round_returns s0 w :
  (1 <= List.length (clients (server w)))%nat ->
  same_architecture s0 (server w) ->
  Forall (well_behaved (global_model s0)) (clients (server w)) ->
  exists a w', federated_round w = Ok (a, w').
Proof.
  intros HP [_ [_ [Hk Hsh]]] Hwb.
  destruct (select_clients_default_ok w HP) as [sel [g [Hsel [Hlen Hincl]]]].
  rewrite federated_round_unfold, Hsel. cbv zeta. cbn [rng].
  destruct (Z.of_nat (List.length sel) <? min_clients (config (server w)))%Z;
    [eexists; eexists; reflexivity|].
  rewrite aggregate_updates_guard.
  set (gm := global_model (server w)) in *.
  set (ups := trained_updates gm g sel).
  assert (Hups : Forall (fun u => follows_schema gm (keys gm) (updates u) /\
                                  (0 < num_samples u)%Z) ups).
  { apply Forall_forall. intros u Hu. apply trained_updates_In in Hu.
    destruct Hu as [i [c [m [Hc Ht]]]].
    rewrite Forall_forall in Hwb.
    apply (Hwb c (Hincl _ (nth_error_In _ _ Hc)) gm (g i) u m Hk Hsh Ht). }
  destruct ups as [|u0 ups0] eqn:E; [eexists; eexists; reflexivity|].
  destruct (aggregate_updates_elements gm (keys gm) (u0 :: ups0)) as [gs' [Hagg _]].
  - discriminate.
  - apply total_samples_positive; [discriminate|].
    eapply Forall_impl; [|exact Hups]. intros u [_ H]. exact H.
  - eapply Forall_impl; [|exact Hups]. intros u [H _]. exact H.
  - rewrite Hagg. eexists; eexists; reflexivity.
Qed.

Lemma train_loop_returns s0 range : forall hr t w,
  (1 <= List.length (clients (server w)))%nat ->
  same_architecture s0 (server w) ->
  Forall (well_behaved (global_model s0)) (clients (server w)) ->
  exists res w', train_loop range hr t w = Ok (res, w').
Proof.
  induction range as [|round_num range IH]; intros hr t w HP Harch Hwb.
  - eexists; eexists; reflexivity.
  - destruct (federated_round_returns s0 w HP Harch Hwb) as [a [w1 Hround]].
    rewrite train_loop_cons, Hround. cbv zeta. cbn [store].
    destruct (federated_round_store _ _ _ Hround) as [r [Hst [Ha [_ [_ [_ Hcl]]]]]].
    rewrite Hst, Ha, store_update_snoc, nth_error_snoc.
    pose proof (federated_round_architecture _ _ _ _ Harch Hround) as Harch1.
    set (w2 := {| server := server w1; store := _; rng := rng w1 |}).
    assert (Hrec : forall hr2 t2, exists res w', train_loop range hr2 t2 w2 = Ok (res, w')).
    { intros hr2 t2. apply IH; unfold w2; cbn [server]; [| exact Harch1|];
        rewrite Hcl; assumption. }
    destruct (set_round _ r) as [c rd|p l acc evs rd]; [apply Hrec|].
    destruct (Nat.leb _ _); [eexists; eexists; reflexivity | apply Hrec].
Qed.

Lemma clonable_NoDup gm : clonable gm -> NoDup (keys gm).
Proof.
  intros [i [n H]].
  assert (Hk : keys gm = map fst (LaundryPredictionModel_shapes i 128 n)).
  { rewrite <- H. unfold shapes_of, keys. rewrite map_map. reflexivity. }
  rewrite Hk. simpl.
  repeat (constructor; [simpl; intuition discriminate|]). constructor.
Qed.

(** X18.  [train] never raises on a registry that is not empty, for a
    global model that is a [LaundryPredictionModel] of hidden size 128 (so
    that the clone for a client is built) and clients that are well
    behaved for its architecture: every round then selects, aggregates and
    records without an exception, whatever the generator and however many
    clients fail in local training. *)
Theorem train_returns w :
  (1 <= List.length (clients (server w)))%nat ->
  clonable (global_model (server w)) ->
  Forall (well_behaved (global_model (server w))) (clients (server w)) ->
  exists h w', train w = Ok (h, w').
Proof.
  intros HP _ Hwb.
  destruct (train_loop_returns (server w)
              (seq 0 (Z.to_nat (num_rounds (config (server w))))) []
              {| best_accuracy := 0; no_improvement_count := 0 |} w HP
              (same_architecture_refl _) Hwb) as [[[hr t] conv] [w' Hrun]].
  eexists. exists w'. unfold train. unfold bind at 1. unfold get_server.
  unfold bind at 1. rewrite Hrun. reflexivity.
Qed.

Lemma steady_well_behaved id samples gm0 :
  (0 < samples)%Z -> NoDup (keys gm0) ->
  well_behaved gm0 (Example.steady id samples).
Proof.
  intros Hs Hnd gm seed u m Hk Hsh. simpl. intros [= <- <-]. simpl.
  split; [|exact Hs]. split; [|split].
  - rewrite keys_zeroed, Hk. exact Hnd.
  - intro k. rewrite keys_zeroed. tauto.
  - intros k t. rewrite lookup_zeroed.
    destruct (lookup k gm) as [g|]; [|discriminate].
    simpl. intros [= <-]. exists g. split; [reflexivity | apply zeros_like_length].
Qed.

Lemma failing_well_behaved id gm0 : well_behaved gm0 (Scenario.failing id).
Proof. intros gm seed u m _ _ H. discriminate H. Qed.

Lemma laundry_model_clonable : clonable Example.laundry_model.
Proof. exists 1%nat, 1%nat. vm_compute. reflexivity. Qed.

Lemma train_returns_witness :
  exists h w',
    train (Example.laundry_world
             [Example.steady "facility_0" 100; Scenario.failing "facility_1"])
    = Ok (h, w').
Proof.
  apply (train_returns (Example.laundry_world
                          [Example.steady "facility_0" 100; Scenario.failing "facility_1"])).
  - simpl. lia.
  - exact laundry_model_clonable.
  - constructor; [|constructor; [|constructor]].
    + apply steady_well_behaved; [reflexivity|].
      apply clonable_NoDup. exact laundry_model_clonable.
    + apply failing_well_behaved.
Defined.

(** ** The client: [local_train] and [evaluate] *)

Lemma same_shapes_refl d : same_shapes d d.
Proof. split; eauto. Qed.

Lemma same_shapes_trans d1 d2 d3 :
  same_shapes d1 d2 -> same_shapes d2 d3 -> same_shapes d1 d3.
Proof.
  intros [Hk1 Hs1] [Hk2 Hs2]. split; [congruence|].
  intros k g Hg. destruct (Hs1 k g Hg) as [g1 [Hg1 Hl1]].
  destruct (Hs2 k g1 Hg1) as [g2 [Hg2 Hl2]]. exists g2. split; [exact Hg2 | lia].
Qed.

Lemma train_batches_shapes T config seed batches : forall state total_loss n res,
  preserves_shapes T ->
  Client.train_batches T config seed batches state total_loss n = Ok res ->
  same_shapes state (fst (fst res)).
Proof.
  induction batches as [|b rest IH]; intros state l n res HT; simpl.
  - intros [= <-]. apply same_shapes_refl.
  - destruct (Client.training_step T config state b seed n) as [[state' l']|e] eqn:Hstep;
      [|discriminate].
    simpl. intro Hrest. eapply same_shapes_trans; [eapply HT; exact Hstep|].
    eapply IH; eauto.
Qed.

Lemma train_epochs_shapes T config data seed epochs : forall state total_loss n res,
  preserves_shapes T ->
  Client.train_epochs T config data seed epochs state total_loss n = Ok res ->
  same_shapes state (fst (fst res)).
Proof.
  induction epochs as [|e rest IH]; intros state l n res HT; simpl.
  - intros [= <-]. apply same_shapes_refl.
  - destruct (Client.train_batches T config seed _ state l n) as [pass|err] eqn:Hpass;
      [|discriminate].
    simpl. intro Hrest.
    eapply same_shapes_trans; [eapply train_batches_shapes; eauto|].
    eapply IH; eauto.
Qed.

Lemma dict_set_fresh key v d : ~ In key (keys d) -> dict_set key v d = d ++ [(key, v)].
Proof.
  induction d as [|[k v'] d IH]; simpl; [reflexivity|].
  intro H. destruct (String.eqb_spec key k) as [->|]; [elim H; auto|].
  rewrite IH by tauto. reflexivity.
Qed.

Lemma tensor_minus_length a b :
  List.length a = List.length b -> List.length (Client.tensor_minus a b) = List.length a.
Proof.
  revert b; induction a as [|x a IH]; intros [|y b]; simpl; try discriminate; auto.
Qed.

Lemma compute_updates_ok final_state initial_state : forall updates,
  NoDup (keys updates ++ keys initial_state) ->
  (forall k v0, In (k, v0) initial_state ->
     exists v, lookup k final_state = Some v /\ List.length v = List.length v0) ->
  Client.compute_updates initial_state final_state updates
  = Ok (updates ++ map (delta_of final_state) initial_state).
Proof.
  induction initial_state as [|[key v0] rest IH]; intros acc Hnd Hfit.
  - simpl. rewrite app_nil_r. reflexivity.
  - destruct (Hfit key v0 (or_introl eq_refl)) as [v [Hv Hl]].
    simpl. unfold dict_get. rewrite Hv. simpl. unfold Client.tensor_sub.
    rewrite Hl, Nat.eqb_refl. simpl.
    assert (Hfresh : ~ In key (keys acc)).
    { intro Hin. simpl in Hnd. apply NoDup_remove_2 in Hnd. apply Hnd.
      apply in_or_app. left. exact Hin. }
    rewrite dict_set_fresh by exact Hfresh.
    rewrite IH.
    + rewrite <- app_assoc. unfold delta_of at 2, get. simpl. rewrite Hv. reflexivity.
    + unfold keys in *. rewrite map_app, <- app_assoc. simpl. exact Hnd.
    + intros k v1 Hin. apply Hfit. right. exact Hin.
Qed.

Lemma keys_delta_of final_state d : keys (map (delta_of final_state) d) = keys d.
Proof. unfold keys. rewrite map_map. reflexivity. Qed.

Lemma lookup_delta_of final_state d k :
  lookup k (map (delta_of final_state) d)
  = option_map (fun v0 => Client.tensor_minus (get k final_state) v0) (lookup k d).
Proof.
  induction d as [|[k0 v0] d IH]; simpl; [reflexivity|].
  destruct (String.eqb_spec k k0) as [->|]; [reflexivity | exact IH].
Qed.

Lemma sgd_inv lr parameters :
  Client.sgd lr parameters = Ok tt <-> 0 <= lr /\ parameters <> [].
Proof.
  unfold Client.sgd. destruct (Qle_bool 0 lr) eqn:E; simpl.
  - apply Qle_bool_iff in E. destruct parameters; simpl; split.
    + discriminate.
    + intros [_ H]. congruence.
    + intros _. split; [exact E | discriminate].
    + reflexivity.
  - split; [discriminate|]. intros [H _]. apply Qle_bool_iff in H. congruence.
Qed.

(** What [local_train] has done when it returns, over a training step that
    keeps the architecture. *)
Lemma local_train_inv T c seed u c' :
  preserves_shapes T ->
  Client.local_train T c seed = Ok (u, c') ->
  exists m final_state,
    Client.model c = Some m /\
    0 <= learning_rate (Client.cfg c) /\ m <> [] /\
    same_shapes m final_state /\
    Client.compute_updates m final_state [] = Ok (updates u) /\
    c' = {| Client.id := Client.id c; Client.cfg := Client.cfg c;
            Client.dataset := Client.dataset c; Client.model := Some final_state |} /\
    num_samples u = Z.of_nat (List.length (Client.dataset c)) /\
    u_client_id u = Client.id c.
Proof.
  intros HT. unfold Client.local_train.
  destruct (Client.model c) as [m|]; [|discriminate].
  destruct (Client.sgd (learning_rate (Client.cfg c)) m) as [[]|e] eqn:Hsgd;
    [|discriminate].
  apply sgd_inv in Hsgd. destruct Hsgd as [Hlr Hm]. cbn [rbind].
  destruct (Client.train_epochs T (Client.cfg c) (Client.dataset c) seed _ m 0 0)
    as [trained|e] eqn:Htrain; [|discriminate].
  cbn [rbind]. cbv zeta.
  pose proof (train_epochs_shapes _ _ _ _ _ _ _ _ _ HT Htrain) as Hsh.
  destruct (Client.compute_updates m (fst (fst trained)) []) as [ups|e] eqn:Hups;
    [|discriminate].
  cbn [rbind]. intros [= <- <-].
  exists m, (fst (fst trained)). cbn [updates num_samples u_client_id].
  repeat split; try assumption; try reflexivity; apply Hsh.
Qed.

Lemma local_train_schema T c seed u c' m :
  preserves_shapes T ->
  Client.local_train T c seed = Ok (u, c') ->
  Client.model c = Some m -> NoDup (keys m) ->
  keys (updates u) = keys m /\ follows_schema m (keys m) (updates u).
Proof.
  intros HT Hrun Hm Hnd.
  destruct (local_train_inv T c seed u c' HT Hrun)
    as [m' [final_state [Hm' [_ [_ [Hsh [Hups _]]]]]]].
  rewrite Hm in Hm'. injection Hm' as <-.
  rewrite compute_updates_ok in Hups.
  - injection Hups as Hups. simpl in Hups.
    assert (Hkeys : keys (updates u) = keys m) by (rewrite <- Hups; apply keys_delta_of).
    split; [exact Hkeys|].
    split; [rewrite Hkeys; exact Hnd|]. split; [intro k; rewrite Hkeys; tauto|].
    intros k t Ht. rewrite <- Hups, lookup_delta_of in Ht.
    destruct (lookup k m) as [v0|] eqn:Hv0; [|discriminate].
    simpl in Ht. injection Ht as <-.
    destruct (proj2 Hsh k v0 Hv0) as [vf [Hvf Hl]].
    exists v0. split; [reflexivity|]. unfold get. rewrite Hvf.
    rewrite tensor_minus_length; lia.
  - exact Hnd.
  - intros k v0 Hin. apply Hsh. apply In_lookup_NoDup; assumption.
Qed.

(** X19.  Whenever [local_train] returns, over a training step that keeps
    the architecture as torch's does: a model had been set and was not
    empty, the learning rate is not negative, the client keeps its
    identifier, configuration and dataset and holds a trained model of
    the same architecture, the update carries the client's identifier and
    the size of its dataset, and its delta has exactly the keys of the
    model the client started from, in their order, each tensor with the
    shape of the model's. *)
Theorem local_train_update T c seed u c' :
  preserves_shapes T ->
  Client.local_train T c seed = Ok (u, c') ->
  exists m final_state,
    Client.model c = Some m /\ m <> [] /\
    0 <= learning_rate (Client.cfg c) /\
    Client.model c' = Some final_state /\ same_shapes m final_state /\
    Client.id c' = Client.id c /\ Client.cfg c' = Client.cfg c /\
    Client.dataset c' = Client.dataset c /\
    u_client_id u = Client.id c /\
    num_samples u = Z.of_nat (List.length (Client.dataset c)) /\
    (NoDup (keys m) ->
     keys (updates u) = keys m /\ follows_schema m (keys m) (updates u)).
Proof.
  intros HT Hrun.
  destruct (local_train_inv T c seed u c' HT Hrun)
    as [m [final_state [Hm [Hlr [Hne [Hsh [_ [Hc' [Hn Hid]]]]]]]]].
  exists m, final_state. rewrite Hc'. cbn [Client.model Client.id Client.cfg Client.dataset].
  repeat (split; [first [assumption | reflexivity]|]).
  intro Hnd. eapply local_train_schema; eauto.
Qed.

(** X20.  With no local epoch to run ([local_epochs <= 0]), a model set and
    a learning rate that is not negative, [local_train] returns with the
    client as it was: the loss is 0.0 instead of a division by zero, and
    every element of the delta is zero. *)
Theorem local_train_idle T c seed m :
  Client.model c = Some m -> NoDup (keys m) -> m <> [] ->
  0 <= learning_rate (Client.cfg c) ->
  (local_epochs (Client.cfg c) <= 0)%Z ->
  exists u,
    Client.local_train T c seed = Ok (u, c) /\
    loss u = 0 /\
    num_samples u = Z.of_nat (List.length (Client.dataset c)) /\
    keys (updates u) = keys m /\
    forall key d, lookup key (updates u) = Some d -> Forall (fun x => x == 0) d.
Proof.
  destruct c as [cid ccfg cdata cmodel]. simpl. intros -> Hnd Hne Hlr Hep.
  unfold Client.local_train. cbn [Client.model Client.cfg Client.dataset Client.id].
  rewrite (proj2 (sgd_inv _ _) (conj Hlr Hne)). cbn [rbind].
  replace (Z.to_nat (local_epochs ccfg)) with 0%nat by lia.
  cbn [seq Client.train_epochs rbind fst snd]. cbv zeta.
  rewrite compute_updates_ok.
  - cbn [rbind app]. eexists. split; [reflexivity|].
    cbn [loss updates num_samples]. split; [reflexivity|]. split; [reflexivity|].
    split; [apply keys_delta_of|].
    intros key d. rewrite lookup_delta_of.
    destruct (lookup key m) as [v0|] eqn:Hv0; [|discriminate].
    simpl. intros [= <-]. unfold get. rewrite Hv0.
    clear. induction v0 as [|x v0 IH]; simpl; constructor; [ring | exact IH].
  - exact Hnd.
  - intros k v0 Hin. exists v0. split; [|reflexivity].
    apply In_lookup_NoDup; assumption.
Qed.

Lemma count_correct_app T m l1 l2 :
  Client.count_correct T m (l1 ++ l2)
  = (Client.count_correct T m l1 + Client.count_correct T m l2)%nat.
Proof. unfold Client.count_correct. rewrite filter_app, length_app. reflexivity. Qed.

Lemma count_correct_le T m l :
  (Client.count_correct T m l <= List.length l)%nat.
Proof. unfold Client.count_correct. apply filter_length_le. Qed.


Lemma evaluate_batches_spec T m batches : forall correct total total_loss,
  fst (fst (Client.evaluate_batches T m batches correct total total_loss))
  = (correct + Client.count_correct T m (List.concat batches))%nat /\
  snd (fst (Client.evaluate_batches T m batches correct total total_loss))
  = (total + List.length (List.concat batches))%nat.
Proof.
  induction batches as [|b batches IH]; intros correct total total_loss; simpl.
  - unfold Client.count_correct. simpl. split; lia.
  - destruct (IH (correct + Client.count_correct T m b)%nat
                 (total + List.length b)%nat
                 (total_loss + Client.batch_loss T m b)) as [H1 H2].
    rewrite H1, H2, count_correct_app, length_app. split; lia.
Qed.

Lemma fraction_range (a b : nat) :
  (a <= b)%nat -> (0 < b)%nat ->
  0 <= inject_Z (Z.of_nat a) / inject_Z (Z.of_nat b) <= 1.
Proof.
  intros Hab Hb.
  assert (H0 : 0 < inject_Z (Z.of_nat b))
    by (change 0 with (inject_Z 0); rewrite <- Zlt_Qlt; lia).
  assert (Ha : 0 <= inject_Z (Z.of_nat a))
    by (change 0 with (inject_Z 0); rewrite <- Zle_Qle; lia).
  assert (Hle : inject_Z (Z.of_nat a) <= inject_Z (Z.of_nat b))
    by (rewrite <- Zle_Qle; lia).
  split.
  - apply Qle_shift_div_l; [exact H0|]. rewrite Qmult_0_l. exact Ha.
  - apply Qle_shift_div_r; [exact H0|]. rewrite Qmult_1_l. exact Hle.
Qed.

(** X21.  Whenever [evaluate] returns, a model had been set, the accuracy
    it reports lies in [0, 1] whatever the batches and the predictions
    are, and the sample count is the size of the dataset. *)
Theorem evaluate_accuracy_range T c seed r :
  Client.evaluate T c seed = Ok r ->
  Client.model c <> None /\
  0 <= accuracy r <= 1 /\
  eval_num_samples r = Z.of_nat (List.length (Client.dataset c)).
Proof.
  unfold Client.evaluate. destruct (Client.model c) as [m|]; [|discriminate].
  cbv zeta. intros [= <-]. cbn [accuracy eval_num_samples].
  set (batches := Client.dataloader T (Client.dataset c) (batch_size (Client.cfg c)) seed 0).
  destruct (evaluate_batches_spec T m batches 0 0 0) as [Hc Ht].
  split; [discriminate|]. split; [|reflexivity].
  destruct (Nat.ltb_spec 0 (snd (fst (Client.evaluate_batches T m batches 0 0 0))))
    as [Hpos|_]; [|split; discriminate].
  apply fraction_range; [|exact Hpos].
  rewrite Hc, Ht. simpl. apply count_correct_le.
Qed.


Lemma as_federated_well_behaved T eval_seed c gm0 :
  preserves_shapes T -> NoDup (keys gm0) -> Client.dataset c <> [] ->
  well_behaved gm0 (as_federated T eval_seed c).
Proof.
  intros HT Hnd Hne gm seed u m Hk _ Hrun. cbn [as_federated local_train] in Hrun.
  destruct (Client.local_train T (Client.set_model gm c) seed) as [[u0 c']|e] eqn:Hlt;
    [|discriminate].
  destruct (Client.model c') as [trained|] eqn:Hc'; [|discriminate].
  injection Hrun as -> ->.
  assert (Hnd' : NoDup (keys gm)) by (rewrite Hk; exact Hnd).
  destruct (local_train_schema T (Client.set_model gm c) seed u c' gm HT Hlt eq_refl Hnd')
    as [_ Hs].
  destruct (local_train_inv T _ seed u c' HT Hlt) as [_ [_ [_ [_ [_ [_ [_ [_ [Hn _]]]]]]]]].
  split; [exact Hs|]. rewrite Hn. cbn [Client.set_model Client.dataset].
  destruct (Client.dataset c); [congruence | simpl; lia].
Qed.

Lemma same_shapes_map (f : Tensor -> Tensor) d :
  (forall t, List.length (f t) = List.length t) ->
  same_shapes d (map (fun kv => (fst kv, f (snd kv))) d).
Proof.
  intro Hf. split.
  - unfold keys. rewrite map_map. reflexivity.
  - intros k g. induction d as [|[k0 t0] d IH]; simpl; [discriminate|].
    destruct (String.eqb k k0); [|exact IH].
    intros [= ->]. eexists. split; [reflexivity | apply Hf].
Qed.

Lemma shift_step_preserves_shapes T :
  Client.training_step T = Example.shift_step -> preserves_shapes T.
Proof.
  intros HT config state batch seed n state' l. rewrite HT. unfold Example.shift_step.
  intros [= <- _]. apply same_shapes_map. intro t. apply length_map.
Qed.

(** X23.  The exception "Model not set for client" cannot occur inside
    [train]: the server sets the model of every selected client before it
    trains, and whatever else a client raises in training or evaluation is
    caught.  For a global model that is a [LaundryPredictionModel] of
    hidden size 128, a training step that keeps the architecture and
    clients that each hold at least one sample, [train] over a federation
    of such clients never raises. *)
Theorem train_with_clients T eval_seed cs w :
  preserves_shapes T ->
  clonable (global_model (server w)) ->
  cs <> [] ->
  Forall (fun c => Client.dataset c <> []) cs ->
  clients (server w) = map (as_federated T eval_seed) cs ->
  exists h w', train w = Ok (h, w').
Proof.
  intros HT Hclone Hne Hdata Hcl.
  pose proof (clonable_NoDup _ Hclone) as Hnd.
  assert (HP : (1 <= List.length (clients (server w)))%nat).
  { rewrite Hcl, length_map. destruct cs; [congruence | simpl; lia]. }
  assert (Hwb : Forall (well_behaved (global_model (server w))) (clients (server w))).
  { rewrite Hcl. apply Forall_map. eapply Forall_impl; [|exact Hdata].
    intros c Hc. apply as_federated_well_behaved; assumption. }
  destruct (train_loop_returns (server w)
              (seq 0 (Z.to_nat (num_rounds (config (server w))))) []
              {| best_accuracy := 0; no_improvement_count := 0 |} w HP
              (same_architecture_refl _) Hwb) as [[[hr t] conv] [w' Hrun]].
  eexists. exists w'. unfold train. unfold bind at 1. unfold get_server.
  unfold bind at 1. rewrite Hrun. reflexivity.
Qed.

Lemma train_with_clients_witness :
  exists h w', train Example.federation = Ok (h, w').
Proof.
  apply (train_with_clients Example.torch 0 [Example.facility_0; Example.facility_1]
           Example.federation).
  - apply shift_step_preserves_shapes. reflexivity.
  - exact laundry_model_clonable.
  - discriminate.
  - repeat constructor; discriminate.
  - reflexivity.
Defined.

Lemma local_train_update_witness :
  exists m final_state,
    Client.model (Client.set_model Example.model0 Example.facility_0) = Some m /\
    m <> [] /\
    0 <= learning_rate (Client.cfg (Client.set_model Example.model0 Example.facility_0)) /\
    Client.model (snd Example.trained_0) = Some final_state /\
    same_shapes m final_state /\
    Client.id (snd Example.trained_0) = "facility_0"%string /\
    Client.cfg (snd Example.trained_0) = Scenario.with_rounds 2 1 /\
    Client.dataset (snd Example.trained_0) = Client.dataset Example.facility_0 /\
    u_client_id (fst Example.trained_0) = "facility_0"%string /\
    num_samples (fst Example.trained_0) = 3%Z /\
    (NoDup (keys m) ->
     keys (updates (fst Example.trained_0)) = keys m /\
     follows_schema m (keys m) (updates (fst Example.trained_0))).
Proof.
  refine (local_train_update Example.torch
            (Client.set_model Example.model0 Example.facility_0) 0%nat
            (fst Example.trained_0) (snd Example.trained_0) _ _).
  - apply shift_step_preserves_shapes. reflexivity.
  - vm_compute. reflexivity.
Defined.

Lemma local_train_idle_witness :
  exists u,
    Client.local_train Example.torch Example.resting 0 = Ok (u, Example.resting) /\
    loss u = 0 /\
    num_samples u = 3%Z /\
    keys (updates u) = keys Example.model0 /\
    forall key d, lookup key (updates u) = Some d -> Forall (fun x => x == 0) d.
Proof.
  refine (local_train_idle Example.torch Example.resting 0%nat Example.model0 _ _ _ _ _).
  - reflexivity.
  - simpl. repeat constructor. simpl. tauto.
  - discriminate.
  - discriminate.
  - simpl. lia.
Defined.

Lemma evaluate_accuracy_range_witness :
  Client.model (Client.set_model Example.model0 Example.facility_0) <> None /\
  0 <= accuracy Example.evaluated_0 <= 1 /\
  eval_num_samples Example.evaluated_0 = 3%Z.
Proof.
  refine (evaluate_accuracy_range Example.torch
            (Client.set_model Example.model0 Example.facility_0) 0%nat
            Example.evaluated_0 _).
  vm_compute. reflexivity.
Defined.



(** ** [setup_federation] *)

Lemma new_client_ok i data cfg :
  data <> [] -> (0 < batch_size cfg)%Z ->
  Coordinator.new_client i data cfg = Ok (Coordinator.client_state i data cfg).
Proof.
  intros Hd Hb. unfold Coordinator.new_client.
  destruct data; [congruence|]. simpl.
  destruct (Z.leb_spec (batch_size cfg) 0); [lia | reflexivity].
Qed.

Lemma new_client_raises i data cfg :
  data = [] \/ (batch_size cfg <= 0)%Z ->
  exists msg, Coordinator.new_client i data cfg = Raise (ValueError msg).
Proof.
  intros H. unfold Coordinator.new_client. destruct data as [|x data]; simpl.
  - eexists; reflexivity.
  - destruct H as [H|H]; [discriminate|].
    destruct (Z.leb_spec (batch_size cfg) 0); [eexists; reflexivity | lia].
Qed.

Lemma add_clients_spec T eval_seed cfg facility_data : forall i w,
  (0 < batch_size cfg)%Z -> Forall (fun data => data <> []) facility_data ->
  Coordinator.add_clients T eval_seed cfg i facility_data w
  = Ok (tt, {| server :=
                 {| global_model := global_model (server w);
                    config := config (server w);
                    clients := clients (server w)
                               ++ Coordinator.enrolled T eval_seed cfg i facility_data;
                    round_results := round_results (server w) |};
               store := store w; rng := rng w |}).
Proof.
  induction facility_data as [|data rest IH]; intros i w Hb Hd.
  - simpl. unfold ret. rewrite app_nil_r. destruct w as [[gm c cl rr] st g]. reflexivity.
  - inversion Hd as [|? ? Hdata Hrest]; subst.
    cbn [Coordinator.add_clients Coordinator.enrolled]. unfold bind at 1.
    unfold lift. rewrite (new_client_ok i data cfg Hdata Hb).
    unfold bind at 1.
    unfold add_client, bind, get_server, put_server. cbn [server store rng].
    rewrite IH by assumption.
    cbn [server store rng global_model config clients round_results].
    rewrite <- app_assoc. reflexivity.
Qed.

Lemma add_clients_raises T eval_seed cfg facility_data : forall i w,
  facility_data <> [] ->
  (batch_size cfg <= 0)%Z \/ Exists (fun data => data = []) facility_data ->
  exists msg,
    Coordinator.add_clients T eval_seed cfg i facility_data w = Raise (ValueError msg).
Proof.
  induction facility_data as [|data rest IH]; intros i w Hne H; [congruence|].
  cbn [Coordinator.add_clients]. unfold bind at 1. unfold lift.
  destruct (Z_le_gt_dec (batch_size cfg) 0) as [Hb|Hb].
  - destruct (new_client_raises i data cfg (or_intror Hb)) as [msg ->].
    eexists; reflexivity.
  - destruct H as [H|H]; [lia|].
    destruct data as [|x data'].
    + destruct (new_client_raises i [] cfg (or_introl eq_refl)) as [msg ->].
      eexists; reflexivity.
    + rewrite new_client_ok by (try discriminate; lia).
      unfold bind at 1. unfold add_client, bind, get_server, put_server.
      inversion H as [? ? H0|? ? H0]; subst; [discriminate|].
      apply IH; [|right; exact H0].
      intro E. subst. inversion H0.
Qed.

Lemma enrolled_ids T eval_seed cfg facility_data : forall i,
  map client_id (Coordinator.enrolled T eval_seed cfg i facility_data)
  = map Coordinator.facility_name (seq i (List.length facility_data)).
Proof.
  induction facility_data as [|data rest IH]; intro i; simpl; [reflexivity|].
  rewrite IH. reflexivity.
Qed.

Lemma facility_name_inj i j :
  Coordinator.facility_name i = Coordinator.facility_name j -> i = j.
Proof.
  unfold Coordinator.facility_name. intro H.
  assert (Hs : NilEmpty.string_of_uint (Nat.to_uint i)
               = NilEmpty.string_of_uint (Nat.to_uint j)).
  { simpl in H. repeat (injection H as H). exact H. }
  apply Unsigned.to_uint_inj.
  assert (Hu : Some (Nat.to_uint i) = Some (Nat.to_uint j))
    by (rewrite <- !NilEmpty.usu, Hs; reflexivity).
  congruence.
Qed.

Lemma NoDup_map_injective {A B} (f : A -> B) l :
  (forall x y, f x = f y -> x = y) -> NoDup l -> NoDup (map f l).
Proof.
  intros Hf. induction 1 as [|x l Hx _ IH]; simpl; constructor; [|exact IH].
  intro Hin. apply in_map_iff in Hin. destruct Hin as [y [Hy Hin]].
  apply Hf in Hy. subst. contradiction.
Qed.

(** X25.  [setup_federation] returns when the batch size is positive and
    every facility has data.  The server it builds then holds the initial
    model, no round result, and one client per facility in the order of
    the data, named [facility_0], [facility_1], ...: the identifiers of a
    federation set up this way are pairwise distinct.  When there are
    facilities and the batch size is not positive or one of them has no
    data, it raises the [ValueError] of the [DataLoader]. *)
Theorem setup_federation_registry T eval_seed initial_model cfg facility_data g :
  ((0 < batch_size cfg)%Z -> Forall (fun data => data <> []) facility_data ->
   exists w,
     Coordinator.setup_federation T eval_seed initial_model cfg facility_data g = Ok w /\
     clients (server w) = Coordinator.enrolled T eval_seed cfg 0 facility_data /\
     map client_id (clients (server w))
     = map Coordinator.facility_name (seq 0 (List.length facility_data)) /\
     NoDup (map client_id (clients (server w))) /\
     List.length (clients (server w)) = List.length facility_data /\
     global_model (server w) = initial_model /\
     config (server w) = cfg /\
     round_results (server w) = []) /\
  (facility_data <> [] ->
   (batch_size cfg <= 0)%Z \/ Exists (fun data => data = []) facility_data ->
   exists msg,
     Coordinator.setup_federation T eval_seed initial_model cfg facility_data g
     = Raise (ValueError msg)).
Proof.
  unfold Coordinator.setup_federation. cbv zeta. split.
  - intros Hb Hd. rewrite add_clients_spec by assumption.
    eexists. split; [reflexivity|].
    cbn [snd server clients global_model config round_results app].
    assert (Hids := enrolled_ids T eval_seed cfg facility_data 0).
    split; [reflexivity|]. split; [exact Hids|]. split; [|split; [|repeat split]].
    + rewrite Hids. apply NoDup_map_injective; [|apply seq_NoDup].
      intros i j. apply facility_name_inj.
    + rewrite <- (length_map client_id), Hids, length_map, length_seq. reflexivity.
  - intros Hne H.
    destruct (add_clients_raises T eval_seed cfg facility_data 0
                {| server := {| global_model := initial_model; config := cfg;
                                clients := []; round_results := [] |};
                   store := []; rng := g |} Hne H) as [msg ->].
    exists msg. reflexivity.
Qed.

Lemma setup_federation_registry_witness :
  (exists w,
     Coordinator.setup_federation Example.torch 0 Example.laundry_model
       (Scenario.with_rounds 2 1)
       [Client.dataset Example.facility_0; Client.dataset Example.facility_1]
       (fun i => i) = Ok w /\
     map client_id (clients (server w)) = ["facility_0"%string; "facility_1"%string] /\
     NoDup (map client_id (clients (server w)))) /\
  (exists msg,
     Coordinator.setup_federation Example.torch 0 Example.laundry_model
       (Scenario.with_rounds 2 1) [Client.dataset Example.facility_0; []] (fun i => i)
     = Raise (ValueError msg)).
Proof.
  split.
  - destruct (proj1 (setup_federation_registry Example.torch 0 Example.laundry_model
                       (Scenario.with_rounds 2 1)
                       [Client.dataset Example.facility_0;
                        Client.dataset Example.facility_1] (fun i => i)))
      as [w [Hw [_ [Hids [Hnd _]]]]].
    + reflexivity.
    + repeat constructor; discriminate.
    + exists w. split; [exact Hw|]. split; [exact Hids | exact Hnd].
  - refine (proj2 (setup_federation_registry Example.torch 0 Example.laundry_model
                     (Scenario.with_rounds 2 1)
                     [Client.dataset Example.facility_0; []] (fun i => i)) _ _).
    + discriminate.
    + right. apply Exists_cons_tl. apply Exists_cons_hd. reflexivity.
Defined.

(** ** The labels of the synthetic data *)

Section Labels.

Import SyntheticData.

Lemma weekend_factor_range day : 1 <= weekend_factor day <= 15 # 10.
Proof. unfold weekend_factor. destruct (5 <=? day)%Z; split; lra. Qed.

Lemma evening_factor_range hour : 1 <= evening_factor hour <= 13 # 10.
Proof. unfold evening_factor. destruct ((18 <=? hour) || (hour <=? 6))%Z; split; lra. Qed.

Lemma holiday_factor_range holiday : 7 # 10 <= holiday_factor holiday <= 1.
Proof. unfold holiday_factor. destruct (holiday =? 1)%Z; split; lra. Qed.

Lemma label_cases hour day holiday occupancy noise :
  let score := demand_score hour day holiday occupancy noise in
  (score < 3 # 10 /\ label hour day holiday occupancy noise = 0%Z) \/
  (3 # 10 <= score /\ score < 7 # 10 /\ label hour day holiday occupancy noise = 1%Z) \/
  (7 # 10 <= score /\ label hour day holiday occupancy noise = 2%Z).
Proof.
  cbv zeta. unfold label, digitize.
  set (score := demand_score hour day holiday occupancy noise).
  cbn [filter].
  destruct (Qle_bool (3 # 10) score) eqn:H1;
    destruct (Qle_bool (7 # 10) score) eqn:H2;
    destruct (Qle_bool 1 score) eqn:H3;
    try (apply Qle_bool_iff in H1); try (apply Qle_bool_iff in H2);
    try (apply Qle_bool_iff in H3);
    try (assert (~ 3 # 10 <= score) by (rewrite <- Qle_bool_iff; congruence));
    try (assert (~ 7 # 10 <= score) by (rewrite <- Qle_bool_iff; congruence));
    try (assert (~ 1 <= score) by (rewrite <- Qle_bool_iff; congruence));
    try lra;
    first [ left; split; [lra | reflexivity]
          | right; left; split; [lra | split; [lra | reflexivity]]
          | right; right; split; [lra | reflexivity] ].
Qed.

(** X26.  The class of a sample: 0 below a demand score of 0.3, 1 from 0.3 up to
    0.7 and 2 from 0.7 on.  The third bin edge, 1.0, changes nothing: the
    class 3 that [digitize] gives from there on is clipped to 2, so every
    label is one of the three classes of the model. *)
Theorem label_thresholds hour day holiday occupancy noise :
  let score := demand_score hour day holiday occupancy noise in
  let l := label hour day holiday occupancy noise in
  (0 <= l <= 2)%Z /\
  (l = 0%Z <-> score < 3 # 10) /\
  (l = 1%Z <-> 3 # 10 <= score /\ score < 7 # 10) /\
  (l = 2%Z <-> 7 # 10 <= score).
Proof.
  cbv zeta.
  destruct (label_cases hour day holiday occupancy noise)
    as [[H1 ->]|[[H1 [H2 ->]]|[H1 ->]]];
    (split; [lia|]); repeat split; intros; try lia; try lra; try discriminate.
Qed.

(** X27.  The factors alone give a score of at least 0.57, so the class "low
    demand" needs [occupancy / 100 + noise] below -1.35: a sample with a
    non-negative occupancy and a noise draw above -1.35 is never labelled
    0. *)
Theorem label_low_demand hour day holiday occupancy noise :
  label hour day holiday occupancy noise = 0%Z ->
  occupancy / 100 + noise < - (135 # 100).
Proof.
  intro Hl.
  destruct (label_cases hour day holiday occupancy noise)
    as [[H1 _]|[[_ [_ H]]|[_ H]]]; [|congruence|congruence].
  unfold demand_score in H1.
  pose proof (weekend_factor_range day). pose proof (evening_factor_range hour).
  pose proof (holiday_factor_range holiday).
  set (x := occupancy / 100) in *. lra.
Qed.

(** X28.  On a weekend evening or night the factors give at least 0.78: with
    [occupancy / 100 + noise] at or above -0.4 the sample is labelled
    "high demand". *)
Theorem label_weekend_evening hour day holiday occupancy noise :
  (5 <= day)%Z -> (18 <= hour \/ hour <= 6)%Z ->
  - (4 # 10) <= occupancy / 100 + noise ->
  label hour day holiday occupancy noise = 2%Z.
Proof.
  intros Hd Hh Hx.
  destruct (label_cases hour day holiday occupancy noise)
    as [[H1 _]|[[_ [H1 _]]|[_ H]]]; [exfalso|exfalso|exact H];
    unfold demand_score in H1;
    pose proof (holiday_factor_range holiday);
    unfold weekend_factor, evening_factor in H1;
    (replace (5 <=? day)%Z with true in H1 by (symmetry; apply Z.leb_le; lia));
    (replace ((18 <=? hour) || (hour <=? 6))%Z with true in H1
      by (symmetry; apply orb_true_iff; rewrite !Z.leb_le; lia));
    set (x := occupancy / 100) in *; lra.
Qed.

Lemma label_low_demand_witness : - (200 # 1) / 100 + 0 < - (135 # 100).
Proof.
  apply (label_low_demand 12 0 0 (- (200 # 1)) 0). vm_compute. reflexivity.
Defined.

Lemma label_weekend_evening_witness : label 20 6 0 50 0 = 2%Z.
Proof.
  apply (label_weekend_evening 20 6 0 50 0).
  - lia.
  - left. lia.
  - vm_compute. discriminate.
Defined.

End Labels.
